(** * SokobanQLearning: the game engine and the Q-learning step

    A shallow embedding of [include/Sokoban.hpp] (class [Sokoban::Game]) and
    of [include/SokobanQLearning.hpp] ([QTable], [FindAction], [Train]),
    followed by the properties of the engine and of the learner.

    Conventions of the embedding.
    - Fixed-width integers are [Z] with the wrap-around written out
      ([to_MazeInt], [to_SizeInt], [to_DirectionInt], [to_TimeInt]).
    - [std::vector<std::vector<T>>] is [list (list T)]; an access through
      [operator[]] outside the vector has no defined behaviour in C++ and is
      [None] here, so every engine operation lives in the [option] monad.
    - [std::set<Pos>] is a strictly increasing [list Pos] (iteration order is
      the lexicographic order of pairs); [std::unordered_set] and the
      visited sets of the recursive checks are [gset]s; the Q-table's
      [std::unordered_map] is a [gmap].
    - Recursive member functions carry a [fuel : nat]; running out of fuel is
      [None] as well, and the totality theorems show that it never happens
      on a state the program can reach. *)

From Stdlib Require Import ZArith Lia List Ascii String Bool Sorted.
From stdpp Require Import base option list gmap sets strings.

Local Open Scope Z_scope.

(** ** Integer types of [namespace Sokoban] *)

Definition wrap_signed (w z : Z) : Z := (z + 2 ^ (w - 1)) mod 2 ^ w - 2 ^ (w - 1).
Definition wrap_unsigned (w z : Z) : Z := z mod 2 ^ w.

(** [int_least8_t], [int_least16_t], [uint_least8_t], [uint_least64_t]. *)
Definition to_MazeInt (z : Z) : Z := wrap_signed 8 z.
Definition to_BitsInt (z : Z) : Z := wrap_signed 8 z.
Definition to_SizeInt (z : Z) : Z := wrap_signed 16 z.
Definition to_DirectionInt (z : Z) : Z := wrap_unsigned 8 z.
Definition to_PosInt (z : Z) : Z := wrap_unsigned 8 z.
Definition to_TimeInt (z : Z) : Z := wrap_unsigned 64 z.

Definition NoDirection : Z := 0.
Definition Up : Z := 1.
Definition Left : Z := 2.
Definition Right : Z := 4.
Definition Down : Z := 8.

Definition IsWall : Z := 0.
Definition IsFloor : Z := 1.
Definition IsGoal : Z := 2.
Definition IsBox : Z := 4.
Definition IsPlayer : Z := 8.

(** [typedef std::pair<MazeInt, MazeInt> Pos]. *)
Abbreviation Pos := (Z * Z)%type (only parsing).

(** [Sokoban::Movement]. *)
Definition Movement (direction : Z) : Pos :=
  if direction =? Up then (-1, 0)
  else if direction =? Left then (0, -1)
  else if direction =? Right then (0, 1)
  else if direction =? Down then (1, 0)
  else (0, 0).

(** ** [std::set<Pos>] as a strictly increasing list *)

Definition pos_ltb (a b : Pos) : bool :=
  (a.1 <? b.1) || ((a.1 =? b.1) && (a.2 <? b.2)).

Definition pos_eqb (a b : Pos) : bool := (a.1 =? b.1) && (a.2 =? b.2).

Fixpoint set_insert (p : Pos) (s : list Pos) : list Pos :=
  match s with
  | [] => [p]
  | q :: s' =>
      if pos_ltb p q then p :: s
      else if pos_ltb q p then q :: set_insert p s'
      else s
  end.

Fixpoint set_erase (p : Pos) (s : list Pos) : list Pos :=
  match s with
  | [] => []
  | q :: s' => if pos_eqb q p then s' else q :: set_erase p s'
  end.

Definition set_count (p : Pos) (s : list Pos) : bool := existsb (pos_eqb p) s.

(** ** [std::vector<std::vector<Z>>] with unchecked indexing *)

Definition vec2_get (v : list (list Z)) (i j : Z) : option Z :=
  if (i <? 0) || (j <? 0) then None
  else row ← v !! Z.to_nat i; row !! Z.to_nat j.

Definition vec2_set (v : list (list Z)) (i j : Z) (x : Z) : option (list (list Z)) :=
  if (i <? 0) || (j <? 0) then None
  else
    row ← v !! Z.to_nat i;
    _ ← row !! Z.to_nat j;
    Some (<[Z.to_nat i := <[Z.to_nat j := x]> row]> v).

(** [v[i][j] |= flag] on a vector of [PosInt]. *)
Definition vec2_or (v : list (list Z)) (i j : Z) (flag : Z) : option (list (list Z)) :=
  x ← vec2_get v i j;
  vec2_set v i j (to_PosInt (Z.lor x flag)).

(** A left fold whose step may be undefined. *)
Fixpoint foldM {A B : Type} (f : A → B → option A) (a : A) (l : list B) : option A :=
  match l with
  | [] => Some a
  | b :: l' => a' ← f a b; foldM f a' l'
  end.

(** ** Errors and outcomes *)

(** [Sokoban::Error], a [std::runtime_error] carrying its message. *)
Inductive Error : Type := MkError (message : string).

(** What a call can do: return, throw a [Sokoban::Error], or leave the
    behaviour the language defines. *)
Inductive outcome (A : Type) : Type :=
  | Done (a : A)
  | Throws (e : Error)
  | Undefined.
Arguments Done {A} a.
Arguments Throws {A} e.
Arguments Undefined {A}.

(** ** The game state: the data members of [Game<StateBits>] *)

Record Game : Type := mkGame {
  Succeeded : bool;
  Failed : bool;
  Directions : Z;
  Height : Z;
  Width : Z;
  FloorBits : Z;
  Finished : Z;
  State : Z;
  TimeElapsed : Z;
  PlayerPos0 : Pos;
  PlayerPos : Pos;
  BoxPos0 : list Pos;
  BoxPos : list Pos;
  GoalPos : list Pos;
  Maze : list (list Z);
  FloorIndex : list (list Z);
  StateHistory : gset Z
}.

(** [Game::CheckFloor]. *)
Definition CheckFloor (g : Game) (line col : Z) : option bool :=
  if (line <? 0) || (Height g <=? line) then Some false
  else if (col <? 0) || (Width g <=? col) then Some false
  else x ← vec2_get (FloorIndex g) line col; Some (0 <=? x).

(** The body of [Game::CheckDirection]; [self] stands for the recursive
    call, which always passes [can_push_box = false]. *)
Definition CheckDirection_body (self : Z → Z → option bool)
    (g : Game) (direction line col : Z) (can_push_box : bool) : option bool :=
  let movement := Movement direction in
  fl ← CheckFloor g (to_MazeInt (line + movement.1)) (to_MazeInt (col + movement.2));
  if negb fl then Some false
  else
    c ← vec2_get (Maze g) (line + movement.1) (col + movement.2);
    if negb (Z.land c IsBox =? 0) then
      if can_push_box then
        r ← self (to_MazeInt (line + movement.1)) (to_MazeInt (col + movement.2));
        if negb r then Some false else Some true
      else Some false
    else Some true.

(** [Game::CheckDirection]: the call with [can_push_box = false] never
    recurses, so the recursion has depth at most two. *)
Definition CheckDirection (g : Game) (direction line col : Z) (can_push_box : bool)
    : option bool :=
  CheckDirection_body
    (λ l c, CheckDirection_body (λ _ _, None) g direction l c false)
    g direction line col can_push_box.

(** [Game::BoxStuck] after the visited-set bookkeeping: the test of the two
    neighbours [(l1, c1)] and [(l2, c2)] along one axis.  [self] is the
    recursive call on the other axis. *)
Definition BoxStuck_neighbours
    (self : Z → Z → gset (Pos * bool) → option (bool * gset (Pos * bool)))
    (g : Game) (l1 c1 l2 c2 : Z) (vis : gset (Pos * bool))
    : option (bool * gset (Pos * bool)) :=
  f1 ← CheckFloor g (to_MazeInt l1) (to_MazeInt c1);
  blocked ← (if negb f1 then Some true
             else f2 ← CheckFloor g (to_MazeInt l2) (to_MazeInt c2); Some (negb f2));
  if (blocked : bool) then Some (true, vis)
  else
    m1 ← vec2_get (Maze g) l1 c1;
    '(r1, vis1) ← (if negb (Z.land m1 IsBox =? 0)
                   then self (to_MazeInt l1) (to_MazeInt c1) vis
                   else Some (false, vis));
    if (r1 : bool) then Some (true, vis1)
    else
      m2 ← vec2_get (Maze g) l2 c2;
      if negb (Z.land m2 IsBox =? 0)
      then self (to_MazeInt l2) (to_MazeInt c2) vis1
      else Some (false, vis1).

(** [Game::BoxStuck]; [vis] is passed by reference in the source, so the
    updated set is returned next to the result. *)
Fixpoint BoxStuck (fuel : nat) (g : Game) (line col : Z) (is_horizontal : bool)
    (vis : gset (Pos * bool)) : option (bool * gset (Pos * bool)) :=
  match fuel with
  | O => None
  | S n =>
      let current := ((line, col), is_horizontal) in
      if decide (current ∈ vis) then Some (true, vis ∖ {[current]})
      else
        let vis := vis ∪ {[current]} in
        let self := λ l c v, BoxStuck n g l c (negb is_horizontal) v in
        '(ret, vis) ←
          (if is_horizontal
           then BoxStuck_neighbours self g line (col - 1) line (col + 1) vis
           else BoxStuck_neighbours self g (line - 1) col (line + 1) col vis);
        Some (ret, vis ∖ {[current]})
  end.

(** One of the four [for] loops of [Game::WallStuck]: [along p] is the cell
    visited at loop index [p], [beside p] the cell next to it on the wall
    side.  [Some None] is the early [return false]; [Some (Some counts)] is
    normal termination with the running [(box_count, goal_count)]. *)
Fixpoint WallStuck_run (fuel : nat) (g : Game) (along beside : Z → Pos)
    (p step : Z) (counts : Z * Z) : option (option (Z * Z)) :=
  match fuel with
  | O => None
  | S n =>
      fl ← CheckFloor g (along p).1 (along p).2;
      if negb fl then Some (Some counts)
      else
        opening ← CheckFloor g (to_MazeInt (beside p).1) (to_MazeInt (beside p).2);
        if (opening : bool) then Some None
        else
          c ← vec2_get (Maze g) (along p).1 (along p).2;
          let box_count :=
            if negb (Z.land c IsBox =? 0) then to_MazeInt (counts.1 + 1) else counts.1 in
          let goal_count :=
            if negb (Z.land c IsGoal =? 0) then to_MazeInt (counts.2 + 1) else counts.2 in
          WallStuck_run n g along beside (to_MazeInt (p + step)) step (box_count, goal_count)
  end.

(** A loop counter of type [MazeInt] takes at most 256 values. *)
Definition MazeInt_range : nat := 256.

(** [Game::WallStuck]. *)
Definition WallStuck (g : Game) (line col side : Z) : option bool :=
  c ← vec2_get (Maze g) line col;
  let box_count := if negb (Z.land c IsBox =? 0) then 1 else 0 in
  let goal_count := if negb (Z.land c IsGoal =? 0) then 1 else 0 in
  let movement := Movement side in
  let along := if negb (movement.1 =? 0) then (λ p, (line, p)) else (λ p, (p, col)) in
  let beside :=
    if negb (movement.1 =? 0) then (λ p, (line - movement.1, p))
    else (λ p, (p, col - movement.2)) in
  let start := if negb (movement.1 =? 0) then col else line in
  r1 ← WallStuck_run MazeInt_range g along beside (to_MazeInt (start - 1)) (-1)
         (box_count, goal_count);
  match r1 with
  | None => Some false
  | Some counts =>
      r2 ← WallStuck_run MazeInt_range g along beside (to_MazeInt (start + 1)) 1 counts;
      match r2 with
      | None => Some false
      | Some (box_count, goal_count) => Some (goal_count <? box_count)
      end
  end.

(** [Sokoban::AllDirections].

    Modelled from the spec: the constant is used by
    [SokobanQLearning.hpp] but its declaration is not part of the sources at
    hand; the spec fixes the scan order Up, Left, Right, Down, which is also
    the initializer list that [Game::UpdateData] and [Game::CanPushAny]
    iterate over. *)
Definition AllDirections : list Z := [Up; Left; Right; Down].

(** [Game::CanPushAny]; the visited set is returned as for [BoxStuck]. *)
Fixpoint CanPushAny (fuel : nat) (g : Game) (line col : Z) (vis : gset Pos)
    : option (bool * gset Pos) :=
  match fuel with
  | O => None
  | S n =>
      let p := (line, col) in
      if decide (p ∈ vis) then Some (false, vis)
      else
        foldM
          (λ '(ret, vis) d,
             let movement := Movement d in
             free ← CheckDirection g d line col false;
             if (free : bool) then
               if (ret : bool) then Some (true, vis)
               else CanPushAny n g (to_MazeInt (line + movement.1))
                      (to_MazeInt (col + movement.2)) vis
             else
               if ret then Some (true, vis)
               else push ← CheckDirection g d line col true; Some (push, vis))
          (false, vis ∪ {[p]}) [Up; Left; Right; Down]
  end.

(** Conversion of a signed integer to [std::size_t] (64 bits). *)
Definition to_size_t (z : Z) : Z := wrap_unsigned 64 z.

(** Recursion budgets: [BoxStuck] explores duplicate-free paths of
    (cell, axis) pairs, [CanPushAny] visits every cell at most once. *)
Definition BoxStuck_fuel (g : Game) : nat := S (2 * (Z.to_nat (Height g) * Z.to_nat (Width g))).
Definition CanPushAny_fuel (g : Game) : nat := S (Z.to_nat (Height g) * Z.to_nat (Width g)).

(** The body of the [for] loop over [BoxPos] in [Game::CheckFailed]; the
    result [true] is the loop's [return true]. *)
Definition CheckFailed_box (g : Game) (b : Pos) : option bool :=
  '(stuck_vertical, _) ← BoxStuck (BoxStuck_fuel g) g b.1 b.2 false ∅;
  '(stuck_horizontal, _) ← BoxStuck (BoxStuck_fuel g) g b.1 b.2 true ∅;
  c ← vec2_get (Maze g) b.1 b.2;
  if c =? Z.lor (Z.lor IsFloor IsGoal) IsBox then Some false
  else if (stuck_vertical : bool) && (stuck_horizontal : bool) then Some true
  else
    v ← (if stuck_vertical then
           f1 ← CheckFloor g (to_MazeInt (b.1 - 1)) b.2;
           s1 ← (if negb f1 then WallStuck g b.1 b.2 Down else Some false);
           f2 ← CheckFloor g (to_MazeInt (b.1 + 1)) b.2;
           if negb f2 then (if (s1 : bool) then Some true else WallStuck g b.1 b.2 Up)
           else Some s1
         else Some false);
    if (v : bool) then Some true
    else
      if stuck_horizontal then
        f1 ← CheckFloor g b.1 (to_MazeInt (b.2 - 1));
        s1 ← (if negb f1 then WallStuck g b.1 b.2 Right else Some false);
        f2 ← CheckFloor g b.1 (to_MazeInt (b.2 + 1));
        if negb f2 then (if (s1 : bool) then Some true else WallStuck g b.1 b.2 Left)
        else Some s1
      else Some false.

(** [Game::CheckFailed]. *)
Definition CheckFailed (g : Game) : option bool :=
  if to_size_t (Finished g) =? Z.of_nat (length (BoxPos0 g)) then Some false
  else if Directions g =? 0 then Some true
  else
    found ← foldM (λ (found : bool) b, if found then Some true else CheckFailed_box g b)
              false (BoxPos g);
    if (found : bool) then Some true
    else
      '(can, _) ← CanPushAny (CanPushAny_fuel g) g (PlayerPos g).1 (PlayerPos g).2 ∅;
      Some (negb can).

Section Engine.

(** The template parameter of [Game<StateBits>]. *)
Variable StateBits : N.

(** [std::bitset<StateBits>] as the number whose binary digits it holds:
    construction from an integer (through [unsigned long long]) and
    [operator<<] by a [std::size_t] amount. *)
Definition bitset_of (v : Z) : Z := (wrap_unsigned 64 v) mod 2 ^ Z.of_N StateBits.
Definition bitset_shl (x k : Z) : Z := (Z.shiftl x (to_size_t k)) mod 2 ^ Z.of_N StateBits.

(** The first loop nest of [Game::UpdateData]: floor cells of a fresh maze. *)
Definition UpdateData_floor (g : Game) : option (list (list Z)) :=
  foldM
    (λ m i,
       foldM
         (λ m j,
            x ← vec2_get (FloorIndex g) i j;
            if 0 <=? x then vec2_set m i j IsFloor else Some m)
         m (seqZ 0 (Width g)))
    (replicate (Z.to_nat (Height g)) (replicate (Z.to_nat (Width g)) IsWall))
    (seqZ 0 (Height g)).

(** The loop over [BoxPos] of [Game::UpdateData], on the tuple
    [(Maze, Finished, State, offset)]. *)
Definition UpdateData_box (g : Game) (acc : list (list Z) * Z * Z * Z) (i : Pos)
    : option (list (list Z) * Z * Z * Z) :=
  let '(maze, finished, state, offset) := acc in
  maze ← vec2_or maze i.1 i.2 IsBox;
  c ← vec2_get maze i.1 i.2;
  let finished :=
    if c =? Z.lor (Z.lor IsFloor IsGoal) IsBox then to_SizeInt (finished + 1) else finished in
  x ← vec2_get (FloorIndex g) i.1 i.2;
  let offset := to_SizeInt (offset + 1) in
  Some (maze, finished, Z.lor state (bitset_shl (bitset_of x) (FloorBits g * offset)), offset).

(** [Game::UpdateData]. *)
Definition UpdateData (g : Game) : option Game :=
  maze ← UpdateData_floor g;
  maze ← foldM (λ m i, vec2_or m i.1 i.2 IsGoal) maze (GoalPos g);
  x ← vec2_get (FloorIndex g) (PlayerPos g).1 (PlayerPos g).2;
  '(maze, finished, state, _) ←
    foldM (UpdateData_box g) (maze, 0, bitset_of x, 0) (BoxPos g);
  maze ← vec2_or maze (PlayerPos g).1 (PlayerPos g).2 IsPlayer;
  let g1 :=
    mkGame (Succeeded g) (Failed g) NoDirection (Height g) (Width g) (FloorBits g)
      finished state (TimeElapsed g) (PlayerPos0 g) (PlayerPos g) (BoxPos0 g) (BoxPos g)
      (GoalPos g) maze (FloorIndex g) (StateHistory g) in
  directions ←
    foldM
      (λ dirs d,
         ok ← CheckDirection g1 d (PlayerPos g).1 (PlayerPos g).2 true;
         Some (if (ok : bool) then to_DirectionInt (Z.lor dirs d) else dirs))
      NoDirection [Up; Left; Right; Down];
  let g2 :=
    mkGame (to_size_t finished =? Z.of_nat (length (BoxPos0 g))) (Failed g) directions
      (Height g) (Width g) (FloorBits g) finished state (TimeElapsed g) (PlayerPos0 g)
      (PlayerPos g) (BoxPos0 g) (BoxPos g) (GoalPos g) maze (FloorIndex g)
      (StateHistory g) in
  failed ← CheckFailed g2;
  Some (mkGame (Succeeded g2) failed directions (Height g) (Width g) (FloorBits g)
          finished state (TimeElapsed g) (PlayerPos0 g) (PlayerPos g) (BoxPos0 g)
          (BoxPos g) (GoalPos g) maze (FloorIndex g) (StateHistory g)).

(** [Game::DoRestart] (the public [Restart] only forwards to it). *)
Definition DoRestart (g : Game) : option Game :=
  UpdateData
    (mkGame (Succeeded g) (Failed g) (Directions g) (Height g) (Width g) (FloorBits g)
       (Finished g) (State g) 0 (PlayerPos0 g) (PlayerPos0 g) (BoxPos0 g) (BoxPos0 g)
       (GoalPos g) (Maze g) (FloorIndex g) ∅).

Definition Restart (g : Game) : option Game := DoRestart g.

(** [Game::DoMove]: the new state and the returned [pushed] flag. *)
Definition DoMove (g : Game) (direction : Z) : option (Game * bool) :=
  if Z.land (Directions g) direction =? 0 then Some (g, false)
  else
    let movement := Movement direction in
    if movement.1 =? movement.2 then Some (g, false)
    else
      let player :=
        (to_MazeInt ((PlayerPos g).1 + movement.1), to_MazeInt ((PlayerPos g).2 + movement.2)) in
      let pushed := set_count player (BoxPos g) in
      let boxes :=
        if pushed
        then set_insert (to_MazeInt (player.1 + movement.1), to_MazeInt (player.2 + movement.2))
               (set_erase player (BoxPos g))
        else BoxPos g in
      g' ← UpdateData
             (mkGame (Succeeded g) (Failed g) (Directions g) (Height g) (Width g)
                (FloorBits g) (Finished g) (State g) (to_TimeInt (TimeElapsed g + 1))
                (PlayerPos0 g) player (BoxPos0 g) boxes (GoalPos g) (Maze g)
                (FloorIndex g) (StateHistory g ∪ {[State g]}));
      Some (g', pushed).

Definition Move (g : Game) (direction : Z) : option (Game * bool) := DoMove g direction.

(** ** Construction: [Game::Game(std::string maze)] *)

Definition newline : ascii := "010"%char.
Definition carriage_return : ascii := "013"%char.

(** The two trimming loops at the head of the constructor. *)
Fixpoint trim_front (maze : list ascii) : list ascii :=
  match maze with
  | c :: rest => if Ascii.eqb c newline then trim_front rest else maze
  | [] => []
  end.

Definition trim_back (maze : list ascii) : list ascii := rev (trim_front (rev maze)).

(** The local variables and members the scanning loop updates; [sc_floor]
    is the [std::queue<Pos> floor], front first. *)
Record Scan : Type := mkScan {
  sc_line : Z;
  sc_col : Z;
  sc_Height : Z;
  sc_Width : Z;
  sc_PlayerPos0 : Pos;
  sc_floor : list Pos;
  sc_GoalPos : list Pos;
  sc_BoxPos0 : list Pos
}.

Definition Scan_init : Scan := mkScan 0 (-1) 1 0 (-1, -1) [] [] [].

(** The inner [switch (c)] of the scanning loop, at cell
    [(sc_line s, sc_col s)]. *)
Definition Scan_cell (c : ascii) (s : Scan) : Error + Scan :=
  let here := (sc_line s, sc_col s) in
  let floor := sc_floor s ++ [here] in
  let has_player := 0 <=? (sc_PlayerPos0 s).1 + (sc_PlayerPos0 s).2 in
  let next player goals boxes :=
    mkScan (sc_line s) (sc_col s) (sc_Height s) (sc_Width s) player floor goals boxes in
  if Ascii.eqb c "."%char then
    inr (next (sc_PlayerPos0 s) (sc_GoalPos s) (sc_BoxPos0 s))
  else if Ascii.eqb c "*"%char then
    if has_player then inl (MkError "Too Many Players")
    else inr (next here (sc_GoalPos s) (sc_BoxPos0 s))
  else if Ascii.eqb c "$"%char then
    inr (next (sc_PlayerPos0 s) (set_insert here (sc_GoalPos s)) (sc_BoxPos0 s))
  else if Ascii.eqb c "&"%char then
    inr (next (sc_PlayerPos0 s) (sc_GoalPos s) (set_insert here (sc_BoxPos0 s)))
  else if Ascii.eqb c "+"%char then
    if has_player then inl (MkError "Too Many Players")
    else inr (next here (set_insert here (sc_GoalPos s)) (sc_BoxPos0 s))
  else if Ascii.eqb c "@"%char then
    inr (next (sc_PlayerPos0 s) (set_insert here (sc_GoalPos s))
           (set_insert here (sc_BoxPos0 s)))
  else inr s.

(** One iteration of [for (const auto &c : maze)]. *)
Definition Scan_step (s : Scan) (c : ascii) : Error + Scan :=
  if Ascii.eqb c carriage_return then inr s
  else if Ascii.eqb c newline then
    let line := to_MazeInt (sc_line s + 1) in
    if 125 <=? line then inl (MkError "Maze Too Large")
    else
      inr (mkScan line (-1)
             (if sc_Height s <=? line then to_MazeInt (line + 1) else sc_Height s)
             (sc_Width s) (sc_PlayerPos0 s) (sc_floor s) (sc_GoalPos s) (sc_BoxPos0 s))
  else
    let col := to_MazeInt (sc_col s + 1) in
    if 125 <=? col then inl (MkError "Maze Too Large")
    else
      Scan_cell c
        (mkScan (sc_line s) col (sc_Height s)
           (if sc_Width s <=? col then to_MazeInt (col + 1) else sc_Width s)
           (sc_PlayerPos0 s) (sc_floor s) (sc_GoalPos s) (sc_BoxPos0 s)).

Fixpoint Scan_loop (s : Scan) (maze : list ascii) : Error + Scan :=
  match maze with
  | [] => inr s
  | c :: rest =>
      match Scan_step s c with
      | inl e => inl e
      | inr s' => Scan_loop s' rest
      end
  end.

(** [for (SizeInt floor_remain = floor.size() - 1; floor_remain;
    floor_remain >>= 1) ++FloorBits;] *)
Fixpoint FloorBits_loop (fuel : nat) (floor_remain floor_bits : Z) : option Z :=
  match fuel with
  | O => None
  | S n =>
      if floor_remain =? 0 then Some floor_bits
      else FloorBits_loop n (Z.shiftr floor_remain 1) (to_BitsInt (floor_bits + 1))
  end.

(** A [SizeInt] has 16 bits, so a loop that halves one down to zero tests
    its condition at most 17 times. *)
Definition SizeInt_bits : nat := 17.

(** The loop that pops the queue and numbers the floor cells. *)
Definition FloorIndex_fill (height width : Z) (floor : list Pos) : option (list (list Z)) :=
  r ← foldM
         (λ '(fi, index) p,
            let index := to_SizeInt (index + 1) in
            fi ← vec2_set fi p.1 p.2 index;
            Some (fi, index))
         (replicate (Z.to_nat height) (replicate (Z.to_nat width) (-1)), -1)
         floor;
  Some r.1.

Definition of_option {A : Type} (o : option A) : outcome A :=
  match o with Some a => Done a | None => Undefined end.

(** [Game::Game]. *)
Definition Game_new (maze : string) : outcome Game :=
  let text := trim_back (trim_front (list_ascii_of_string maze)) in
  match Scan_loop Scan_init text with
  | inl e => Throws e
  | inr s =>
      if (sc_PlayerPos0 s).1 + (sc_PlayerPos0 s).2 =? -2 then Throws (MkError "No Player")
      else if Nat.eqb (length (sc_BoxPos0 s)) 0 then Throws (MkError "No Box")
      else if (length (sc_GoalPos s) <? length (sc_BoxPos0 s))%nat
      then Throws (MkError "Too Few Goals")
      else
        match FloorBits_loop SizeInt_bits
                (to_SizeInt (to_size_t (Z.of_nat (length (sc_floor s)) - 1))) 0 with
        | None => Undefined
        | Some floor_bits =>
            if Z.of_N StateBits
               <? to_size_t (to_size_t floor_bits * to_size_t (Z.of_nat (length (sc_BoxPos0 s)) + 1))
            then Throws (MkError "Maze Too Large")
            else
              of_option
                (fi ← FloorIndex_fill (sc_Height s) (sc_Width s) (sc_floor s);
                 DoRestart
                   (mkGame false false 0 (sc_Height s) (sc_Width s) floor_bits 0 0 0
                      (sc_PlayerPos0 s) (0, 0) (sc_BoxPos0 s) [] (sc_GoalPos s) []
                      fi ∅))
        end
  end.

End Engine.

(** ** The learner: [namespace SokobanQLearning] *)

(** What the template argument [RealType] provides: conversion from an
    integer ([static_cast<RealType>(n)] and the implicit conversions of
    mixed arithmetic), the arithmetic operators, [operator<] and
    [operator==]. *)
Class RealArith (R : Type) : Type := {
  real_of : Z → R;
  real_add : R → R → R;
  real_sub : R → R → R;
  real_mul : R → R → R;
  real_opp : R → R;
  real_lt : R → R → bool;
  real_eq : R → R → bool
}.

(** [std::max(a, b)] is [(a < b) ? b : a]. *)
Definition std_max {R : Type} `{RealArith R} (a b : R) : R :=
  if real_lt a b then b else a.

(** [std::array<RealType, 4>]. *)
Record RowType (R : Type) : Type := mkRow { at0 : R; at1 : R; at2 : R; at3 : R }.
Arguments mkRow {R} _ _ _ _.
Arguments at0 {R} _.
Arguments at1 {R} _.
Arguments at2 {R} _.
Arguments at3 {R} _.

(** The abstract class [IQTable<RealType, StateBits>]. *)
Class IQTable (R : Type) (T : Type) : Type := {
  Q_Get : T → Z → Z → R;
  Q_GetRow : T → Z → RowType R;
  Q_Set : T → Z → Z → R → T;
  Q_SetRow : T → Z → RowType R → T;
  Q_Check : T → Z → bool
}.

(** [QTable<RealType, StateBits>]: the member [_map]. *)
Definition QTable (R : Type) : Type := gmap Z (RowType R).

Section QTable.
Context {R : Type} `{RealArith R}.

Definition zero_row : RowType R := mkRow (real_of 0) (real_of 0) (real_of 0) (real_of 0).

Definition QTable_Get (Q : QTable R) (state action : Z) : R :=
  match Q !! state with
  | None => real_of 0
  | Some row =>
      if action =? Up then at0 row
      else if action =? Left then at1 row
      else if action =? Right then at2 row
      else if action =? Down then at3 row
      else real_of 0
  end.

Definition QTable_GetRow (Q : QTable R) (state : Z) : RowType R :=
  match Q !! state with
  | Some row => row
  | None => zero_row
  end.

(** [_map[state][i] = value]: [operator[]] value-initialises a missing row. *)
Definition QTable_Set (Q : QTable R) (state action : Z) (value : R) : QTable R :=
  let row := default zero_row (Q !! state) in
  if action =? Up then <[state := mkRow value (at1 row) (at2 row) (at3 row)]> Q
  else if action =? Left then <[state := mkRow (at0 row) value (at2 row) (at3 row)]> Q
  else if action =? Right then <[state := mkRow (at0 row) (at1 row) value (at3 row)]> Q
  else if action =? Down then <[state := mkRow (at0 row) (at1 row) (at2 row) value]> Q
  else Q.

Definition QTable_SetRow (Q : QTable R) (state : Z) (row : RowType R) : QTable R :=
  <[state := row]> Q.

Definition QTable_Check (Q : QTable R) (state : Z) : bool :=
  bool_decide (is_Some (Q !! state)).

#[export] Instance QTable_IQTable : IQTable R (QTable R) := {
  Q_Get := QTable_Get;
  Q_GetRow := QTable_GetRow;
  Q_Set := QTable_Set;
  Q_SetRow := QTable_SetRow;
  Q_Check := QTable_Check
}.

End QTable.

(** The random source: the template argument [URNG] together with the two
    distributions that are drawn from it.  [Double] is the type [double]
    of the draw and of [epsilon]; the last field is the contract of
    [std::uniform_int_distribution]. *)
Class URNG (G : Type) (Double : Type) : Type := {
  double_lt : Double → Double → bool;
  uniform_real : G → Double * G;
  uniform_int : Z → Z → G → Z * G;
  uniform_int_range : ∀ a b g, a ≤ b → a ≤ (uniform_int a b g).1 ≤ b
}.

(** [struct TrainResult]. *)
Record TrainResult (R : Type) : Type := mkTrainResult {
  Action : Z;
  LastState : Z;
  OldRow : RowType R;
  NewRow : RowType R
}.
Arguments mkTrainResult {R} _ _ _ _.
Arguments Action {R} _.
Arguments LastState {R} _.
Arguments OldRow {R} _.
Arguments NewRow {R} _.

(** The local variables of [FindAction] that its [while] loop updates. *)
Record FindState (R : Type) : Type := mkFindState {
  fs_all_same : bool;
  fs_action_count : Z;
  fs_actions_remain : Z;
  fs_last_action : Z;
  fs_current_action : Z;
  fs_last_Q : R;
  fs_current_Q : R;
  fs_max_Q : R;
  fs_choice : Z
}.
Arguments mkFindState {R} _ _ _ _ _ _ _ _ _.
Arguments fs_all_same {R} _.
Arguments fs_action_count {R} _.
Arguments fs_actions_remain {R} _.
Arguments fs_last_action {R} _.
Arguments fs_current_action {R} _.
Arguments fs_last_Q {R} _.
Arguments fs_current_Q {R} _.
Arguments fs_max_Q {R} _.
Arguments fs_choice {R} _.

(** A [DirectionInt] takes at most 256 values, and the loops below make
    theirs strictly smaller in every iteration. *)
Definition DirectionInt_range : nat := 257.

Section Learner.
Variable StateBits : N.
Context {RealType : Type} `{RealArith RealType}.
Context {Table : Type} `{IQTable RealType Table}.
Context {Generator Double : Type} `{URNG Generator Double}.

(** One iteration of the [while (actions_remain)] loop of [FindAction]. *)
Definition FindAction_step (Q : Table) (state : Z) (s : FindState RealType)
    : FindState RealType :=
  let action_count := to_BitsInt (fs_action_count s + 1) in
  let all_same := fs_all_same s && real_eq (fs_last_Q s) (fs_current_Q s) in
  let bigger := real_lt (fs_max_Q s) (fs_current_Q s) in
  let max_Q := if bigger then fs_current_Q s else fs_max_Q s in
  let choice := if bigger then fs_current_action s else fs_choice s in
  let actions_remain :=
    to_DirectionInt (Z.land (fs_actions_remain s) (fs_actions_remain s - 1)) in
  let current_action := to_DirectionInt (Z.land actions_remain (- actions_remain)) in
  mkFindState all_same action_count actions_remain (fs_current_action s) current_action
    (fs_current_Q s) (Q_Get Q state current_action) max_Q choice.

Fixpoint FindAction_loop (fuel : nat) (Q : Table) (state : Z) (s : FindState RealType)
    : option (FindState RealType) :=
  match fuel with
  | O => None
  | S n =>
      if fs_actions_remain s =? 0 then Some s
      else FindAction_loop n Q state (FindAction_step Q state s)
  end.

(** [while (random_choice--) actions_remain &= actions_remain - 1;] *)
Definition FindAction_skip (random_choice actions : Z) : Z :=
  Nat.iter (Z.to_nat (wrap_unsigned 8 random_choice))
    (λ actions_remain, to_DirectionInt (Z.land actions_remain (actions_remain - 1)))
    actions.

(** [FindAction]: the chosen direction and the generator after the draws. *)
Definition FindAction (random_generator : Generator) (epsilon : Double) (game : Game)
    (Q : Table) : option (Z * Generator) :=
  let actions := Directions game in
  if actions =? 0 then Some (NoDirection, random_generator)
  else
    let state := State game in
    let actions_remain := to_DirectionInt (Z.land actions (actions - 1)) in
    let last_action := to_DirectionInt (Z.land actions (- actions)) in
    let current_action := to_DirectionInt (Z.land actions_remain (- actions_remain)) in
    let last_Q := Q_Get Q state last_action in
    let current_Q := Q_Get Q state current_action in
    s ← FindAction_loop DirectionInt_range Q state
          (mkFindState true 1 actions_remain last_action current_action last_Q current_Q
             last_Q (to_DirectionInt (Z.land actions (- actions))));
    if fs_action_count s =? 1 then Some (actions, random_generator)
    else
      let '(random, random_generator) := uniform_real random_generator in
      if fs_all_same s || double_lt random epsilon then
        let '(drawn, random_generator) :=
          uniform_int 0 (fs_action_count s - 1) random_generator in
        let actions_remain := FindAction_skip (to_BitsInt drawn) actions in
        Some (to_DirectionInt (Z.land actions_remain (- actions_remain)), random_generator)
      else Some (fs_choice s, random_generator).

(** The bootstrap value of [Train]: the variable [max_Q] after the loop over
    [AllDirections]. *)
Definition Train_max_Q (Q : Table) (game : Game)
    (retrace_penalty goal_reward failure_penalty : RealType) : RealType :=
  fold_left
    (λ max_Q d,
       if negb (Z.land (Directions game) d =? 0)
       then std_max max_Q (Q_Get Q (State game) d)
       else max_Q)
    AllDirections
    (real_opp
       (real_add (real_add retrace_penalty failure_penalty)
          (real_mul goal_reward (real_of (Z.of_nat (length (BoxPos0 game))))))).

(** The variable [reward] of [Train], from the state after the move. *)
Definition Train_reward (game : Game) (last_finished : Z) (pushed : bool)
    (retrace_penalty push_reward goal_reward failure_penalty success_reward : RealType)
    : RealType :=
  let reward := real_mul goal_reward (real_of (Finished game - last_finished)) in
  let reward :=
    if decide (State game ∈ StateHistory game) then real_sub reward retrace_penalty
    else reward in
  let reward := if pushed then real_add reward push_reward else reward in
  let reward := if Succeeded game then real_add reward success_reward else reward in
  if Failed game then real_sub reward failure_penalty else reward.

(** [Train]: the result together with the game, the table and the generator
    it leaves behind. *)
Definition Train (random_generator : Generator) (game : Game) (Q : Table)
    (epsilon : Double)
    (alpha gamma retrace_penalty push_reward goal_reward failure_penalty
       success_reward : RealType)
    : option (TrainResult RealType * Game * Table * Generator) :=
  let last_state := State game in
  let old_row := Q_GetRow Q last_state in
  if Succeeded game || Failed game then
    game ← Restart StateBits game;
    Some (mkTrainResult NoDirection last_state old_row old_row, game, Q, random_generator)
  else
    let last_finished := Finished game in
    '(last_action, random_generator) ← FindAction random_generator epsilon game Q;
    '(game, pushed) ← Move StateBits game last_action;
    let reward :=
      Train_reward game last_finished pushed retrace_penalty push_reward goal_reward
        failure_penalty success_reward in
    let max_Q := Train_max_Q Q game retrace_penalty goal_reward failure_penalty in
    let Q :=
      Q_Set Q last_state last_action
        (real_add
           (real_mul (real_sub (real_of 1) alpha) (Q_Get Q last_state last_action))
           (real_mul alpha (real_add reward (real_mul gamma max_Q)))) in
    Some (mkTrainResult last_action last_state old_row (Q_GetRow Q last_state),
          game, Q, random_generator).

End Learner.

(** * Specification-side definitions *)

(** ** States the program can reach *)

(** The states of the game object built from [maze]: the one the constructor
    leaves, and those after any sequence of [Move] and [Restart] calls. *)
Inductive reachable (StateBits : N) (maze : string) : Game → Prop :=
  | reach_new g :
      Game_new StateBits maze = Done g → reachable StateBits maze g
  | reach_move g direction g' pushed :
      reachable StateBits maze g →
      Move StateBits g direction = Some (g', pushed) →
      reachable StateBits maze g'
  | reach_restart g g' :
      reachable StateBits maze g →
      Restart StateBits g = Some g' →
      reachable StateBits maze g'.

(** ** Grid geometry *)

Definition in_grid (g : Game) (p : Pos) : Prop :=
  0 ≤ p.1 < Height g ∧ 0 ≤ p.2 < Width g.

(** A rectangular [h] by [w] vector of vectors. *)
Definition dims (v : list (list Z)) (h w : Z) : Prop :=
  length v = Z.to_nat h ∧ Forall (λ row, length row = Z.to_nat w) v.

(** The floor index of a cell ([-1] for a wall or outside the grid). *)
Definition floor_index (g : Game) (p : Pos) : Z :=
  default (-1) (vec2_get (FloorIndex g) p.1 p.2).

Definition is_floor (g : Game) (p : Pos) : bool :=
  (0 <=? p.1) && (p.1 <? Height g) && (0 <=? p.2) && (p.2 <? Width g)
  && (0 <=? floor_index g p).

Definition pos_lt (a b : Pos) : Prop := pos_ltb a b = true.

(** The representation invariant of a [std::set<Pos>]. *)
Definition is_set (s : list Pos) : Prop := StronglySorted pos_lt s.

(** ** Derived quantities and the invariant *)

(** The flags [UpdateData] leaves in the cell [p] of [Maze]. *)
Definition cell_value (g : Game) (p : Pos) : Z :=
  Z.lor
    (Z.lor
       (Z.lor (if 0 <=? floor_index g p then IsFloor else IsWall)
          (if set_count p (GoalPos g) then IsGoal else 0))
       (if set_count p (BoxPos g) then IsBox else 0))
    (if pos_eqb p (PlayerPos g) then IsPlayer else 0).

(** [Maze] is the picture of the positions. *)
Definition maze_ok (g : Game) : Prop :=
  dims (Maze g) (Height g) (Width g) ∧
  ∀ p, in_grid g p → vec2_get (Maze g) p.1 p.2 = Some (cell_value g p).

(** Positional notation in base [2 ^ bits], least significant digit first. *)
Fixpoint pack (bits : Z) (fields : list Z) : Z :=
  match fields with
  | [] => 0
  | x :: rest => x + 2 ^ bits * pack bits rest
  end.

(** The key the spec assigns to a position: the player's floor index, then
    the floor indices of the boxes in ascending order of position. *)
Definition encoded_state (g : Game) : Z :=
  pack (FloorBits g) (floor_index g (PlayerPos g) :: map (floor_index g) (BoxPos g)).

(** The number of boxes that stand on a goal. *)
Definition finished_count (g : Game) : Z :=
  Z.of_nat (length (filter (λ b, set_count b (GoalPos g) = true) (BoxPos g))).

(** The cell one step from [p] in direction [d]. *)
Definition step (p : Pos) (d : Z) : Pos := (p.1 + (Movement d).1, p.2 + (Movement d).2).
Arguments step : simpl never.

(** Legality as the spec words it: the destination is floor, and if it
    holds a box, the cell beyond is floor and holds no box. *)
Definition legal (g : Game) (d : Z) : bool :=
  let dest := step (PlayerPos g) d in
  is_floor g dest
  && (negb (set_count dest (BoxPos g))
      || (is_floor g (step dest d) && negb (set_count (step dest d) (BoxPos g)))).

(** The record as it is when [UpdateData] calls [CheckFailed]: every member
    is final except [Failed]. *)
Definition before_CheckFailed (failed : bool) (g : Game) : Game :=
  mkGame (Succeeded g) failed (Directions g) (Height g) (Width g) (FloorBits g)
    (Finished g) (State g) (TimeElapsed g) (PlayerPos0 g) (PlayerPos g) (BoxPos0 g)
    (BoxPos g) (GoalPos g) (Maze g) (FloorIndex g) (StateHistory g).

(** What the constructor fixes for the lifetime of the object. *)
Record wf_layout (StateBits : N) (g : Game) : Prop := {
  wf_Height : 1 ≤ Height g ≤ 125;
  wf_Width : 0 ≤ Width g ≤ 125;
  wf_FloorIndex : dims (FloorIndex g) (Height g) (Width g);
  wf_FloorBits : 0 ≤ FloorBits g ≤ 14;
  wf_index : ∀ p, -1 ≤ floor_index g p < 2 ^ FloorBits g;
  wf_capacity : FloorBits g * (Z.of_nat (length (BoxPos0 g)) + 1) ≤ Z.of_N StateBits;
  wf_box_count : Z.of_nat (length (BoxPos0 g)) ≤ 15625;
  wf_GoalPos : Forall (in_grid g) (GoalPos g);
  wf_BoxPos0_set : is_set (BoxPos0 g);
  wf_BoxPos0_floor : Forall (λ b, is_floor g b = true) (BoxPos0 g);
  wf_PlayerPos0 : is_floor g (PlayerPos0 g) = true
}.

(** Where the player and the boxes may be. *)
Record wf_position (g : Game) : Prop := {
  wf_PlayerPos : is_floor g (PlayerPos g) = true;
  wf_BoxPos_set : is_set (BoxPos g);
  wf_BoxPos_floor : Forall (λ b, is_floor g b = true) (BoxPos g);
  wf_BoxPos_length : length (BoxPos g) = length (BoxPos0 g)
}.

(** What [UpdateData] establishes. *)
Record consistent (g : Game) : Prop := {
  c_Maze : maze_ok g;
  c_Finished : Finished g = finished_count g;
  c_State : State g = encoded_state g;
  c_Directions_range : 0 ≤ Directions g < 16;
  c_Directions : ∀ d, d ∈ AllDirections → (Z.land (Directions g) d ≠ 0 ↔ legal g d = true);
  c_Succeeded : Succeeded g = (Finished g =? Z.of_nat (length (BoxPos0 g)));
  c_Failed : ∃ failed, CheckFailed (before_CheckFailed failed g) = Some (Failed g)
}.

(** The invariant of the game object. *)
Definition invariant (StateBits : N) (g : Game) : Prop :=
  wf_layout StateBits g ∧ wf_position g ∧ consistent g.

(** The flags of a cell before the boxes and the player are drawn. *)
Definition cell_base (g : Game) (p : Pos) : Z :=
  Z.lor (if 0 <=? floor_index g p then IsFloor else IsWall)
    (if set_count p (GoalPos g) then IsGoal else 0).

(** The record [UpdateData] builds from the positions of [g], up to the
    three members that the proofs below determine last. *)
Definition derived (g : Game) (maze : list (list Z)) (directions : Z) (failed : bool)
    : Game :=
  mkGame (finished_count g =? Z.of_nat (length (BoxPos0 g))) failed directions
    (Height g) (Width g) (FloorBits g) (finished_count g) (encoded_state g)
    (TimeElapsed g) (PlayerPos0 g) (PlayerPos g) (BoxPos0 g) (BoxPos g) (GoalPos g)
    maze (FloorIndex g) (StateHistory g).

(** The cells of the grid, and the (cell, axis) pairs [BoxStuck] can visit. *)
Definition grid_cells (g : Game) : gset Pos :=
  list_to_set (list_prod (seqZ 0 (Height g)) (seqZ 0 (Width g))).

Definition grid_axes (g : Game) : gset (Pos * bool) :=
  list_to_set (list_prod (list_prod (seqZ 0 (Height g)) (seqZ 0 (Width g))) [false; true]).

(** The members [UpdateData] leaves alone. *)
Definition same_frame (g g' : Game) : Prop :=
  Height g' = Height g ∧ Width g' = Width g ∧ FloorBits g' = FloorBits g ∧
  FloorIndex g' = FloorIndex g ∧ GoalPos g' = GoalPos g ∧ BoxPos0 g' = BoxPos0 g ∧
  PlayerPos0 g' = PlayerPos0 g ∧ PlayerPos g' = PlayerPos g ∧ BoxPos g' = BoxPos g ∧
  TimeElapsed g' = TimeElapsed g ∧ StateHistory g' = StateHistory g.

(** What an accepted move does to the positions. *)
Definition moved_boxes (g : Game) (d : Z) : list Pos :=
  let dest := step (PlayerPos g) d in
  if set_count dest (BoxPos g)
  then set_insert (step dest d) (set_erase dest (BoxPos g))
  else BoxPos g.

Definition is_newline (c : ascii) : bool := Ascii.eqb c newline.
Definition is_carriage_return (c : ascii) : bool := Ascii.eqb c carriage_return.

(** The symbols of the maze text format. *)
Definition is_player_char (c : ascii) : bool :=
  Ascii.eqb c "*"%char || Ascii.eqb c "+"%char.
Definition is_box_char (c : ascii) : bool :=
  Ascii.eqb c "&"%char || Ascii.eqb c "@"%char.
Definition is_goal_char (c : ascii) : bool :=
  Ascii.eqb c "$"%char || Ascii.eqb c "+"%char || Ascii.eqb c "@"%char.
Definition is_floor_char (c : ascii) : bool :=
  Ascii.eqb c "."%char || is_player_char c || is_box_char c || is_goal_char c.

Fixpoint count_chars (P : ascii → bool) (text : list ascii) : Z :=
  match text with
  | [] => 0
  | c :: rest => (if P c then 1 else 0) + count_chars P rest
  end.

(** The rows of the text: the pieces between newlines. *)
Fixpoint maze_lines (text : list ascii) : list (list ascii) :=
  match text with
  | [] => [[]]
  | c :: rest =>
      if is_newline c then [] :: maze_lines rest
      else
        match maze_lines rest with
        | row :: rows => (c :: row) :: rows
        | [] => [[c]]
        end
  end.

(** One character per cell; a carriage return is not a cell. *)
Definition row_cells (row : list ascii) : Z :=
  count_chars (λ c, negb (is_carriage_return c)) row.

Definition maze_text (maze : string) : list ascii :=
  trim_back (trim_front (list_ascii_of_string maze)).

Definition maze_rows (text : list ascii) : Z := Z.of_nat (length (maze_lines text)).
Definition maze_cols (text : list ascii) : Z :=
  foldr Z.max 0 (map row_cells (maze_lines text)).
Definition player_count (text : list ascii) : Z := count_chars is_player_char text.
Definition box_count (text : list ascii) : Z := count_chars is_box_char text.
Definition goal_count (text : list ascii) : Z := count_chars is_goal_char text.
Definition floor_count (text : list ascii) : Z := count_chars is_floor_char text.

(** The conditions under which the spec says construction fails; the field
    width is [ceil (log2 floor_count)]. *)
Definition invalid_maze (StateBits : N) (maze : string) : Prop :=
  let text := maze_text maze in
  125 < maze_rows text ∨ 125 < maze_cols text ∨
  1 < player_count text ∨ player_count text = 0 ∨
  box_count text = 0 ∨ goal_count text < box_count text ∨
  Z.of_N StateBits < Z.log2_up (floor_count text) * (box_count text + 1).

Definition has_player (s : Scan) : bool := 0 <=? (sc_PlayerPos0 s).1 + (sc_PlayerPos0 s).2.

(** The scanning loop without its integer conversions and with the symbol
    tests grouped by meaning. *)
Definition Scan_step_normal (s : Scan) (c : ascii) : Error + Scan :=
  if is_carriage_return c then inr s
  else if is_newline c then
    if 124 <=? sc_line s then inl (MkError "Maze Too Large")
    else inr (mkScan (sc_line s + 1) (-1) (sc_line s + 2) (sc_Width s) (sc_PlayerPos0 s)
                (sc_floor s) (sc_GoalPos s) (sc_BoxPos0 s))
  else if 124 <=? sc_col s then inl (MkError "Maze Too Large")
  else if is_player_char c && has_player s then inl (MkError "Too Many Players")
  else
    let here := (sc_line s, sc_col s + 1) in
    inr (mkScan (sc_line s) (sc_col s + 1) (sc_Height s) (Z.max (sc_Width s) (sc_col s + 2))
           (if is_player_char c then here else sc_PlayerPos0 s)
           (if is_floor_char c then sc_floor s ++ [here] else sc_floor s)
           (if is_goal_char c then set_insert here (sc_GoalPos s) else sc_GoalPos s)
           (if is_box_char c then set_insert here (sc_BoxPos0 s) else sc_BoxPos0 s)).

(** The invariant of the scanning loop. *)
Record scan_ok (s : Scan) : Prop := {
  so_line : 0 ≤ sc_line s ≤ 124;
  so_Height : sc_Height s = sc_line s + 1;
  so_col : -1 ≤ sc_col s ≤ 124;
  so_Width : sc_col s < sc_Width s ≤ 125;
  so_floor : ∀ p, p ∈ sc_floor s →
    0 ≤ p.1 ∧ 0 ≤ p.2 < sc_Width s ∧ (p.1 < sc_line s ∨ (p.1 = sc_line s ∧ p.2 ≤ sc_col s));
  so_boxes_set : is_set (sc_BoxPos0 s);
  so_goals_set : is_set (sc_GoalPos s);
  so_boxes : ∀ p, p ∈ sc_BoxPos0 s → p ∈ sc_floor s;
  so_goals : ∀ p, p ∈ sc_GoalPos s → p ∈ sc_floor s;
  so_player : sc_PlayerPos0 s = (-1, -1) ∨ sc_PlayerPos0 s ∈ sc_floor s;
  so_count : Z.of_nat (length (sc_floor s)) ≤ 125 * sc_line s + sc_col s + 1
}.

(** The widest row of [text], when the row being read already holds [cur]
    cells and the widest row seen so far holds [w]. *)
Fixpoint width_from (cur w : Z) (text : list ascii) : Z :=
  match text with
  | [] => w
  | c :: rest =>
      if is_carriage_return c then width_from cur w rest
      else if is_newline c then width_from 0 w rest
      else width_from (cur + 1) (Z.max w (cur + 1)) rest
  end.

Definition player_flag (s : Scan) : Z := if has_player s then 1 else 0.

(** The number of binary digits of a non-negative integer. *)
Definition bit_length (m : Z) : Z := if m =? 0 then 0 else Z.log2 m + 1.

(** The members fixed by the constructor. *)
Definition same_layout (g g' : Game) : Prop :=
  Height g' = Height g ∧ Width g' = Width g ∧ FloorBits g' = FloorBits g ∧
  FloorIndex g' = FloorIndex g ∧ GoalPos g' = GoalPos g ∧ BoxPos0 g' = BoxPos0 g ∧
  PlayerPos0 g' = PlayerPos0 g.

(** The legal directions of a mask, in the scan order Up, Left, Right,
    Down. *)
Definition legal_list (actions : Z) : list Z :=
  List.filter (λ d, negb (Z.land actions d =? 0)) AllDirections.

(** ** The learner *)

Section ActionSelectionModel.
Context {RealType : Type} `{RealArith RealType}.
Context {Table : Type} `{IQTable RealType Table}.

(** What the loop of [FindAction] computes, told over the list of legal
    directions: whether all values seen are equal, how many there are, the
    value seen last, the largest value and the first direction that has
    it. *)
Definition scan_step (Q : Table) (state : Z)
    (acc : bool * Z * RealType * RealType * Z) (d : Z)
    : bool * Z * RealType * RealType * Z :=
  let '(all_same, count, last_Q, max_Q, choice) := acc in
  let current_Q := Q_Get Q state d in
  (all_same && real_eq last_Q current_Q, count + 1, current_Q,
   if real_lt max_Q current_Q then current_Q else max_Q,
   if real_lt max_Q current_Q then d else choice).

Definition scan_list (Q : Table) (state : Z) (first : Z) (rest : list Z)
    : bool * Z * RealType * RealType * Z :=
  fold_left (scan_step Q state) rest
    (true, 1, Q_Get Q state first, Q_Get Q state first, first).

Definition FindAction_init (Q : Table) (state actions : Z) : FindState RealType :=
  let actions_remain := to_DirectionInt (Z.land actions (actions - 1)) in
  let last_action := to_DirectionInt (Z.land actions (- actions)) in
  let current_action := to_DirectionInt (Z.land actions_remain (- actions_remain)) in
  mkFindState true 1 actions_remain last_action current_action
    (Q_Get Q state last_action) (Q_Get Q state current_action)
    (Q_Get Q state last_action) (to_DirectionInt (Z.land actions (- actions))).

End ActionSelectionModel.

(** The comparisons of [RealType] order its values: [operator<] is a strict
    total order and [operator==] is equality. *)
Class RealOrder (R : Type) `{RealArith R} : Prop := {
  real_lt_irrefl : ∀ x : R, real_lt x x = false;
  real_lt_trans : ∀ x y z : R, real_lt x y = true → real_lt y z = true → real_lt x z = true;
  real_lt_total : ∀ x y : R, real_lt x y = false → real_lt y x = false → x = y;
  real_eq_spec : ∀ x y : R, real_eq x y = true ↔ x = y
}.

(** The bootstrap value as the claim C6 words it: the largest Q-value of
    the legal directions when there is one, the floor value otherwise. *)
Definition claimed_bootstrap {R : Type} `{RealArith R} (Q : QTable R) (g : Game) (floor : R)
    : R :=
  match legal_list (Directions g) with
  | [] => floor
  | d :: rest =>
      fold_left (λ m d', std_max m (QTable_Get Q (State g) d')) rest
        (QTable_Get Q (State g) d)
  end.

(** * Example games and tables *)

Definition unlines (rows : list string) : string :=
  String.concat (String newline EmptyString) rows.

(** A corridor: the player, one box, the goal. *)
Definition corridor_maze : string := unlines ["#####"; "#*&$#"; "#####"]%string.

(** A room with the box in the middle and free floor all around. *)
Definition room_maze : string :=
  unlines ["######"; "#....#"; "#.*&$#"; "#....#"; "######"]%string.

(** A room whose box starts in a corner, away from the goal. *)
Definition corner_maze : string := unlines ["####"; "#&*#"; "#.$#"; "####"]%string.

Definition no_game : Game :=
  mkGame false false 0 0 0 0 0 0 0 (0, 0) (0, 0) [] [] [] [] [] ∅.

Definition game_of (maze : string) : Game :=
  match Game_new 64 maze with Done g => g | _ => no_game end.

Definition corridor_game : Game := Eval vm_compute in game_of corridor_maze.
Definition room_game : Game := Eval vm_compute in game_of room_maze.
Definition corner_game : Game := Eval vm_compute in game_of corner_maze.

(** [RealType] instantiated at the integers. *)
#[export] Instance Z_RealArith : RealArith Z := {|
  real_of := λ z, z;
  real_add := Z.add;
  real_sub := Z.sub;
  real_mul := Z.mul;
  real_opp := Z.opp;
  real_lt := Z.ltb;
  real_eq := Z.eqb
|}.

(** A random source that always draws the lowest value. *)
#[export] Instance lowest_URNG : URNG unit Z := {|
  double_lt := Z.ltb;
  uniform_real := λ g, (0, g);
  uniform_int := λ a b g, (a, g);
  uniform_int_range := λ a b g Hab, conj (Z.le_refl a) Hab
|}.

(** The room after the player has stepped up. *)
Definition room_up : Game :=
  Eval vm_compute in
    match Move 64 room_game Up with Some (g, _) => g | None => no_game end.

(** A table that prefers Left and Right in the room. *)
Definition choosy_table : QTable Z := <[State room_game := mkRow 1 5 5 2]> ∅.

(** A table whose values for the state [room_up] lie below the floor value
    of the rewards 1, 50 and 1000. *)
Definition stingy_table : QTable Z :=
  <[State room_up := mkRow (-5000) (-5000) (-5000) (-5000)]> ∅.

(** * Further example games *)

(** The player walled in on the left of a box and its goal. *)
Definition walled_maze : string := "*#&$".
Definition walled_game : Game := Eval vm_compute in game_of walled_maze.

(** The room after the player has stepped up and down again. *)
Definition room_back : Game :=
  Eval vm_compute in
    match Move 64 room_up Down with Some (g, _) => g | None => no_game end.

(** * Rendering: [Game::WriteMazeString] *)

(** The [switch] of [Game::WriteMazeString]: what is appended for a cell
    with the flags [c]; nothing when no [case] matches. *)
Definition WriteMazeString_cell (c : Z) : list ascii :=
  if c =? IsWall then ["#"%char]
  else if c =? IsFloor then ["."%char]
  else if c =? Z.lor IsFloor IsGoal then ["$"%char]
  else if c =? Z.lor IsFloor IsBox then ["&"%char]
  else if c =? Z.lor (Z.lor IsFloor IsGoal) IsBox then ["@"%char]
  else if c =? Z.lor IsFloor IsPlayer then ["*"%char]
  else if c =? Z.lor (Z.lor IsFloor IsGoal) IsPlayer then ["+"%char]
  else [].

(** [Game::WriteMazeString]: the string after the two loops, without its
    last character.  [pop_back] on an empty string has no defined behaviour. *)
Definition WriteMazeString (g : Game) : option string :=
  let str := flat_map (λ row, flat_map WriteMazeString_cell row ++ [newline]) (Maze g) in
  match str with
  | [] => None
  | _ :: _ => Some (string_of_list_ascii (removelast str))
  end.

(** The public [GetMazeString] only forwards to it. *)
Definition GetMazeString (g : Game) : option string := WriteMazeString g.

(** * The maze text as a grid *)

(** The cells of a text in reading order, each with its character: a line
    feed starts the next row, a carriage return is skipped, every other
    character fills the next column. *)
Fixpoint text_cells (line col : Z) (text : list ascii) : list (Pos * ascii) :=
  match text with
  | [] => []
  | c :: rest =>
      if is_carriage_return c then text_cells line col rest
      else if is_newline c then text_cells (line + 1) 0 rest
      else ((line, col), c) :: text_cells line (col + 1) rest
  end.

(** The cells whose character satisfies [P], in reading order. *)
Definition cells_where (P : ascii → bool) (cells : list (Pos * ascii)) : list Pos :=
  map fst (List.filter (λ pc, P pc.2) cells).

(** The cells of the grid, row by row, and the floor cells among them. *)
Definition grid_list (g : Game) : list Pos :=
  list_prod (seqZ 0 (Height g)) (seqZ 0 (Width g)).

Definition grid_floor (g : Game) : list Pos := List.filter (is_floor g) (grid_list g).

(** What the constructor establishes besides [wf_layout]. *)
Record wf_board (g : Game) : Prop := {
  wb_numbering :
    FloorIndex_fill (Height g) (Width g) (grid_floor g) = Some (FloorIndex g);
  wb_FloorBits : FloorBits g = Z.log2_up (Z.of_nat (length (grid_floor g)));
  wb_GoalPos_set : is_set (GoalPos g);
  wb_GoalPos_floor : Forall (λ p, is_floor g p = true) (GoalPos g);
  wb_BoxPos0 : BoxPos0 g ≠ [];
  wb_goal_count : (length (BoxPos0 g) ≤ length (GoalPos g))%nat;
  wb_start : PlayerPos0 g ∉ BoxPos0 g
}.

(** The symbol of a cell, from the positions. *)
Definition cell_symbol (g : Game) (p : Pos) : ascii :=
  if pos_eqb p (PlayerPos g) then (if set_count p (GoalPos g) then "+" else "*")%char
  else if set_count p (BoxPos g) then (if set_count p (GoalPos g) then "@" else "&")%char
  else if set_count p (GoalPos g) then "$"%char
  else if is_floor g p then "."%char
  else "#"%char.

(** Rows joined by line feeds, with none after the last row. *)
Definition join_lines (rows : list (list ascii)) : list ascii :=
  match rows with
  | [] => []
  | row :: rows => row ++ flat_map (λ row', newline :: row') rows
  end.

(** The picture of a position: one symbol per cell, one text row per grid
    row. *)
Definition picture_rows (g : Game) : list (list ascii) :=
  map (λ i, map (λ j, cell_symbol g (i, j)) (seqZ 0 (Width g))) (seqZ 0 (Height g)).

Definition maze_picture (g : Game) : string :=
  string_of_list_ascii (join_lines (picture_rows g)).

(** The state a game would start from if its current position were the
    initial one. *)
Definition as_initial (g : Game) : Game :=
  mkGame (Succeeded g) (Failed g) (Directions g) (Height g) (Width g) (FloorBits g)
    (Finished g) (State g) 0 (PlayerPos g) (PlayerPos g) (BoxPos g) (BoxPos g)
    (GoalPos g) (Maze g) (FloorIndex g) ∅.

(** A character that fills a cell: neither a line feed nor a carriage
    return. *)
Definition is_cell_char (c : ascii) : bool :=
  negb (is_newline c) && negb (is_carriage_return c).

(** Rows of cell characters, none of them empty. *)
Definition cell_rows (rows : list (list ascii)) : Prop :=
  Forall (λ row, row ≠ [] ∧ Forall (λ c, is_cell_char c = true) row) rows.

(** * Variations of a maze text *)

(** The characters the constructor tells apart; every other character is
    read as a wall. *)
Definition is_symbol (c : ascii) : bool :=
  is_floor_char c || is_newline c || is_carriage_return c.

Definition as_wall (c : ascii) : ascii := if is_symbol c then c else "#"%char.

Definition map_text (f : ascii → ascii) (maze : string) : string :=
  string_of_list_ascii (map f (list_ascii_of_string maze)).

Definition without_carriage_returns (maze : string) : string :=
  string_of_list_ascii
    (List.filter (λ c, negb (is_carriage_return c)) (list_ascii_of_string maze)).

(** * Printing a state: [Utils::BinToHex], [Utils::BitsToHex] and the first
    column of [PrintableQTable] *)

(** [std::bitset<N>::to_string()]: [N] characters, the highest bit first. *)
Fixpoint to_string (N : nat) (bits : Z) : list ascii :=
  match N with
  | O => []
  | S n => (if Z.testbit bits (Z.of_nat n) then "1" else "0")%char :: to_string n bits
  end.

(** What a conversion can do: return the digits, throw
    [std::invalid_argument], or not come to an end. *)
Inductive conversion : Type :=
  | Converted (hex : list ascii)
  | InvalidArgument
  | Unfinished.

(** [while (str.size() & 0b11) str = '0' + str;] *)
Fixpoint pad_loop (fuel : nat) (str : list ascii) : option (list ascii) :=
  match fuel with
  | O => None
  | S n =>
      if Z.land (Z.of_nat (length str)) 3 =? 0 then Some str
      else pad_loop n ("0"%char :: str)
  end.

(** Each iteration makes the string one character longer, so its condition
    is tested at most four times. *)
Definition pad_tests : nat := 4.

(** [std::bitset<4>(str, i, 4).to_ulong()] on the characters the constructor
    reads, the first one the highest bit; [None] where it throws
    [std::invalid_argument]. *)
Fixpoint bitset_value (acc : Z) (digits : list ascii) : option Z :=
  match digits with
  | [] => Some acc
  | c :: rest =>
      if Ascii.eqb c "0"%char then bitset_value (2 * acc) rest
      else if Ascii.eqb c "1"%char then bitset_value (2 * acc + 1) rest
      else None
  end.

(** [oss << std::hex << n] for [n] below sixteen. *)
Definition hex_digit (n : Z) : ascii :=
  nth (Z.to_nat n) (list_ascii_of_string "0123456789abcdef") "0"%char.

(** [for (i = 0; i < str.size(); i += 4) oss << std::hex <<
    std::bitset<4>(str, i, 4).to_ulong();]: the constructor reads four
    characters, or the ones that are left. *)
Fixpoint hex_loop (str : list ascii) : option (list ascii) :=
  match str with
  | [] => Some []
  | a :: b :: c :: d :: rest =>
      n ← bitset_value 0 [a; b; c; d];
      oss ← hex_loop rest;
      Some (hex_digit n :: oss)
  | _ =>
      n ← bitset_value 0 str;
      Some [hex_digit n]
  end.

(** [Utils::BinToHex]. *)
Definition BinToHex (str : list ascii) : conversion :=
  match pad_loop pad_tests str with
  | None => Unfinished
  | Some str =>
      match hex_loop str with
      | Some oss => Converted oss
      | None => InvalidArgument
      end
  end.

(** [Utils::BitsToHex<N>]. *)
Definition BitsToHex (N : nat) (bits : Z) : conversion := BinToHex (to_string N bits).

(** [PrintableQTable::FirstColumnWidth] and [TrainResult::FirstColumnWidth]. *)
Definition FirstColumnWidth (StateBits : Z) : Z :=
  Z.max (2 + Z.shiftr StateBits 2 + (if Z.land StateBits 3 =? 0 then 0 else 1)) 6.

(** The first column of a row: [std::setw(FirstColumnWidth)] with
    [std::right] and the fill character [' '] pads a shorter string on the
    left and leaves a longer one as it is. *)
Definition right_aligned (width : Z) (str : list ascii) : list ascii :=
  repeat " "%char (Z.to_nat (width - Z.of_nat (length str))) ++ str.

(** The number a string of hexadecimal digits stands for. *)
Definition hex_digit_value (c : ascii) : option Z :=
  (fix find (digits : list ascii) (n : Z) : option Z :=
     match digits with
     | [] => None
     | d :: rest => if Ascii.eqb c d then Some n else find rest (n + 1)
     end) (list_ascii_of_string "0123456789abcdef") 0.

Fixpoint hex_value (acc : Z) (hex : list ascii) : option Z :=
  match hex with
  | [] => Some acc
  | c :: rest => n ← hex_digit_value c; hex_value (16 * acc + n) rest
  end.

Definition is_binary_digit (c : ascii) : bool := Ascii.eqb c "0"%char || Ascii.eqb c "1"%char.

(** * Lemmas *)

(** Settle the integer comparisons of the goal that [lia] can decide. *)
Ltac zbool_step :=
  match goal with
  | |- context [?a <? ?b] =>
      first [ replace (a <? b) with true by (symmetry; apply Z.ltb_lt; lia)
            | replace (a <? b) with false by (symmetry; apply Z.ltb_ge; lia) ]
  | |- context [?a <=? ?b] =>
      first [ replace (a <=? b) with true by (symmetry; apply Z.leb_le; lia)
            | replace (a <=? b) with false by (symmetry; apply Z.leb_gt; lia) ]
  | |- context [?a =? ?b] =>
      first [ replace (a =? b) with true by (symmetry; apply Z.eqb_eq; lia)
            | replace (a =? b) with false by (symmetry; apply Z.eqb_neq; lia) ]
  end.
Ltac zbool := repeat zbool_step.

(** ** Fixed-width integers *)

Lemma to_MazeInt_small z : -128 ≤ z < 128 → to_MazeInt z = z.
Proof.
  intros Hz. unfold to_MazeInt, wrap_signed. change (2 ^ (8 - 1)) with 128.
  change (2 ^ 8) with 256. rewrite Z.mod_small; lia.
Qed.

Lemma to_BitsInt_small z : -128 ≤ z < 128 → to_BitsInt z = z.
Proof. apply to_MazeInt_small. Qed.

Lemma to_SizeInt_small z : -32768 ≤ z < 32768 → to_SizeInt z = z.
Proof.
  intros Hz. unfold to_SizeInt, wrap_signed. change (2 ^ (16 - 1)) with 32768.
  change (2 ^ 16) with 65536. rewrite Z.mod_small; lia.
Qed.

Lemma to_DirectionInt_small z : 0 ≤ z < 256 → to_DirectionInt z = z.
Proof. intros Hz. unfold to_DirectionInt, wrap_unsigned. apply Z.mod_small. lia. Qed.

Lemma to_PosInt_small z : 0 ≤ z < 256 → to_PosInt z = z.
Proof. apply to_DirectionInt_small. Qed.

Lemma to_size_t_small z : 0 ≤ z < 2 ^ 64 → to_size_t z = z.
Proof. intros Hz. unfold to_size_t, wrap_unsigned. apply Z.mod_small. lia. Qed.

(** ** Ordered sets of positions *)

Lemma pos_eqb_eq a b : pos_eqb a b = true ↔ a = b.
Proof.
  destruct a as [a1 a2], b as [b1 b2]. unfold pos_eqb. simpl.
  rewrite andb_true_iff, !Z.eqb_eq. split; [intros [-> ->]; done | by inversion 1].
Qed.

Lemma pos_eqb_refl a : pos_eqb a a = true.
Proof. by apply pos_eqb_eq. Qed.

Lemma pos_eqb_neq a b : pos_eqb a b = false ↔ a ≠ b.
Proof.
  rewrite <- pos_eqb_eq. destruct (pos_eqb a b); split; intros; congruence.
Qed.

Lemma pos_ltb_spec a b :
  pos_ltb a b = true ↔ (a.1 < b.1 ∨ (a.1 = b.1 ∧ a.2 < b.2)).
Proof.
  unfold pos_ltb. rewrite orb_true_iff, andb_true_iff, !Z.ltb_lt, Z.eqb_eq. tauto.
Qed.

Lemma pos_lt_irrefl a : ¬ pos_lt a a.
Proof. unfold pos_lt. rewrite pos_ltb_spec. lia. Qed.

Lemma pos_lt_trans a b c : pos_lt a b → pos_lt b c → pos_lt a c.
Proof. unfold pos_lt. rewrite !pos_ltb_spec. lia. Qed.

Lemma pos_lt_total a b : pos_ltb a b = false → pos_ltb b a = false → a = b.
Proof.
  intros H1 H2.
  assert (¬ (a.1 < b.1 ∨ (a.1 = b.1 ∧ a.2 < b.2))) by (rewrite <- pos_ltb_spec; congruence).
  assert (¬ (b.1 < a.1 ∨ (b.1 = a.1 ∧ b.2 < a.2))) by (rewrite <- pos_ltb_spec; congruence).
  destruct a, b; simpl in *. f_equal; lia.
Qed.

Lemma set_count_true p s : set_count p s = true ↔ p ∈ s.
Proof.
  unfold set_count. rewrite existsb_exists. split.
  - intros (q & Hq & Heq). apply pos_eqb_eq in Heq. subst. by apply list_elem_of_In.
  - intros Hp. exists p. split; [by apply list_elem_of_In | apply pos_eqb_refl].
Qed.

Lemma set_count_false p s : set_count p s = false ↔ p ∉ s.
Proof.
  rewrite <- set_count_true. destruct (set_count p s); split; intros; congruence.
Qed.

Lemma is_set_nil : is_set [].
Proof. constructor. Qed.

Lemma is_set_cons_inv q s : is_set (q :: s) → is_set s ∧ Forall (pos_lt q) s.
Proof. intros Hs. apply StronglySorted_inv in Hs. tauto. Qed.

Lemma is_set_head_notin q s : is_set (q :: s) → q ∉ s.
Proof.
  intros [_ Hall]%is_set_cons_inv Hin.
  rewrite Forall_forall in Hall. by apply (pos_lt_irrefl q), Hall.
Qed.

Lemma is_set_NoDup s : is_set s → NoDup s.
Proof.
  induction s as [|q s IH]; intros Hs; [apply NoDup_nil_2|].
  apply NoDup_cons_2; [by apply is_set_head_notin |].
  apply IH. apply is_set_cons_inv in Hs. tauto.
Qed.

Lemma elem_of_set_insert p q s : q ∈ set_insert p s ↔ q = p ∨ q ∈ s.
Proof.
  induction s as [|r s IH]; simpl.
  - rewrite list_elem_of_singleton. set_solver.
  - destruct (pos_ltb p r) eqn:E1; [set_solver|].
    destruct (pos_ltb r p) eqn:E2.
    + rewrite !elem_of_cons, IH. tauto.
    + assert (p = r) by by apply pos_lt_total. subst. set_solver.
Qed.

Lemma is_set_insert p s : is_set s → is_set (set_insert p s).
Proof.
  induction s as [|r s IH]; simpl; intros Hs.
  - repeat constructor.
  - destruct (pos_ltb p r) eqn:E1.
    + constructor; [exact Hs|]. constructor; [exact E1|].
      apply is_set_cons_inv in Hs as [_ Hall].
      eapply Forall_impl; [exact Hall|]. intros x Hx. by eapply pos_lt_trans.
    + destruct (pos_ltb r p) eqn:E2; [|done].
      pose proof Hs as [Hs' Hall]%is_set_cons_inv.
      constructor; [by apply IH|].
      rewrite Forall_forall. intros x [->|Hx]%elem_of_set_insert; [exact E2|].
      rewrite Forall_forall in Hall. by apply Hall.
Qed.

Lemma set_insert_length_new p s :
  p ∉ s → length (set_insert p s) = S (length s).
Proof.
  induction s as [|r s IH]; simpl; intros Hp; [done|].
  destruct (pos_ltb p r) eqn:E1; [done|].
  destruct (pos_ltb r p) eqn:E2.
  - simpl. rewrite IH; [done|set_solver].
  - assert (p = r) by by apply pos_lt_total. set_solver.
Qed.

Lemma elem_of_set_erase p q s : is_set s → q ∈ set_erase p s ↔ q ≠ p ∧ q ∈ s.
Proof.
  induction s as [|r s IH]; simpl; intros Hs.
  - set_solver.
  - pose proof (is_set_head_notin _ _ Hs) as Hr.
    apply is_set_cons_inv in Hs as [Hs _].
    destruct (pos_eqb r p) eqn:E.
    + apply pos_eqb_eq in E. subst. set_solver.
    + apply pos_eqb_neq in E. rewrite !elem_of_cons, IH by done. naive_solver.
Qed.

Lemma is_set_erase p s : is_set s → is_set (set_erase p s).
Proof.
  induction s as [|r s IH]; simpl; intros Hs; [done|].
  pose proof Hs as [Hs' Hall]%is_set_cons_inv.
  destruct (pos_eqb r p); [done|].
  constructor; [by apply IH|].
  rewrite Forall_forall. intros x [_ Hx]%elem_of_set_erase; [|done].
  rewrite Forall_forall in Hall. by apply Hall.
Qed.

Lemma set_erase_length p s : p ∈ s → S (length (set_erase p s)) = length s.
Proof.
  induction s as [|r s IH]; simpl; intros Hp; [set_solver|].
  destruct (pos_eqb r p) eqn:E; [done|].
  apply pos_eqb_neq in E. simpl. rewrite IH; [done|set_solver].
Qed.

(** Two sets with the same elements are the same list: the iteration order
    of a [std::set] is determined by its contents. *)
Lemma is_set_ext s1 s2 :
  is_set s1 → is_set s2 → (∀ p, p ∈ s1 ↔ p ∈ s2) → s1 = s2.
Proof.
  revert s2. induction s1 as [|a s1 IH]; intros [|b s2] H1 H2 Heq.
  - done.
  - specialize (Heq b). set_solver.
  - specialize (Heq a). set_solver.
  - pose proof (is_set_head_notin _ _ H1) as Ha.
    pose proof (is_set_head_notin _ _ H2) as Hb.
    pose proof H1 as [H1' Hall1]%is_set_cons_inv.
    pose proof H2 as [H2' Hall2]%is_set_cons_inv.
    rewrite Forall_forall in Hall1, Hall2.
    assert (a = b) as ->.
    { destruct (Heq a) as [Hab _]. destruct (Heq b) as [_ Hba].
      specialize (Hab ltac:(left)). specialize (Hba ltac:(left)).
      apply elem_of_cons in Hab as [?|Hab]; [done|].
      apply elem_of_cons in Hba as [?|Hba]; [done|].
      exfalso. apply (pos_lt_irrefl a).
      eapply pos_lt_trans; [by apply Hall1 | by apply Hall2]. }
    f_equal. apply IH; [done..|].
    intros p. specialize (Heq p). rewrite !elem_of_cons in Heq.
    split; intros Hp.
    + destruct Heq as [[?|?] _]; [by right| subst; done | done].
    + destruct Heq as [_ [?|?]]; [by right| subst; done | done].
Qed.

(** ** Vectors of vectors *)

Lemma vec2_get_Some v i j x :
  vec2_get v i j = Some x ↔
  0 ≤ i ∧ 0 ≤ j ∧ ∃ row, v !! Z.to_nat i = Some row ∧ row !! Z.to_nat j = Some x.
Proof.
  unfold vec2_get. destruct (i <? 0) eqn:Ei; simpl.
  - apply Z.ltb_lt in Ei. split; [done | lia].
  - apply Z.ltb_ge in Ei. destruct (j <? 0) eqn:Ej; simpl.
    + apply Z.ltb_lt in Ej. split; [done | lia].
    + apply Z.ltb_ge in Ej. destruct (v !! Z.to_nat i) as [row|]; simpl.
      * split; [intros; eauto | intros (_ & _ & row' & [= <-] & ?); done].
      * split; [done | intros (_ & _ & row' & [=] & ?)].
Qed.

Lemma vec2_get_dims v h w i j :
  dims v h w → 0 ≤ i < h → 0 ≤ j < w → is_Some (vec2_get v i j).
Proof.
  intros [Hlen Hrows] Hi Hj.
  destruct (lookup_lt_is_Some_2 v (Z.to_nat i)) as [row Hrow]; [lia|].
  rewrite Forall_forall in Hrows.
  pose proof (Hrows row (list_elem_of_lookup_2 _ _ _ Hrow)) as Hw.
  destruct (lookup_lt_is_Some_2 row (Z.to_nat j)) as [x Hx]; [lia|].
  exists x. apply vec2_get_Some. eauto 6 with lia.
Qed.

Lemma vec2_get_in_dims v h w i j x :
  dims v h w → vec2_get v i j = Some x → 0 ≤ i < h ∧ 0 ≤ j < w.
Proof.
  intros [Hlen Hrows] (Hi & Hj & row & Hrow & Hx)%vec2_get_Some.
  rewrite Forall_forall in Hrows.
  pose proof (Hrows row (list_elem_of_lookup_2 _ _ _ Hrow)) as Hw.
  apply lookup_lt_Some in Hrow, Hx. lia.
Qed.

Lemma vec2_set_Some v i j x v' :
  vec2_set v i j x = Some v' ↔
  0 ≤ i ∧ 0 ≤ j ∧ ∃ row y, v !! Z.to_nat i = Some row ∧ row !! Z.to_nat j = Some y
    ∧ v' = <[Z.to_nat i := <[Z.to_nat j := x]> row]> v.
Proof.
  unfold vec2_set. destruct (i <? 0) eqn:Ei; simpl.
  - apply Z.ltb_lt in Ei. split; [done | lia].
  - apply Z.ltb_ge in Ei. destruct (j <? 0) eqn:Ej; simpl.
    + apply Z.ltb_lt in Ej. split; [done | lia].
    + apply Z.ltb_ge in Ej. destruct (v !! Z.to_nat i) as [row|]; simpl.
      * destruct (row !! Z.to_nat j) as [y|] eqn:Ey; simpl.
        -- split; [intros [= <-]; eauto 8 |].
           intros (_ & _ & row' & y' & [= <-] & ? & ->). done.
        -- split; [done | intros (_ & _ & row' & y' & [= <-] & ? & _); congruence].
      * split; [done | intros (_ & _ & row' & y' & [=] & _)].
Qed.

Lemma vec2_set_is_Some v i j x :
  is_Some (vec2_get v i j) → is_Some (vec2_set v i j x).
Proof.
  intros [y (Hi & Hj & row & Hrow & Hy)%vec2_get_Some].
  eexists. apply vec2_set_Some. eauto 10.
Qed.

Lemma vec2_set_dims v h w i j x v' :
  dims v h w → vec2_set v i j x = Some v' → dims v' h w.
Proof.
  intros [Hlen Hrows] (Hi & Hj & row & y & Hrow & Hy & ->)%vec2_set_Some.
  split; [by rewrite length_insert|].
  rewrite Forall_forall in Hrows. rewrite Forall_forall. intros r Hr.
  apply list_elem_of_lookup in Hr as [k Hk].
  destruct (decide (k = Z.to_nat i)) as [->|Hne].
  - rewrite list_lookup_insert_eq in Hk by by eapply lookup_lt_Some.
    injection Hk as <-. rewrite length_insert.
    apply Hrows. by eapply list_elem_of_lookup_2.
  - rewrite list_lookup_insert_ne in Hk by done.
    apply Hrows. by eapply list_elem_of_lookup_2.
Qed.

Lemma vec2_get_set v i j x v' i' j' :
  vec2_set v i j x = Some v' →
  vec2_get v' i' j' = if decide ((i', j') = (i, j)) then Some x else vec2_get v i' j'.
Proof.
  intros (Hi & Hj & row & y & Hrow & Hy & ->)%vec2_set_Some.
  case_decide as Heq.
  - injection Heq as -> ->. apply vec2_get_Some. do 2 (split; [done|]).
    eexists. split.
    + apply list_lookup_insert_eq. by eapply lookup_lt_Some.
    + apply list_lookup_insert_eq. by eapply lookup_lt_Some.
  - unfold vec2_get. destruct ((i' <? 0) || (j' <? 0)) eqn:E; [done|].
    apply orb_false_iff in E as [Ei%Z.ltb_ge Ej%Z.ltb_ge].
    destruct (decide (Z.to_nat i' = Z.to_nat i)) as [Hii|Hii].
    + rewrite Hii, list_lookup_insert_eq by by eapply lookup_lt_Some.
      rewrite Hrow. simpl. apply list_lookup_insert_ne.
      intros Hjj. apply Heq. f_equal; lia.
    + by rewrite list_lookup_insert_ne.
Qed.

Lemma vec2_or_Some v i j flag v' :
  vec2_or v i j flag = Some v' ↔
  ∃ x, vec2_get v i j = Some x ∧ vec2_set v i j (to_PosInt (Z.lor x flag)) = Some v'.
Proof.
  unfold vec2_or. destruct (vec2_get v i j) as [x|]; simpl.
  - split; [eauto | intros (? & [= <-] & ?); done].
  - split; [done | intros (? & [=] & _)].
Qed.

Lemma vec2_or_is_Some v i j flag :
  is_Some (vec2_get v i j) → is_Some (vec2_or v i j flag).
Proof.
  intros [x Hx]. destruct (vec2_set_is_Some v i j (to_PosInt (Z.lor x flag))) as [v' Hv'];
    [eauto|].
  exists v'. apply vec2_or_Some. eauto.
Qed.

Lemma vec2_or_dims v h w i j flag v' :
  dims v h w → vec2_or v i j flag = Some v' → dims v' h w.
Proof. intros Hd (x & _ & Hset)%vec2_or_Some. by eapply vec2_set_dims. Qed.

Lemma dims_replicate h w x :
  dims (replicate (Z.to_nat h) (replicate (Z.to_nat w) x)) h w.
Proof.
  split; [by rewrite length_replicate|].
  apply Forall_forall. intros row ->%elem_of_replicate_inv.
  by rewrite length_replicate.
Qed.

Lemma vec2_get_replicate h w x i j :
  0 ≤ i < h → 0 ≤ j < w →
  vec2_get (replicate (Z.to_nat h) (replicate (Z.to_nat w) x)) i j = Some x.
Proof.
  intros Hi Hj. apply vec2_get_Some. do 2 (split; [lia|]).
  exists (replicate (Z.to_nat w) x).
  split; apply lookup_replicate_2; lia.
Qed.

(** ** Loops *)

(** A loop whose body is defined whenever the invariant holds runs to the
    end and establishes the invariant for the whole list. *)
Lemma foldM_invariant {A B : Type} (I : list B → A → Prop) (f : A → B → option A)
    (l : list B) (a : A) :
  I [] a →
  (∀ done b rest a, l = done ++ b :: rest → I done a →
     ∃ a', f a b = Some a' ∧ I (done ++ [b]) a') →
  ∃ a', foldM f a l = Some a' ∧ I l a'.
Proof.
  intros Hinit Hstep.
  assert (∀ rest done a, l = done ++ rest → I done a →
            ∃ a', foldM f a rest = Some a' ∧ I l a') as Hgen.
  { induction rest as [|b rest IH]; intros done a0 Hl Ha0.
    - rewrite app_nil_r in Hl. subst. eauto.
    - destruct (Hstep done b rest a0 Hl Ha0) as (a1 & Hf & Ha1).
      simpl. rewrite Hf. simpl. apply (IH (done ++ [b])); [|done].
      by rewrite <- app_assoc. }
  by apply (Hgen l []).
Qed.

Lemma seqZ_split n done b rest :
  seqZ 0 n = done ++ b :: rest → b = Z.of_nat (length done) ∧ 0 ≤ b < n.
Proof.
  intros Hl.
  assert (seqZ 0 n !! length done = Some b) as Hb.
  { rewrite Hl. by apply list_lookup_middle. }
  apply lookup_seqZ in Hb. lia.
Qed.

(** ** Floor cells *)

Lemma CheckFloor_pure g line col :
  dims (FloorIndex g) (Height g) (Width g) →
  CheckFloor g line col = Some (is_floor g (line, col)).
Proof.
  intros Hd. unfold CheckFloor, is_floor, floor_index. simpl.
  destruct (line <? 0) eqn:E1; simpl.
  { apply Z.ltb_lt in E1. by replace (0 <=? line) with false by (symmetry; apply Z.leb_gt; lia). }
  apply Z.ltb_ge in E1. replace (0 <=? line) with true by (symmetry; apply Z.leb_le; lia).
  destruct (Height g <=? line) eqn:E2; simpl.
  { apply Z.leb_le in E2. by replace (line <? Height g) with false by (symmetry; apply Z.ltb_ge; lia). }
  apply Z.leb_gt in E2. replace (line <? Height g) with true by (symmetry; apply Z.ltb_lt; lia).
  destruct (col <? 0) eqn:E3; simpl.
  { apply Z.ltb_lt in E3. by replace (0 <=? col) with false by (symmetry; apply Z.leb_gt; lia). }
  apply Z.ltb_ge in E3. replace (0 <=? col) with true by (symmetry; apply Z.leb_le; lia).
  destruct (Width g <=? col) eqn:E4; simpl.
  { apply Z.leb_le in E4. by replace (col <? Width g) with false by (symmetry; apply Z.ltb_ge; lia). }
  apply Z.leb_gt in E4. replace (col <? Width g) with true by (symmetry; apply Z.ltb_lt; lia).
  destruct (vec2_get_dims _ _ _ line col Hd) as [x Hx]; [lia..|].
  by rewrite Hx.
Qed.

Lemma is_floor_in_grid g p : is_floor g p = true → in_grid g p.
Proof.
  unfold is_floor, in_grid. rewrite !andb_true_iff, !Z.leb_le, !Z.ltb_lt. lia.
Qed.

Lemma is_floor_index g p : is_floor g p = true → 0 ≤ floor_index g p.
Proof. unfold is_floor. rewrite !andb_true_iff, !Z.leb_le. tauto. Qed.

Lemma is_floor_lookup g p :
  is_floor g p = true → vec2_get (FloorIndex g) p.1 p.2 = Some (floor_index g p).
Proof.
  intros Hf%is_floor_index. unfold floor_index in *.
  destruct (vec2_get (FloorIndex g) p.1 p.2); simpl in *; [done | lia].
Qed.

Lemma floor_index_lookup g p :
  dims (FloorIndex g) (Height g) (Width g) → in_grid g p →
  vec2_get (FloorIndex g) p.1 p.2 = Some (floor_index g p).
Proof.
  intros Hd [Hi Hj]. unfold floor_index.
  by destruct (vec2_get_dims _ _ _ p.1 p.2 Hd Hi Hj) as [x ->].
Qed.

Lemma UpdateData_floor_spec g :
  dims (FloorIndex g) (Height g) (Width g) →
  ∃ m, UpdateData_floor g = Some m ∧ dims m (Height g) (Width g) ∧
    ∀ p, in_grid g p →
      vec2_get m p.1 p.2 = Some (if 0 <=? floor_index g p then IsFloor else IsWall).
Proof.
  intros Hd.
  pose (cell := λ p : Pos, if 0 <=? floor_index g p then IsFloor else IsWall).
  pose (I := λ (done : list Z) (m : list (list Z)),
          dims m (Height g) (Width g) ∧
          ∀ p, in_grid g p →
            vec2_get m p.1 p.2 =
              Some (if p.1 <? Z.of_nat (length done) then cell p else IsWall)).
  destruct (foldM_invariant I
    (λ m i, foldM (λ m j, x ← vec2_get (FloorIndex g) i j;
                          if 0 <=? x then vec2_set m i j IsFloor else Some m)
              m (seqZ 0 (Width g)))
    (seqZ 0 (Height g))
    (replicate (Z.to_nat (Height g)) (replicate (Z.to_nat (Width g)) IsWall)))
    as (m & Hm & Hdm & Hcell).
  - split; [apply dims_replicate|]. intros p [Hi Hj]. simpl length.
    zbool. by apply vec2_get_replicate.
  - intros done i rest m0 Hl [Hd0 Hc0].
    apply seqZ_split in Hl as [-> Hi].
    pose (J := λ (done' : list Z) (m : list (list Z)),
            dims m (Height g) (Width g) ∧
            ∀ p, in_grid g p →
              vec2_get m p.1 p.2 =
                Some (if (p.1 <? Z.of_nat (length done))
                         || ((p.1 =? Z.of_nat (length done))
                             && (p.2 <? Z.of_nat (length done')))
                      then cell p else IsWall)).
    destruct (foldM_invariant J
      (λ m j, x ← vec2_get (FloorIndex g) (Z.of_nat (length done)) j;
              if 0 <=? x then vec2_set m (Z.of_nat (length done)) j IsFloor else Some m)
      (seqZ 0 (Width g)) m0) as (m1 & Hm1 & Hd1 & Hc1).
    + split; [done|]. intros p Hp. rewrite Hc0 by done. simpl length.
      destruct Hp. zbool. by rewrite andb_false_r, orb_false_r.
    + intros done' j rest' m2 Hl' [Hd2 Hc2].
      apply seqZ_split in Hl' as [-> Hj].
      assert (in_grid g (Z.of_nat (length done), Z.of_nat (length done'))) as Hin
        by (split; simpl; lia).
      pose proof (floor_index_lookup g _ Hd Hin) as Hfl. simpl in Hfl.
      rewrite Hfl. simpl.
      assert (∀ p : Pos, in_grid g p →
                ((p.1 <? Z.of_nat (length done))
                 || ((p.1 =? Z.of_nat (length done))
                     && (p.2 <? Z.of_nat (length (done' ++ [Z.of_nat (length done')])))))
                = ((p.1 <? Z.of_nat (length done))
                   || ((p.1 =? Z.of_nat (length done))
                       && (p.2 <? Z.of_nat (length done'))))
                  || bool_decide (p = (Z.of_nat (length done), Z.of_nat (length done'))))
        as Hidx.
      { intros [p1 p2] _. simpl. rewrite length_app. simpl.
        case_bool_decide as Hp.
        - injection Hp as -> ->. rewrite Z.eqb_refl.
          replace (Z.of_nat (length done') <? Z.of_nat (length done' + 1)) with true
            by (symmetry; apply Z.ltb_lt; lia).
          by rewrite !orb_true_r.
        - rewrite orb_false_r. f_equal.
          destruct (p1 =? Z.of_nat (length done)) eqn:E1; simpl; [|done].
          apply Z.eqb_eq in E1. subst.
          destruct (p2 <? Z.of_nat (length done')) eqn:E2.
          + apply Z.ltb_lt in E2. apply Z.ltb_lt. lia.
          + apply Z.ltb_ge in E2. apply Z.ltb_ge.
            assert (p2 ≠ Z.of_nat (length done')) by congruence. lia. }
      destruct (0 <=? floor_index g (Z.of_nat (length done), Z.of_nat (length done')))
        eqn:Efl.
      * destruct (vec2_set_is_Some m2 (Z.of_nat (length done)) (Z.of_nat (length done'))
                    IsFloor) as [m3 Hm3].
        { apply (vec2_get_dims _ _ _ _ _ Hd2); lia. }
        exists m3. split; [done|]. split; [by eapply vec2_set_dims|].
        intros p Hp. rewrite (vec2_get_set _ _ _ _ _ _ _ Hm3), Hidx by done.
        case_decide as Heq.
        -- rewrite bool_decide_eq_true_2, orb_true_r by (by destruct p; simpl in *).
           unfold cell. replace p with (Z.of_nat (length done), Z.of_nat (length done'))
             by (by destruct p; simpl in *).
           by rewrite Efl.
        -- rewrite bool_decide_eq_false_2, orb_false_r by (by destruct p; simpl in *; congruence).
           by apply Hc2.
      * exists m2. split; [done|]. split; [done|].
        intros p Hp. rewrite Hidx, Hc2 by done.
        case_bool_decide as Heq; [|by rewrite orb_false_r].
        subst p. simpl. rewrite orb_true_r. unfold cell. rewrite Efl.
        by destruct (_ || _).
    + exists m1. split; [done|]. split; [done|].
      intros p Hp. rewrite Hc1 by done. f_equal.
      rewrite length_seqZ, length_app. simpl.
      replace (p.2 <? Z.of_nat (Z.to_nat (Width g))) with true
        by (symmetry; apply Z.ltb_lt; destruct Hp; lia).
      rewrite andb_true_r.
      destruct (p.1 <? Z.of_nat (length done)) eqn:E1; simpl.
      * apply Z.ltb_lt in E1.
        by replace (p.1 <? Z.of_nat (length done + 1)) with true
          by (symmetry; apply Z.ltb_lt; lia).
      * apply Z.ltb_ge in E1. destruct (p.1 =? Z.of_nat (length done)) eqn:E2.
        -- apply Z.eqb_eq in E2.
           by replace (p.1 <? Z.of_nat (length done + 1)) with true
             by (symmetry; apply Z.ltb_lt; lia).
        -- apply Z.eqb_neq in E2.
           by replace (p.1 <? Z.of_nat (length done + 1)) with false
             by (symmetry; apply Z.ltb_ge; lia).
  - exists m. split; [done|]. split; [done|].
    intros p Hp. rewrite Hcell by done. rewrite length_seqZ.
    by replace (p.1 <? Z.of_nat (Z.to_nat (Height g))) with true
      by (symmetry; apply Z.ltb_lt; destruct Hp; lia).
Qed.

(** ** Cell flags *)

Lemma lor_bound n a b : 0 ≤ n → 0 ≤ a < 2 ^ n → 0 ≤ b < 2 ^ n → 0 ≤ Z.lor a b < 2 ^ n.
Proof.
  intros Hn Ha Hb. split; [apply Z.lor_nonneg; lia|].
  destruct (decide (Z.lor a b = 0)) as [->|Hne]; [lia|].
  assert (0 ≤ Z.lor a b) by (apply Z.lor_nonneg; lia).
  apply Z.log2_lt_pow2; [lia|]. rewrite Z.log2_lor by lia.
  destruct (decide (a = 0)) as [->|Ha0]; destruct (decide (b = 0)) as [->|Hb0].
  - simpl in Hne. done.
  - rewrite Z.max_r by (apply Z.log2_nonneg). apply Z.log2_lt_pow2; lia.
  - rewrite Z.max_l by (apply Z.log2_nonneg). apply Z.log2_lt_pow2; lia.
  - apply Z.max_lub_lt; apply Z.log2_lt_pow2; lia.
Qed.

Lemma lor_flag_bound a b : 0 ≤ a < 16 → 0 ≤ b < 16 → 0 ≤ Z.lor a b < 16.
Proof. intros. by apply (lor_bound 4). Qed.

(** The effect of [maze[i][j] |= flag] on the cells of a maze whose cells
    are described by [base]. *)
Lemma vec2_or_cell m h w (base : Pos → Z) q flag :
  dims m h w → (0 ≤ q.1 < h ∧ 0 ≤ q.2 < w) → 0 ≤ flag < 16 →
  (∀ p, 0 ≤ base p < 16) →
  (∀ p : Pos, 0 ≤ p.1 < h ∧ 0 ≤ p.2 < w → vec2_get m p.1 p.2 = Some (base p)) →
  ∃ m', vec2_or m q.1 q.2 flag = Some m' ∧ dims m' h w ∧
    ∀ p : Pos, 0 ≤ p.1 < h ∧ 0 ≤ p.2 < w →
      vec2_get m' p.1 p.2 = Some (if pos_eqb p q then Z.lor (base p) flag else base p).
Proof.
  intros Hd Hq Hflag Hbase Hcell.
  destruct (vec2_set_is_Some m q.1 q.2 (to_PosInt (Z.lor (base q) flag))) as [m' Hm'].
  { rewrite Hcell by done. eauto. }
  exists m'. split; [apply vec2_or_Some; eauto|]. split; [by eapply vec2_set_dims|].
  intros p Hp. rewrite (vec2_get_set _ _ _ _ _ _ _ Hm').
  case_decide as Heq.
  - assert (p = q) as -> by (destruct p, q; simpl in *; congruence).
    rewrite pos_eqb_refl, to_PosInt_small; [done|].
    pose proof (lor_flag_bound (base q) flag (Hbase q) Hflag). lia.
  - destruct (pos_eqb p q) eqn:E; [|by apply Hcell].
    apply pos_eqb_eq in E. subst. done.
Qed.

(** The same for a loop that sets [flag] on every position of a list. *)
Lemma foldM_or_cell m h w (base : Pos → Z) (l : list Pos) flag :
  dims m h w → Forall (λ q : Pos, 0 ≤ q.1 < h ∧ 0 ≤ q.2 < w) l → 0 ≤ flag < 16 →
  (∀ p, 0 ≤ base p < 16) →
  (∀ p : Pos, 0 ≤ p.1 < h ∧ 0 ≤ p.2 < w → vec2_get m p.1 p.2 = Some (base p)) →
  ∃ m', foldM (λ m i, vec2_or m i.1 i.2 flag) m l = Some m' ∧ dims m' h w ∧
    ∀ p : Pos, 0 ≤ p.1 < h ∧ 0 ≤ p.2 < w →
      vec2_get m' p.1 p.2 = Some (Z.lor (base p) (if set_count p l then flag else 0)).
Proof.
  intros Hd Hl Hflag Hbase Hcell.
  apply (foldM_invariant
    (λ done m', dims m' h w ∧
       ∀ p : Pos, 0 ≤ p.1 < h ∧ 0 ≤ p.2 < w →
         vec2_get m' p.1 p.2 = Some (Z.lor (base p) (if set_count p done then flag else 0)))).
  - split; [done|]. intros p Hp. simpl. rewrite Z.lor_0_r. by apply Hcell.
  - intros done q rest m0 -> [Hd0 Hc0].
    rewrite Forall_app, Forall_cons in Hl. destruct Hl as (_ & Hq & _).
    destruct (vec2_or_cell m0 h w
                (λ p, Z.lor (base p) (if set_count p done then flag else 0)) q flag)
      as (m1 & Hm1 & Hd1 & Hc1); [done..| |done|].
    { intros p. apply lor_flag_bound; [done|]. destruct (set_count p done); lia. }
    exists m1. split; [done|]. split; [done|].
    intros p Hp. rewrite Hc1 by done. f_equal.
    unfold set_count. rewrite existsb_app. simpl. rewrite orb_false_r.
    destruct (pos_eqb p q); destruct (existsb (pos_eqb p) done); simpl;
      rewrite <- ?Z.lor_assoc, ?Z.lor_diag, ?Z.lor_0_r, ?Z.lor_0_l; done.
Qed.

(** ** Reading the flags of a cell *)

Lemma cell_value_range g p : 0 ≤ cell_value g p < 16.
Proof.
  unfold cell_value.
  destruct (0 <=? floor_index g p), (set_count p (GoalPos g)),
    (set_count p (BoxPos g)), (pos_eqb p (PlayerPos g)); vm_compute; split; congruence.
Qed.

Lemma cell_value_IsBox g p :
  (Z.land (cell_value g p) IsBox =? 0) = negb (set_count p (BoxPos g)).
Proof.
  unfold cell_value.
  by destruct (0 <=? floor_index g p), (set_count p (GoalPos g)),
    (set_count p (BoxPos g)), (pos_eqb p (PlayerPos g)).
Qed.

Lemma Movement_cases d :
  d ∈ AllDirections →
  Movement d = (-1, 0) ∨ Movement d = (0, -1) ∨ Movement d = (0, 1) ∨ Movement d = (1, 0).
Proof.
  unfold AllDirections. rewrite !elem_of_cons, elem_of_nil.
  intros Hd. repeat (destruct Hd as [->|Hd]; [vm_compute; tauto|]). done.
Qed.

Lemma step_MazeInt g p d :
  Height g ≤ 125 → Width g ≤ 125 → in_grid g p → d ∈ AllDirections →
  to_MazeInt (p.1 + (Movement d).1) = (step p d).1 ∧
  to_MazeInt (p.2 + (Movement d).2) = (step p d).2.
Proof.
  intros Hh Hw [Hi Hj] Hd. unfold step. cbn [fst snd].
  destruct (Movement_cases d Hd) as [->|[->|[->| ->]]]; cbn [fst snd];
    split; apply to_MazeInt_small; lia.
Qed.

Lemma CheckFloor_pure' g p :
  dims (FloorIndex g) (Height g) (Width g) →
  CheckFloor g p.1 p.2 = Some (is_floor g p).
Proof. intros Hd. rewrite CheckFloor_pure by done. by destruct p. Qed.

Lemma maze_cell_step g p d :
  maze_ok g → in_grid g (step p d) →
  vec2_get (Maze g) (p.1 + (Movement d).1) (p.2 + (Movement d).2)
  = Some (cell_value g (step p d)).
Proof. intros [_ Hc] Hin. by apply (Hc (step p d)). Qed.

(** [CheckDirection] without permission to push: the next cell is floor
    and holds no box. *)
Lemma CheckDirection_body_nopush self g d p :
  dims (FloorIndex g) (Height g) (Width g) → maze_ok g →
  Height g ≤ 125 → Width g ≤ 125 → in_grid g p → d ∈ AllDirections →
  CheckDirection_body self g d p.1 p.2 false
  = Some (is_floor g (step p d) && negb (set_count (step p d) (BoxPos g))).
Proof.
  intros Hfi Hm Hh Hw Hp Hd. unfold CheckDirection_body.
  destruct (step_MazeInt g p d Hh Hw Hp Hd) as [-> ->].
  rewrite CheckFloor_pure' by done.
  destruct (is_floor g (step p d)) eqn:Efl; [|done].
  cbn [mbind option_bind negb andb].
  rewrite maze_cell_step by (done || by apply is_floor_in_grid).
  cbn [mbind option_bind]. rewrite cell_value_IsBox.
  by destruct (set_count (step p d) (BoxPos g)).
Qed.

Lemma CheckDirection_nopush g d p :
  dims (FloorIndex g) (Height g) (Width g) → maze_ok g →
  Height g ≤ 125 → Width g ≤ 125 → in_grid g p → d ∈ AllDirections →
  CheckDirection g d p.1 p.2 false
  = Some (is_floor g (step p d) && negb (set_count (step p d) (BoxPos g))).
Proof. apply CheckDirection_body_nopush. Qed.

(** [CheckDirection] with permission to push one box. *)
Lemma CheckDirection_push g d p :
  dims (FloorIndex g) (Height g) (Width g) → maze_ok g →
  Height g ≤ 125 → Width g ≤ 125 → in_grid g p → d ∈ AllDirections →
  CheckDirection g d p.1 p.2 true
  = Some (is_floor g (step p d)
          && (negb (set_count (step p d) (BoxPos g))
              || (is_floor g (step (step p d) d)
                  && negb (set_count (step (step p d) d) (BoxPos g))))).
Proof.
  intros Hfi Hm Hh Hw Hp Hd. unfold CheckDirection, CheckDirection_body at 1.
  destruct (step_MazeInt g p d Hh Hw Hp Hd) as [-> ->].
  rewrite CheckFloor_pure' by done.
  destruct (is_floor g (step p d)) eqn:Efl; [|done].
  cbn [mbind option_bind negb andb].
  rewrite maze_cell_step by (done || by apply is_floor_in_grid).
  cbn [mbind option_bind]. rewrite cell_value_IsBox.
  destruct (set_count (step p d) (BoxPos g)); [|done].
  cbn [negb orb].
  rewrite CheckDirection_body_nopush by (done || by apply is_floor_in_grid).
  cbn [mbind option_bind]. by destruct (_ && _).
Qed.

(** ** The encoded state *)

Lemma pack_app bits l y :
  0 ≤ bits → pack bits (l ++ [y]) = pack bits l + y * 2 ^ (bits * Z.of_nat (length l)).
Proof.
  intros Hb. induction l as [|x l IH]; simpl pack; simpl length.
  - change (Z.of_nat 0) with 0. rewrite !Z.mul_0_r. change (2 ^ 0) with 1. lia.
  - rewrite IH. replace (bits * Z.of_nat (S (length l)))
      with (bits + bits * Z.of_nat (length l)) by lia.
    rewrite Z.pow_add_r by nia. lia.
Qed.

Lemma pack_bound bits l :
  0 ≤ bits → Forall (λ x, 0 ≤ x < 2 ^ bits) l →
  0 ≤ pack bits l < 2 ^ (bits * Z.of_nat (length l)).
Proof.
  intros Hb. induction 1 as [|x l Hx Hl IH]; simpl pack; simpl length.
  - change (Z.of_nat 0) with 0. rewrite Z.mul_0_r. change (2 ^ 0) with 1. lia.
  - replace (bits * Z.of_nat (S (length l)))
      with (bits + bits * Z.of_nat (length l)) by lia.
    rewrite Z.pow_add_r by nia.
    assert (0 < 2 ^ bits) by (apply Z.pow_pos_nonneg; lia).
    nia.
Qed.

(** Every field can be read back from the packed number. *)
Lemma pack_field bits l k x :
  0 ≤ bits → Forall (λ x, 0 ≤ x < 2 ^ bits) l → l !! k = Some x →
  (pack bits l / 2 ^ (bits * Z.of_nat k)) mod 2 ^ bits = x.
Proof.
  intros Hb Hl. revert k. induction Hl as [|y l Hy Hl IH]; intros k Hk; [done|].
  assert (0 < 2 ^ bits) by (apply Z.pow_pos_nonneg; lia).
  destruct k as [|k]; simpl in Hk; simpl pack.
  - injection Hk as ->. change (Z.of_nat 0) with 0. rewrite Z.mul_0_r.
    change (2 ^ 0) with 1. rewrite Z.div_1_r.
    rewrite Z.mul_comm, Z_mod_plus_full. apply Z.mod_small. lia.
  - replace (bits * Z.of_nat (S k)) with (bits + bits * Z.of_nat k) by lia.
    rewrite Z.pow_add_r by nia.
    rewrite <- Z.div_div by (try apply Z.pow_pos_nonneg; nia).
    rewrite (Z.mul_comm (2 ^ bits)), Z.div_add by lia.
    rewrite (Z.div_small y) by lia. simpl. by apply IH.
Qed.

Lemma lor_disjoint_add a y k :
  0 ≤ k → 0 ≤ a < 2 ^ k → Z.lor a (y * 2 ^ k) = a + y * 2 ^ k.
Proof.
  intros Hk Ha.
  assert (Z.land a (y * 2 ^ k) = 0) as Hland.
  { apply Z.bits_inj'. intros n Hn. rewrite Z.land_spec, Z.bits_0.
    destruct (decide (n < k)).
    - rewrite Z.mul_pow2_bits_low by lia. apply andb_false_r.
    - destruct (decide (a = 0)) as [->|]; [by rewrite Z.bits_0|].
      rewrite (Z.bits_above_log2 a n); [done|lia|].
      apply Z.lt_le_trans with k; [|lia]. apply Z.log2_lt_pow2; lia. }
  rewrite Z.add_nocarry_lxor by done. symmetry. by apply Z.lxor_lor.
Qed.

Section Derived.
Variable StateBits : N.

Lemma bitset_of_small x :
  0 ≤ x < 2 ^ 64 → x < 2 ^ Z.of_N StateBits → bitset_of StateBits x = x.
Proof.
  intros Hx Hs. unfold bitset_of, wrap_unsigned.
  rewrite (Z.mod_small x) by lia. apply Z.mod_small. lia.
Qed.

Lemma bitset_shl_small x k :
  0 ≤ x → 0 ≤ k < 2 ^ 64 → x * 2 ^ k < 2 ^ Z.of_N StateBits →
  bitset_shl StateBits x k = x * 2 ^ k.
Proof.
  intros Hx Hk Hs. unfold bitset_shl. rewrite to_size_t_small by done.
  rewrite Z.shiftl_mul_pow2 by lia. apply Z.mod_small.
  split; [|done]. apply Z.mul_nonneg_nonneg; [done|]. apply Z.pow_nonneg. lia.
Qed.

Lemma cell_base_range g p : 0 ≤ cell_base g p < 16.
Proof.
  unfold cell_base.
  destruct (0 <=? floor_index g p), (set_count p (GoalPos g)); vm_compute; split; congruence.
Qed.

Lemma UpdateData_boxes g m :
  wf_layout StateBits g → wf_position g →
  dims m (Height g) (Width g) →
  (∀ p, in_grid g p → vec2_get m p.1 p.2 = Some (cell_base g p)) →
  ∃ m', foldM (UpdateData_box StateBits g)
          (m, 0, bitset_of StateBits (floor_index g (PlayerPos g)), 0) (BoxPos g)
        = Some (m', finished_count g, encoded_state g, Z.of_nat (length (BoxPos g))) ∧
    dims m' (Height g) (Width g) ∧
    ∀ p, in_grid g p →
      vec2_get m' p.1 p.2
      = Some (Z.lor (cell_base g p) (if set_count p (BoxPos g) then IsBox else 0)).
Proof.
  intros Hlay Hpos Hd Hc.
  pose proof (wf_FloorBits _ _ Hlay) as Hfb.
  pose proof (wf_capacity _ _ Hlay) as Hcap.
  pose proof (wf_box_count _ _ Hlay) as Hcount.
  pose proof (wf_BoxPos_length _ Hpos) as Hlen.
  assert (0 < 2 ^ FloorBits g) as Hpow by (apply Z.pow_pos_nonneg; lia).
  assert (2 ^ FloorBits g ≤ 2 ^ 14) as Hpow14 by (apply Z.pow_le_mono_r; lia).
  assert (∀ p, is_floor g p = true → 0 ≤ floor_index g p < 2 ^ FloorBits g) as Hidx.
  { intros p Hp. pose proof (wf_index _ _ Hlay p). apply is_floor_index in Hp. lia. }
  pose (I := λ (done : list Pos) (acc : list (list Z) * Z * Z * Z),
          let '(m', fin, st, off) := acc in
          dims m' (Height g) (Width g) ∧
          (∀ p, in_grid g p →
             vec2_get m' p.1 p.2
             = Some (Z.lor (cell_base g p) (if set_count p done then IsBox else 0))) ∧
          fin = Z.of_nat (length (filter (λ b, set_count b (GoalPos g) = true) done)) ∧
          st = pack (FloorBits g)
                 (floor_index g (PlayerPos g) :: map (floor_index g) done) ∧
          off = Z.of_nat (length done)).
  destruct (foldM_invariant I (UpdateData_box StateBits g) (BoxPos g)
              (m, 0, bitset_of StateBits (floor_index g (PlayerPos g)), 0))
    as ([[[m' fin] st] off] & Hfold & Hd' & Hc' & -> & -> & ->).
  - split; [done|]. split.
    { intros p Hp. rewrite Hc by done. simpl. by rewrite Z.lor_0_r. }
    split; [done|]. split; [|done].
    simpl. rewrite Z.mul_0_r, Z.add_0_r.
    pose proof (Hidx _ (wf_PlayerPos _ Hpos)).
    apply bitset_of_small; [lia|].
    apply Z.lt_le_trans with (2 ^ FloorBits g); [lia|].
    apply Z.pow_le_mono_r; nia.
  - intros done b rest [[[m0 fin] st] off] Hl (Hd0 & Hc0 & -> & -> & ->).
    assert (is_floor g b = true) as Hb.
    { pose proof (wf_BoxPos_floor _ Hpos) as Hall. rewrite Forall_forall in Hall.
      apply Hall. rewrite Hl. set_solver. }
    assert (Z.of_nat (length done) < Z.of_nat (length (BoxPos0 g))) as Hdone.
    { rewrite <- Hlen, Hl, length_app. simpl. lia. }
    destruct (vec2_or_cell m0 (Height g) (Width g)
                (λ p, Z.lor (cell_base g p) (if set_count p done then IsBox else 0))
                b IsBox) as (m1 & Hm1 & Hd1 & Hc1).
    { done. } { by apply is_floor_in_grid. } { vm_compute; split; congruence. }
    { intros p. apply lor_flag_bound; [apply cell_base_range|].
      destruct (set_count p done); vm_compute; split; congruence. }
    { done. }
    unfold UpdateData_box. rewrite Hm1. cbn [mbind option_bind].
    rewrite (Hc1 b) by by apply is_floor_in_grid.
    cbn [mbind option_bind]. rewrite pos_eqb_refl.
    rewrite (is_floor_lookup g b Hb). cbn [mbind option_bind].
    eexists. split; [reflexivity|].
    split; [done|]. split; [|split; [|split]].
    + intros p Hp. rewrite Hc1 by done. f_equal.
      unfold set_count. rewrite existsb_app. simpl. rewrite orb_false_r.
      destruct (pos_eqb p b); destruct (existsb (pos_eqb p) done); simpl;
        rewrite <- ?Z.lor_assoc, ?Z.lor_diag, ?Z.lor_0_r, ?Z.lor_0_l; done.
    + rewrite filter_app, length_app.
      unfold cell_base. apply is_floor_index in Hb as Hb'.
      replace (0 <=? floor_index g b) with true by (symmetry; apply Z.leb_le; lia).
      assert (Z.of_nat (length (filter (λ b0, set_count b0 (GoalPos g) = true) done))
              ≤ Z.of_nat (length done)) by (pose proof (length_filter
                (λ b0, set_count b0 (GoalPos g) = true) done); lia).
      destruct (set_count b (GoalPos g)) eqn:Eg.
      * rewrite filter_cons_True by done. simpl length.
        replace (Z.lor (Z.lor (Z.lor IsFloor IsGoal) (if set_count b done then IsBox else 0))
                   IsBox =? Z.lor (Z.lor IsFloor IsGoal) IsBox) with true
          by (by destruct (set_count b done)).
        rewrite to_SizeInt_small; lia.
      * rewrite filter_cons_False by (by rewrite Eg). simpl length.
        replace (Z.lor (Z.lor (Z.lor IsFloor 0) (if set_count b done then IsBox else 0))
                   IsBox =? Z.lor (Z.lor IsFloor IsGoal) IsBox) with false
          by (by destruct (set_count b done)).
        lia.
    + rewrite to_SizeInt_small by lia.
      rewrite map_app. change (map (floor_index g) [b]) with [floor_index g b].
      rewrite app_comm_cons, pack_app by lia. simpl length. rewrite length_map.
      pose proof (Hidx b Hb) as Hib.
      assert (Forall (λ x, 0 ≤ x < 2 ^ FloorBits g)
                (floor_index g (PlayerPos g) :: map (floor_index g) done)) as Hfields.
      { apply Forall_cons. split; [apply Hidx, (wf_PlayerPos _ Hpos)|].
        apply Forall_map, Forall_forall. intros q Hq. apply Hidx.
        pose proof (wf_BoxPos_floor _ Hpos) as Hall. rewrite Forall_forall in Hall.
        apply Hall. rewrite Hl. set_solver. }
      pose proof (pack_bound (FloorBits g) _ (proj1 Hfb) Hfields) as Hpk.
      simpl length in Hpk. rewrite length_map in Hpk.
      replace (FloorBits g * (Z.of_nat (length done) + 1))
        with (FloorBits g * Z.of_nat (S (length done))) by lia.
      assert (2 ^ FloorBits g * 2 ^ (FloorBits g * Z.of_nat (S (length done)))
              ≤ 2 ^ Z.of_N StateBits) as Hfit.
      { rewrite <- Z.pow_add_r by nia. apply Z.pow_le_mono_r; [lia|]. nia. }
      assert (0 < 2 ^ (FloorBits g * Z.of_nat (S (length done)))) as Hpos2
        by (apply Z.pow_pos_nonneg; nia).
      rewrite bitset_of_small; [|lia|nia].
      rewrite bitset_shl_small; [|lia| |nia].
      * apply lor_disjoint_add; [nia|]. done.
      * split; [nia|]. change (2 ^ 64) with 18446744073709551616. nia.
    + rewrite to_SizeInt_small by lia. rewrite length_app. simpl. lia.
  - exists m'. split; [|done]. rewrite Hfold. done.
Qed.

End Derived.

Section UpdateData.
Variable StateBits : N.

Lemma finished_count_range g : 0 ≤ finished_count g ≤ Z.of_nat (length (BoxPos g)).
Proof.
  unfold finished_count.
  pose proof (length_filter (λ b, set_count b (GoalPos g) = true) (BoxPos g)). lia.
Qed.

Lemma directions_fold (l1 l2 l3 l4 : bool) :
  let dirs :=
    (if l4 then to_DirectionInt (Z.lor
       (if l3 then to_DirectionInt (Z.lor
          (if l2 then to_DirectionInt (Z.lor
             (if l1 then to_DirectionInt (Z.lor NoDirection Up) else NoDirection) Left)
           else (if l1 then to_DirectionInt (Z.lor NoDirection Up) else NoDirection)) Right)
        else
          (if l2 then to_DirectionInt (Z.lor
             (if l1 then to_DirectionInt (Z.lor NoDirection Up) else NoDirection) Left)
           else (if l1 then to_DirectionInt (Z.lor NoDirection Up) else NoDirection))) Down)
     else
       (if l3 then to_DirectionInt (Z.lor
          (if l2 then to_DirectionInt (Z.lor
             (if l1 then to_DirectionInt (Z.lor NoDirection Up) else NoDirection) Left)
           else (if l1 then to_DirectionInt (Z.lor NoDirection Up) else NoDirection)) Right)
        else
          (if l2 then to_DirectionInt (Z.lor
             (if l1 then to_DirectionInt (Z.lor NoDirection Up) else NoDirection) Left)
           else (if l1 then to_DirectionInt (Z.lor NoDirection Up) else NoDirection)))) in
  0 ≤ dirs < 16 ∧
  (Z.land dirs Up ≠ 0 ↔ l1 = true) ∧ (Z.land dirs Left ≠ 0 ↔ l2 = true) ∧
  (Z.land dirs Right ≠ 0 ↔ l3 = true) ∧ (Z.land dirs Down ≠ 0 ↔ l4 = true).
Proof. destruct l1, l2, l3, l4; vm_compute; intuition congruence. Qed.

(** [UpdateData] up to its last step, the call of [CheckFailed]. *)
Lemma UpdateData_unfold g :
  wf_layout StateBits g → wf_position g →
  ∃ maze directions,
    UpdateData StateBits g
    = (failed ← CheckFailed (derived g maze directions (Failed g));
       Some (derived g maze directions failed)) ∧
    (∀ failed, maze_ok (derived g maze directions failed)) ∧
    0 ≤ directions < 16 ∧
    (∀ d, d ∈ AllDirections → (Z.land directions d ≠ 0 ↔ legal g d = true)).
Proof.
  intros Hlay Hpos.
  pose proof (wf_FloorIndex _ _ Hlay) as Hfi.
  pose proof (wf_Height _ _ Hlay) as Hh.
  pose proof (wf_Width _ _ Hlay) as Hw.
  destruct (UpdateData_floor_spec g Hfi) as (m0 & Hm0 & Hd0 & Hc0).
  destruct (foldM_or_cell m0 (Height g) (Width g)
              (λ p, if 0 <=? floor_index g p then IsFloor else IsWall)
              (GoalPos g) IsGoal) as (m1 & Hm1 & Hd1 & Hc1).
  { done. } { apply (wf_GoalPos _ _ Hlay). } { vm_compute; split; congruence. }
  { intros p. destruct (0 <=? floor_index g p); vm_compute; split; congruence. }
  { done. }
  destruct (UpdateData_boxes StateBits g m1 Hlay Hpos Hd1 Hc1) as (m2 & Hm2 & Hd2 & Hc2).
  destruct (vec2_or_cell m2 (Height g) (Width g)
              (λ p, Z.lor (cell_base g p) (if set_count p (BoxPos g) then IsBox else 0))
              (PlayerPos g) IsPlayer) as (m3 & Hm3 & Hd3 & Hc3).
  { done. } { apply is_floor_in_grid, (wf_PlayerPos _ Hpos). }
  { vm_compute; split; congruence. }
  { intros p. apply lor_flag_bound; [apply cell_base_range|].
    destruct (set_count p (BoxPos g)); vm_compute; split; congruence. }
  { done. }
  assert (∀ s f dirs fin st,
            maze_ok (mkGame s f dirs (Height g) (Width g) (FloorBits g) fin st
                       (TimeElapsed g) (PlayerPos0 g) (PlayerPos g) (BoxPos0 g) (BoxPos g)
                       (GoalPos g) m3 (FloorIndex g) (StateHistory g))) as Hmaze.
  { intros. split; [done|]. intros p Hp. cbn [Maze]. rewrite Hc3 by done.
    unfold cell_value, cell_base. cbn [GoalPos BoxPos PlayerPos].
    destruct (pos_eqb p (PlayerPos g)); [done|]. by rewrite Z.lor_0_r. }
  pose (g1 := mkGame (Succeeded g) (Failed g) NoDirection (Height g) (Width g)
                (FloorBits g) (finished_count g) (encoded_state g) (TimeElapsed g)
                (PlayerPos0 g) (PlayerPos g) (BoxPos0 g) (BoxPos g) (GoalPos g) m3
                (FloorIndex g) (StateHistory g)).
  assert (∀ d, d ∈ AllDirections →
            CheckDirection g1 d (PlayerPos g).1 (PlayerPos g).2 true = Some (legal g d))
    as Hdir.
  { intros d Hd.
    apply (CheckDirection_push g1 d (PlayerPos g)); [done|apply Hmaze|simpl; lia..| |done].
    apply (is_floor_in_grid g), (wf_PlayerPos _ Hpos). }
  pose proof (directions_fold (legal g Up) (legal g Left) (legal g Right) (legal g Down))
    as Hfold.
  cbv zeta in Hfold.
  match type of Hfold with 0 ≤ ?dirs < 16 ∧ _ => set (directions := dirs) in * end.
  exists m3, directions.
  split; [|split; [|split]].
  - unfold UpdateData. rewrite Hm0. cbn [mbind option_bind]. rewrite Hm1.
    cbn [mbind option_bind].
    rewrite (is_floor_lookup g _ (wf_PlayerPos _ Hpos)). cbn [mbind option_bind].
    rewrite Hm2. cbn [mbind option_bind]. rewrite Hm3. cbn [mbind option_bind].
    fold g1. cbn [foldM].
    rewrite !Hdir by (unfold AllDirections; set_solver).
    cbn [mbind option_bind]. fold directions.
    rewrite to_size_t_small.
    2:{ pose proof (finished_count_range g). pose proof (wf_box_count _ _ Hlay).
        rewrite (wf_BoxPos_length _ Hpos) in *. change (2 ^ 64) with 18446744073709551616.
        lia. }
    reflexivity.
  - intros failed. apply Hmaze.
  - tauto.
  - intros d Hd. unfold AllDirections in Hd.
    repeat (apply elem_of_cons in Hd as [->|Hd]; [tauto|]). set_solver.
Qed.

End UpdateData.

(** ** Termination of the recursive checks *)

Lemma size_list_to_set_le `{Countable A} (l : list A) :
  (size (list_to_set l : gset A) ≤ length l)%nat.
Proof.
  induction l as [|x l IH].
  - by rewrite list_to_set_nil, size_empty.
  - rewrite list_to_set_cons, size_union_alt, size_singleton. simpl length.
    pose proof (subseteq_size (list_to_set l ∖ {[x]}) (list_to_set l : gset A)
                  ltac:(set_solver)).
    lia.
Qed.

Lemma elem_of_grid_cells g p : p ∈ grid_cells g ↔ in_grid g p.
Proof.
  unfold grid_cells, in_grid. rewrite elem_of_list_to_set, list_elem_of_In.
  destruct p as [i j].
  rewrite in_prod_iff, <- !list_elem_of_In, !elem_of_seqZ. simpl. lia.
Qed.

Lemma elem_of_grid_axes g p h : (p, h) ∈ grid_axes g ↔ in_grid g p.
Proof.
  unfold grid_axes, in_grid. rewrite elem_of_list_to_set, list_elem_of_In.
  destruct p as [i j].
  rewrite !in_prod_iff, <- !list_elem_of_In, !elem_of_seqZ. simpl.
  split; [lia|]. intros Hp. split; [lia|]. destruct h; set_solver.
Qed.

Lemma size_grid_cells g :
  (size (grid_cells g) ≤ Z.to_nat (Height g) * Z.to_nat (Width g))%nat.
Proof.
  unfold grid_cells. etrans; [apply size_list_to_set_le|].
  by rewrite length_prod, !length_seqZ.
Qed.

Lemma size_grid_axes g :
  (size (grid_axes g) ≤ 2 * (Z.to_nat (Height g) * Z.to_nat (Width g)))%nat.
Proof.
  unfold grid_axes. etrans; [apply size_list_to_set_le|].
  rewrite !length_prod, !length_seqZ. simpl. lia.
Qed.

Section Termination.
Variable g : Game.
Hypothesis Hfi : dims (FloorIndex g) (Height g) (Width g).
Hypothesis Hmaze : maze_ok g.
Hypothesis Hh : 0 ≤ Height g ≤ 125.
Hypothesis Hw : 0 ≤ Width g ≤ 125.

Lemma maze_cell p : in_grid g p → vec2_get (Maze g) p.1 p.2 = Some (cell_value g p).
Proof. apply Hmaze. Qed.

Lemma in_grid_MazeInt p : in_grid g p → to_MazeInt p.1 = p.1 ∧ to_MazeInt p.2 = p.2.
Proof. intros [? ?]. split; apply to_MazeInt_small; lia. Qed.

(** The neighbour test of [BoxStuck], given that the recursive call is
    defined on every cell of the grid and leaves the visited set alone when
    it answers [false]. *)
Lemma BoxStuck_neighbours_total self q1 q2 vis :
  (∀ q v, in_grid g q → v = vis →
     ∃ r v', self q.1 q.2 v = Some (r, v') ∧ (r = false → v' = v)) →
  -1 ≤ q1.1 ≤ 125 → -1 ≤ q1.2 ≤ 125 → -1 ≤ q2.1 ≤ 125 → -1 ≤ q2.2 ≤ 125 →
  ∃ r v', BoxStuck_neighbours self g q1.1 q1.2 q2.1 q2.2 vis = Some (r, v') ∧
    (r = false → v' = vis) ∧
    (is_floor g q1 = false ∨ is_floor g q2 = false → r = true).
Proof.
  intros Hself H11 H12 H21 H22. unfold BoxStuck_neighbours.
  rewrite !to_MazeInt_small by lia.
  rewrite !CheckFloor_pure' by done. cbn [mbind option_bind].
  destruct (is_floor g q1) eqn:E1; cbn [negb mbind option_bind].
  2:{ exists true, vis. split; [done|]. split; [done|]. done. }
  destruct (is_floor g q2) eqn:E2; cbn [negb mbind option_bind].
  2:{ exists true, vis. split; [done|]. split; [done|]. done. }
  apply is_floor_in_grid in E1 as Hq1. apply is_floor_in_grid in E2 as Hq2.
  rewrite !maze_cell by done. cbn [mbind option_bind].
  assert (∀ q, in_grid g q →
            ∃ r v', (if negb (Z.land (cell_value g q) IsBox =? 0)
                     then self q.1 q.2 vis else Some (false, vis)) = Some (r, v')
                    ∧ (r = false → v' = vis)) as Hcall.
  { intros q Hq. destruct (negb _); [by apply Hself|]. by exists false, vis. }
  destruct (Hcall q1 Hq1) as (r1 & v1 & -> & Hr1). cbn [mbind option_bind].
  destruct r1.
  - exists true, v1. split; [done|]. split; [done|]. intros [?|?]; congruence.
  - rewrite (Hr1 eq_refl). destruct (Hcall q2 Hq2) as (r2 & v2 & -> & Hr2).
    exists r2, v2. split; [done|]. split; [done|]. intros [?|?]; congruence.
Qed.

Lemma BoxStuck_total fuel p h vis :
  in_grid g p → vis ⊆ grid_axes g →
  (size (grid_axes g) < fuel + size vis)%nat →
  ∃ r vis', BoxStuck fuel g p.1 p.2 h vis = Some (r, vis') ∧ (r = false → vis' = vis).
Proof.
  revert p h vis. induction fuel as [|n IH]; intros p h vis Hp Hvis Hfuel.
  { pose proof (subseteq_size _ _ Hvis). simpl in Hfuel. lia. }
  cbn [BoxStuck]. replace (p.1, p.2) with p by by destruct p.
  case_decide as Hin.
  { eexists _, _. split; [reflexivity|]. intros [=]. }
  assert (vis ∪ {[(p, h)]} ⊆ grid_axes g) as Hvis'.
  { apply union_least; [done|]. apply singleton_subseteq_l. by apply elem_of_grid_axes. }
  assert (size (grid_axes g) < n + size (vis ∪ {[(p, h)]}))%nat as Hfuel'.
  { rewrite size_union by set_solver. rewrite size_singleton. lia. }
  assert (∀ q v, in_grid g q → v = vis ∪ {[(p, h)]} →
            ∃ r v', BoxStuck n g q.1 q.2 (negb h) v = Some (r, v') ∧ (r = false → v' = v))
    as Hself.
  { intros q v Hq ->. by apply IH. }
  destruct Hp as [Hp1 Hp2].
  destruct h.
  - destruct (BoxStuck_neighbours_total (λ l c v, BoxStuck n g l c (negb true) v)
                (p.1, p.2 - 1) (p.1, p.2 + 1) (vis ∪ {[(p, true)]}))
      as (r & v' & Hn & Hr & _); [done|simpl; lia..|].
    cbn [fst snd] in Hn. rewrite Hn. cbn [mbind option_bind].
    eexists _, _. split; [reflexivity|]. intros ->. rewrite Hr by done. set_solver.
  - destruct (BoxStuck_neighbours_total (λ l c v, BoxStuck n g l c (negb false) v)
                (p.1 - 1, p.2) (p.1 + 1, p.2) (vis ∪ {[(p, false)]}))
      as (r & v' & Hn & Hr & _); [done|simpl; lia..|].
    cbn [fst snd] in Hn. rewrite Hn. cbn [mbind option_bind].
    eexists _, _. split; [reflexivity|]. intros ->. rewrite Hr by done. set_solver.
Qed.

(** A box next to a wall along an axis is stuck along that axis, whatever
    the budget. *)
Lemma BoxStuck_wall n p (h : bool) :
  in_grid g p →
  (if h then is_floor g (p.1, p.2 - 1) = false ∨ is_floor g (p.1, p.2 + 1) = false
   else is_floor g (p.1 - 1, p.2) = false ∨ is_floor g (p.1 + 1, p.2) = false) →
  ∃ vis', BoxStuck (S n) g p.1 p.2 h ∅ = Some (true, vis').
Proof.
  intros [Hp1 Hp2] Hwall. cbn [BoxStuck].
  case_decide as Hin; [set_solver|].
  unfold BoxStuck_neighbours.
  destruct h; rewrite !to_MazeInt_small by lia; rewrite !CheckFloor_pure by done.
  - destruct (is_floor g (p.1, p.2 - 1)) eqn:E1; cbn [negb mbind option_bind].
    + destruct Hwall as [?|Hwall]; [done|]. rewrite Hwall. cbn [negb mbind option_bind].
      eauto.
    + eauto.
  - destruct (is_floor g (p.1 - 1, p.2)) eqn:E1; cbn [negb mbind option_bind].
    + destruct Hwall as [?|Hwall]; [done|]. rewrite Hwall. cbn [negb mbind option_bind].
      eauto.
    + eauto.
Qed.

Lemma WallStuck_run_total fuel along beside p step counts :
  (∀ q, is_floor g (along q) = true → 0 ≤ q < 125) →
  step = 1 ∨ step = -1 → -1 ≤ p ≤ 125 →
  (if step =? 1 then 126 - p else p + 2) ≤ Z.of_nat fuel →
  is_Some (WallStuck_run fuel g along beside p step counts).
Proof.
  intros Halong Hstep. revert p counts.
  induction fuel as [|n IH]; intros p counts Hp Hfuel.
  { destruct Hstep as [-> | ->]; simpl in Hfuel; lia. }
  cbn [WallStuck_run]. rewrite CheckFloor_pure' by done. cbn [mbind option_bind].
  destruct (is_floor g (along p)) eqn:Efl; cbn [negb]; [|eauto].
  rewrite CheckFloor_pure by done. cbn [mbind option_bind].
  destruct (is_floor g (to_MazeInt (beside p).1, to_MazeInt (beside p).2)); [eauto|].
  rewrite maze_cell by by apply is_floor_in_grid. cbn [mbind option_bind].
  apply Halong in Efl.
  rewrite (to_MazeInt_small (p + step)) by (destruct Hstep as [-> | ->]; lia).
  apply IH; destruct Hstep as [-> | ->]; simpl in *; lia.
Qed.

Lemma WallStuck_total p side : in_grid g p → is_Some (WallStuck g p.1 p.2 side).
Proof.
  intros Hp. unfold WallStuck.
  assert (256 ≤ Z.of_nat MazeInt_range) as Hrange by (vm_compute; congruence).
  revert Hrange. generalize MazeInt_range. intros fuel Hfuel.
  rewrite maze_cell by done. cbn [mbind option_bind].
  pose proof Hp as [Hp1 Hp2].
  rewrite !to_MazeInt_small by (destruct (negb _); lia).
  assert (∀ along beside start counts,
            (∀ q, is_floor g (along q) = true → 0 ≤ q < 125) → 0 ≤ start < 125 →
            is_Some
              (r1 ← WallStuck_run fuel g along beside (start - 1) (-1) counts;
               match r1 with
               | None => Some false
               | Some counts =>
                   r2 ← WallStuck_run fuel g along beside (start + 1) 1 counts;
                   match r2 with
                   | None => Some false
                   | Some (box_count, goal_count) => Some (goal_count <? box_count)
                   end
               end)) as Hruns.
  { intros along beside start counts Halong Hstart.
    destruct (WallStuck_run_total fuel along beside (start - 1) (-1) counts)
      as [r1 ->]; [done|by right|lia|cbn; lia|].
    cbn [mbind option_bind]. destruct r1 as [counts1|]; [|eauto].
    destruct (WallStuck_run_total fuel along beside (start + 1) 1 counts1)
      as [r2 ->]; [done|by left|lia|cbn; lia|].
    cbn [mbind option_bind]. destruct r2 as [[? ?]|]; eauto. }
  destruct (negb ((Movement side).1 =? 0)).
  - apply Hruns; [|lia]. intros q [_ ?]%is_floor_in_grid. cbn [fst snd] in *. lia.
  - apply Hruns; [|lia]. intros q [? _]%is_floor_in_grid. cbn [fst snd] in *. lia.
Qed.

Lemma CanPushAny_total fuel p vis :
  in_grid g p → vis ⊆ grid_cells g →
  (size (grid_cells g) < fuel + size vis)%nat →
  ∃ r vis', CanPushAny fuel g p.1 p.2 vis = Some (r, vis') ∧
    vis ⊆ vis' ∧ vis' ⊆ grid_cells g.
Proof.
  revert p vis. induction fuel as [|n IH]; intros p vis Hp Hvis Hfuel.
  { pose proof (subseteq_size _ _ Hvis). simpl in Hfuel. lia. }
  cbn [CanPushAny]. replace (p.1, p.2) with p by by destruct p.
  case_decide as Hin; [by eexists _, _|].
  assert (size (vis ∪ {[p]}) = S (size vis)) as Hsize.
  { rewrite size_union by set_solver. rewrite size_singleton. lia. }
  edestruct (foldM_invariant
    (λ (_ : list Z) (acc : bool * gset Pos),
       vis ∪ {[p]} ⊆ acc.2 ∧ acc.2 ⊆ grid_cells g))
    as ([r v] & Hfold & Hsub1 & Hsub2); [| |rewrite Hfold].
  - simpl. split; [done|]. apply union_least; [done|].
    apply singleton_subseteq_l. by apply elem_of_grid_cells.
  - intros done d rest [ret v] Hl [Hv1 Hv2]. simpl in Hv1, Hv2.
    assert (d ∈ AllDirections) as Hd by (unfold AllDirections; rewrite Hl; set_solver).
    rewrite CheckDirection_nopush by (done || lia). cbn [mbind option_bind].
    destruct (step_MazeInt g p d ltac:(lia) ltac:(lia) Hp Hd) as [-> ->].
    destruct (is_floor g (step p d) && negb (set_count (step p d) (BoxPos g))) eqn:Efree.
    + destruct ret; [by eexists (_, _)|].
      apply andb_true_iff in Efree as [Hfl%is_floor_in_grid _].
      destruct (IH (step p d) v Hfl Hv2) as (r' & v' & -> & Hv' & Hv'').
      { pose proof (subseteq_size _ _ Hv1). lia. }
      exists (r', v'). split; [done|]. simpl. split; [set_solver|done].
    + destruct ret; [by eexists (_, _)|].
      rewrite CheckDirection_push by (done || lia). cbn [mbind option_bind].
      by eexists (_, _).
  - simpl in *. exists r, v. split; [done|]. split; [set_solver|done].
Qed.

Lemma CheckFailed_box_total b : in_grid g b → is_Some (CheckFailed_box g b).
Proof.
  intros Hb. unfold CheckFailed_box.
  assert (∀ h, ∃ r v, BoxStuck (BoxStuck_fuel g) g b.1 b.2 h ∅ = Some (r, v)) as Hstuck.
  { intros h. destruct (BoxStuck_total (BoxStuck_fuel g) b h ∅) as (r & v & ? & _);
      [done|set_solver| |eauto].
    pose proof (size_grid_axes g). unfold BoxStuck_fuel. rewrite size_empty. lia. }
  destruct (Hstuck false) as (sv & ? & ->). destruct (Hstuck true) as (sh & ? & ->).
  cbn [mbind option_bind]. rewrite maze_cell by done. cbn [mbind option_bind].
  destruct (_ =? _); [eauto|]. destruct (sv && sh); [eauto|].
  assert (∀ q1 q2 side1 side2,
            is_Some
              (f1 ← CheckFloor g q1.1 q1.2;
               s1 ← (if negb f1 then WallStuck g b.1 b.2 side1 else Some false);
               f2 ← CheckFloor g q2.1 q2.2;
               if negb f2 then (if (s1 : bool) then Some true else WallStuck g b.1 b.2 side2)
               else Some s1)) as Hwall.
  { intros q1 q2 side1 side2. rewrite !CheckFloor_pure' by done.
    cbn [mbind option_bind].
    assert (∃ s1, (if negb (is_floor g q1) then WallStuck g b.1 b.2 side1 else Some false)
                  = Some s1) as [s1 ->].
    { destruct (negb _); [by apply WallStuck_total|eauto]. }
    cbn [mbind option_bind].
    destruct (negb _); [|eauto]. destruct s1; [eauto|]. by apply WallStuck_total. }
  assert (∃ v, (if sv
                then
                  f1 ← CheckFloor g (to_MazeInt (b.1 - 1)) b.2;
                  s1 ← (if negb f1 then WallStuck g b.1 b.2 Down else Some false);
                  f2 ← CheckFloor g (to_MazeInt (b.1 + 1)) b.2;
                  if negb f2
                  then (if (s1 : bool) then Some true else WallStuck g b.1 b.2 Up)
                  else Some s1
                else Some false) = Some v) as [v ->].
  { destruct sv; [|eauto].
    apply (Hwall (to_MazeInt (b.1 - 1), b.2) (to_MazeInt (b.1 + 1), b.2)). }
  cbn [mbind option_bind]. destruct v; [eauto|]. destruct sh; [|eauto].
  apply (Hwall (b.1, to_MazeInt (b.2 - 1)) (b.1, to_MazeInt (b.2 + 1))).
Qed.

Lemma CheckFailed_total :
  Forall (in_grid g) (BoxPos g) → in_grid g (PlayerPos g) → is_Some (CheckFailed g).
Proof.
  intros Hboxes Hplayer. unfold CheckFailed.
  destruct (_ =? _); [eauto|]. destruct (_ =? _); [eauto|].
  destruct (foldM_invariant (λ _ (_ : bool), True)
              (λ (found : bool) b, if found then Some true else CheckFailed_box g b)
              (BoxPos g) false) as (found & -> & _); [done| |].
  { intros done b rest found Hl _. destruct found; [eauto|].
    destruct (CheckFailed_box_total b) as [r ->]; [|eauto].
    rewrite Forall_forall in Hboxes. apply Hboxes. rewrite Hl. set_solver. }
  cbn [mbind option_bind]. destruct found; [eauto|].
  destruct (CanPushAny_total (CanPushAny_fuel g) (PlayerPos g) ∅) as (r & v & -> & _);
    [done|set_solver| |by eauto].
  pose proof (size_grid_cells g). unfold CanPushAny_fuel. rewrite size_empty. lia.
Qed.

(** A box that is not on a goal and has a wall (or the edge of the grid)
    next to it on both axes makes [CheckFailed] answer [true]. *)
Lemma CheckFailed_corner b failed :
  b ∈ BoxPos g → in_grid g b → set_count b (GoalPos g) = false →
  to_size_t (Finished g) ≠ Z.of_nat (length (BoxPos0 g)) →
  is_floor g (b.1 - 1, b.2) = false ∨ is_floor g (b.1 + 1, b.2) = false →
  is_floor g (b.1, b.2 - 1) = false ∨ is_floor g (b.1, b.2 + 1) = false →
  CheckFailed g = Some failed → failed = true.
Proof.
  intros Hb Hin Hgoal Hfin Hvert Hhoriz. unfold CheckFailed.
  replace (to_size_t (Finished g) =? Z.of_nat (length (BoxPos0 g))) with false
    by (symmetry; by apply Z.eqb_neq).
  destruct (Directions g =? 0); [congruence|].
  assert (CheckFailed_box g b = Some true) as Hbox.
  { unfold CheckFailed_box, BoxStuck_fuel.
    destruct (BoxStuck_wall (2 * (Z.to_nat (Height g) * Z.to_nat (Width g))) b false Hin Hvert)
      as [? ->].
    destruct (BoxStuck_wall (2 * (Z.to_nat (Height g) * Z.to_nat (Width g))) b true Hin Hhoriz)
      as [? ->].
    cbn [mbind option_bind]. rewrite maze_cell by done. cbn [mbind option_bind].
    unfold cell_value. rewrite Hgoal.
    by destruct (0 <=? floor_index g b), (set_count b (BoxPos g)),
      (pos_eqb b (PlayerPos g)). }
  assert (∀ l found r,
            foldM (λ (found : bool) b, if found then Some true else CheckFailed_box g b)
              found l = Some r →
            found = true ∨ b ∈ l → r = true) as Hloop.
  { induction l as [|b' l IH]; intros found r Hr Hcase; simpl in Hr.
    - destruct Hcase as [-> | ?]; [congruence | set_solver].
    - destruct found; simpl in Hr; [by apply (IH true); [|left]|].
      destruct Hcase as [? | [-> | Hl]%elem_of_cons]; [done| |].
      + rewrite Hbox in Hr. simpl in Hr. by apply (IH true); [|left].
      + destruct (CheckFailed_box g b') as [found'|]; simpl in Hr; [|done].
        by apply (IH found'); [|right]. }
  destruct (foldM _ false (BoxPos g)) as [found|] eqn:Efold; cbn [mbind option_bind]; [|done].
  rewrite (Hloop _ _ _ Efold) by by right. congruence.
Qed.

End Termination.

(** ** [UpdateData] establishes the invariant *)

Section Operations.
Variable StateBits : N.

Lemma UpdateData_spec g :
  wf_layout StateBits g → wf_position g →
  ∃ g', UpdateData StateBits g = Some g' ∧ invariant StateBits g' ∧ same_frame g g'.
Proof.
  intros Hlay Hpos.
  destruct (UpdateData_unfold StateBits g Hlay Hpos) as (maze & dirs & Heq & Hmaze & Hr & Hd).
  pose proof (wf_Height _ _ Hlay) as Hh. pose proof (wf_Width _ _ Hlay) as Hw.
  destruct (CheckFailed_total (derived g maze dirs (Failed g))) as [failed Hfailed].
  - apply (wf_FloorIndex _ _ Hlay).
  - apply Hmaze.
  - simpl. lia.
  - simpl. lia.
  - simpl. eapply Forall_impl; [apply (wf_BoxPos_floor _ Hpos)|].
    intros b Hb. by apply (is_floor_in_grid g).
  - apply (is_floor_in_grid g), (wf_PlayerPos _ Hpos).
  - exists (derived g maze dirs failed). rewrite Heq, Hfailed. split; [done|].
    split; [|by repeat split].
    split; [|split].
    + destruct Hlay. by constructor.
    + destruct Hpos. by constructor.
    + constructor; [apply Hmaze|done|done|done|done|done|by exists (Failed g)].
Qed.

Lemma Restart_spec g :
  invariant StateBits g →
  ∃ g', Restart StateBits g = Some g' ∧ invariant StateBits g' ∧
    Height g' = Height g ∧ Width g' = Width g ∧ FloorBits g' = FloorBits g ∧
    FloorIndex g' = FloorIndex g ∧ GoalPos g' = GoalPos g ∧ BoxPos0 g' = BoxPos0 g ∧
    PlayerPos0 g' = PlayerPos0 g ∧ PlayerPos g' = PlayerPos0 g ∧ BoxPos g' = BoxPos0 g ∧
    TimeElapsed g' = 0 ∧ StateHistory g' = ∅.
Proof.
  intros (Hlay & Hpos & Hcons). unfold Restart, DoRestart.
  edestruct UpdateData_spec as (g' & -> & Hinv & Hframe).
  - destruct Hlay. constructor; simpl; done.
  - destruct Hlay. constructor; simpl; done.
  - exists g'. split; [done|]. split; [done|]. unfold same_frame in Hframe. simpl in Hframe.
    tauto.
Qed.

(** A direction whose movement vector is not on the diagonal is one of the
    four unit directions. *)
Lemma Movement_unit d :
  ((Movement d).1 =? (Movement d).2) = false → d ∈ AllDirections.
Proof.
  unfold Movement, AllDirections.
  destruct (d =? Up) eqn:E1; [apply Z.eqb_eq in E1; set_solver|].
  destruct (d =? Left) eqn:E2; [apply Z.eqb_eq in E2; set_solver|].
  destruct (d =? Right) eqn:E3; [apply Z.eqb_eq in E3; set_solver|].
  destruct (d =? Down) eqn:E4; [apply Z.eqb_eq in E4; set_solver|].
  simpl. done.
Qed.

Lemma Movement_other d :
  d ≠ Up → d ≠ Left → d ≠ Right → d ≠ Down → Movement d = (0, 0).
Proof.
  intros H1 H2 H3 H4. unfold Movement.
  by rewrite (proj2 (Z.eqb_neq d Up)), (proj2 (Z.eqb_neq d Left)),
    (proj2 (Z.eqb_neq d Right)), (proj2 (Z.eqb_neq d Down)).
Qed.

Lemma Move_accepted g d :
  invariant StateBits g →
  Z.land (Directions g) d ≠ 0 → ((Movement d).1 =? (Movement d).2) = false →
  ∃ g', Move StateBits g d = Some (g', set_count (step (PlayerPos g) d) (BoxPos g)) ∧
    invariant StateBits g' ∧
    Height g' = Height g ∧ Width g' = Width g ∧ FloorBits g' = FloorBits g ∧
    FloorIndex g' = FloorIndex g ∧ GoalPos g' = GoalPos g ∧ BoxPos0 g' = BoxPos0 g ∧
    PlayerPos0 g' = PlayerPos0 g ∧ PlayerPos g' = step (PlayerPos g) d ∧
    BoxPos g' = moved_boxes g d ∧
    TimeElapsed g' = to_TimeInt (TimeElapsed g + 1) ∧
    StateHistory g' = StateHistory g ∪ {[State g]}.
Proof.
  intros (Hlay & Hpos & Hcons) Hdir Hmov.
  pose proof (Movement_unit d Hmov) as Hd.
  pose proof (proj1 (c_Directions _ Hcons d Hd) Hdir) as Hlegal.
  pose proof (wf_Height _ _ Hlay) as Hh. pose proof (wf_Width _ _ Hlay) as Hw.
  unfold legal in Hlegal. apply andb_true_iff in Hlegal as [Hdest Hbeyond].
  pose proof (is_floor_in_grid _ _ (wf_PlayerPos _ Hpos)) as Hplayer.
  destruct (step_MazeInt g (PlayerPos g) d ltac:(lia) ltac:(lia) Hplayer Hd) as [Hs1 Hs2].
  unfold Move, DoMove.
  replace (Z.land (Directions g) d =? 0) with false by (symmetry; by apply Z.eqb_neq).
  rewrite Hmov. cbv zeta. rewrite Hs1, Hs2.
  replace ((step (PlayerPos g) d).1, (step (PlayerPos g) d).2) with (step (PlayerPos g) d)
    by by destruct (step (PlayerPos g) d).
  destruct (step_MazeInt g (step (PlayerPos g) d) d ltac:(lia) ltac:(lia)
              (is_floor_in_grid _ _ Hdest) Hd) as [-> ->].
  replace ((step (step (PlayerPos g) d) d).1, (step (step (PlayerPos g) d) d).2)
    with (step (step (PlayerPos g) d) d) by by destruct (step (step (PlayerPos g) d) d).
  fold (moved_boxes g d).
  edestruct UpdateData_spec as (g' & -> & Hinv & Hframe).
  - destruct Hlay. constructor; simpl; done.
  - constructor; simpl.
    + done.
    + unfold moved_boxes. destruct (set_count _ _); [|apply (wf_BoxPos_set _ Hpos)].
      apply is_set_insert, is_set_erase, (wf_BoxPos_set _ Hpos).
    + unfold moved_boxes. destruct (set_count _ _) eqn:Ebox; [|apply (wf_BoxPos_floor _ Hpos)].
      simpl in Hbeyond. apply andb_true_iff in Hbeyond as [Hfl _].
      apply Forall_forall. intros b [-> | Hb]%elem_of_set_insert; [done|].
      apply elem_of_set_erase in Hb as [_ Hb]; [|apply (wf_BoxPos_set _ Hpos)].
      pose proof (wf_BoxPos_floor _ Hpos) as Hall. rewrite Forall_forall in Hall.
      by apply Hall.
    + rewrite <- (wf_BoxPos_length _ Hpos). unfold moved_boxes.
      destruct (set_count _ _) eqn:Ebox; [|done].
      simpl in Hbeyond. apply andb_true_iff in Hbeyond as [_ Hfree].
      apply negb_true_iff, set_count_false in Hfree.
      rewrite set_insert_length_new.
      * apply set_erase_length. by apply set_count_true.
      * intros [_ ?]%elem_of_set_erase; [done|apply (wf_BoxPos_set _ Hpos)].
  - exists g'. split; [done|]. split; [done|]. unfold same_frame in Hframe.
    simpl in Hframe. tauto.
Qed.

(** [Move] and [Restart] are defined on every state that satisfies the
    invariant, and keep it. *)
Lemma Move_invariant g d :
  invariant StateBits g →
  ∃ g' pushed, Move StateBits g d = Some (g', pushed) ∧ invariant StateBits g'.
Proof.
  intros Hinv.
  destruct (Z.land (Directions g) d =? 0) eqn:E1.
  { exists g, false. unfold Move, DoMove. by rewrite E1. }
  destruct ((Movement d).1 =? (Movement d).2) eqn:E2.
  { exists g, false. unfold Move, DoMove. by rewrite E1, E2. }
  apply Z.eqb_neq in E1.
  destruct (Move_accepted g d Hinv E1 E2) as (g' & Hm & Hinv' & _). eauto.
Qed.

Lemma Move_preserves g d g' pushed :
  invariant StateBits g → Move StateBits g d = Some (g', pushed) → invariant StateBits g'.
Proof.
  intros Hinv Hm. destruct (Move_invariant g d Hinv) as (g'' & p' & Hm' & Hinv').
  congruence.
Qed.

Lemma Restart_preserves g g' :
  invariant StateBits g → Restart StateBits g = Some g' → invariant StateBits g'.
Proof.
  intros Hinv Hr. destruct (Restart_spec g Hinv) as (g'' & Hr' & Hinv' & _). congruence.
Qed.

End Operations.

(** ** The scanning loop of the constructor *)

Lemma Scan_step_normal_eq s c : scan_ok s → Scan_step s c = Scan_step_normal s c.
Proof.
  intros Hs. pose proof (so_line _ Hs). pose proof (so_col _ Hs).
  pose proof (so_Width _ Hs). pose proof (so_Height _ Hs) as HH.
  unfold Scan_step, Scan_step_normal, is_carriage_return, is_newline.
  destruct (Ascii.eqb c carriage_return) eqn:Ecr; [done|].
  destruct (Ascii.eqb c newline) eqn:Enl.
  { rewrite !to_MazeInt_small by lia. rewrite HH.
    replace (sc_line s + 1 <=? sc_line s + 1) with true by (symmetry; apply Z.leb_le; lia).
    destruct (124 <=? sc_line s) eqn:E.
    - apply Z.leb_le in E. by replace (125 <=? sc_line s + 1) with true
        by (symmetry; apply Z.leb_le; lia).
    - apply Z.leb_gt in E. replace (125 <=? sc_line s + 1) with false
        by (symmetry; apply Z.leb_gt; lia).
      do 2 f_equal. lia. }
  rewrite !to_MazeInt_small by lia.
  destruct (124 <=? sc_col s) eqn:E.
  { apply Z.leb_le in E. by replace (125 <=? sc_col s + 1) with true
      by (symmetry; apply Z.leb_le; lia). }
  apply Z.leb_gt in E.
  replace (125 <=? sc_col s + 1) with false by (symmetry; apply Z.leb_gt; lia).
  assert ((if sc_Width s <=? sc_col s + 1 then sc_col s + 1 + 1
           else sc_Width s) = Z.max (sc_Width s) (sc_col s + 2)) as ->.
  { destruct (sc_Width s <=? sc_col s + 1) eqn:Ew.
    - apply Z.leb_le in Ew. lia.
    - apply Z.leb_gt in Ew. lia. }
  unfold Scan_cell, is_floor_char, is_goal_char, is_box_char, is_player_char, has_player.
  cbn [sc_line sc_col sc_Height sc_Width sc_PlayerPos0 sc_floor sc_GoalPos sc_BoxPos0].
  destruct (Ascii.eqb c ".") eqn:E1; [apply Ascii.eqb_eq in E1; subst c; done|].
  destruct (Ascii.eqb c "*") eqn:E2.
  { apply Ascii.eqb_eq in E2; subst c. simpl. by destruct (0 <=? _). }
  destruct (Ascii.eqb c "$") eqn:E3; [apply Ascii.eqb_eq in E3; subst c; done|].
  destruct (Ascii.eqb c "&") eqn:E4; [apply Ascii.eqb_eq in E4; subst c; done|].
  destruct (Ascii.eqb c "+") eqn:E5.
  { apply Ascii.eqb_eq in E5; subst c. simpl. by destruct (0 <=? _). }
  destruct (Ascii.eqb c "@") eqn:E6; [apply Ascii.eqb_eq in E6; subst c; done|].
  simpl. by destruct s.
Qed.

Lemma is_box_floor_char c : is_box_char c = true → is_floor_char c = true.
Proof. unfold is_floor_char. intros ->. by rewrite !orb_true_r. Qed.

Lemma is_goal_floor_char c : is_goal_char c = true → is_floor_char c = true.
Proof. unfold is_floor_char. intros ->. by rewrite !orb_true_r. Qed.

Lemma is_player_floor_char c : is_player_char c = true → is_floor_char c = true.
Proof. unfold is_floor_char. intros ->. by rewrite !orb_true_r. Qed.

Lemma scan_ok_has_player s :
  scan_ok s → has_player s = true ↔ sc_PlayerPos0 s ∈ sc_floor s.
Proof.
  intros Hs. unfold has_player. split.
  - intros Hp. destruct (so_player _ Hs) as [Heq|?]; [|done].
    rewrite Heq in Hp. done.
  - intros Hp. apply (so_floor _ Hs) in Hp. apply Z.leb_le. lia.
Qed.

Lemma scan_ok_here_fresh s : scan_ok s → (sc_line s, sc_col s + 1) ∉ sc_floor s.
Proof. intros Hs Hin. apply (so_floor _ Hs) in Hin. simpl in Hin. lia. Qed.

Lemma Scan_step_ok s c s' : scan_ok s → Scan_step_normal s c = inr s' → scan_ok s'.
Proof.
  intros Hs. pose proof (so_line _ Hs). pose proof (so_col _ Hs).
  pose proof (so_Width _ Hs). pose proof (so_Height _ Hs). pose proof (so_count _ Hs).
  unfold Scan_step_normal.
  destruct (is_carriage_return c); [by intros [= <-]|].
  destruct (is_newline c).
  { destruct (124 <=? sc_line s) eqn:E; [done|]. apply Z.leb_gt in E. intros [= <-].
    constructor; simpl; try lia; try apply Hs.
    intros p Hp. apply (so_floor _ Hs) in Hp. lia. }
  destruct (124 <=? sc_col s) eqn:E; [done|]. apply Z.leb_gt in E.
  destruct (is_player_char c && has_player s) eqn:Epl; [done|]. intros [= <-].
  assert (∀ p, p ∈ sc_floor s ++ [(sc_line s, sc_col s + 1)] →
            0 ≤ p.1 ∧ 0 ≤ p.2 < Z.max (sc_Width s) (sc_col s + 2)
            ∧ (p.1 < sc_line s ∨ p.1 = sc_line s ∧ p.2 ≤ sc_col s + 1)) as Hfloor.
  { intros p [Hp | ->%list_elem_of_singleton]%elem_of_app; [|simpl; lia].
    apply (so_floor _ Hs) in Hp. lia. }
  constructor; simpl; try lia.
  - intros p Hp. destruct (is_floor_char c); [by apply Hfloor|].
    apply (so_floor _ Hs) in Hp. lia.
  - destruct (is_box_char c); [apply is_set_insert|]; apply Hs.
  - destruct (is_goal_char c); [apply is_set_insert|]; apply Hs.
  - intros p Hp. destruct (is_box_char c) eqn:Ec.
    + rewrite is_box_floor_char by done.
      apply elem_of_set_insert in Hp as [-> | Hp]; [set_solver|].
      apply elem_of_app. left. by apply (so_boxes _ Hs).
    + apply (so_boxes _ Hs) in Hp. destruct (is_floor_char c); set_solver.
  - intros p Hp. destruct (is_goal_char c) eqn:Ec.
    + rewrite is_goal_floor_char by done.
      apply elem_of_set_insert in Hp as [-> | Hp]; [set_solver|].
      apply elem_of_app. left. by apply (so_goals _ Hs).
    + apply (so_goals _ Hs) in Hp. destruct (is_floor_char c); set_solver.
  - destruct (is_player_char c) eqn:Ec.
    + rewrite is_player_floor_char by done. right. set_solver.
    + destruct (so_player _ Hs) as [?|?]; [by left|right].
      destruct (is_floor_char c); set_solver.
  - destruct (is_floor_char c); [rewrite length_app; simpl|]; lia.
Qed.

Lemma width_from_ge cur w text : w ≤ width_from cur w text.
Proof.
  revert cur w. induction text as [|c text IH]; intros cur w; simpl; [lia|].
  destruct (is_carriage_return c); [apply IH|].
  destruct (is_newline c); [apply IH|].
  etrans; [|apply IH]. lia.
Qed.

Lemma Scan_loop_spec text s :
  scan_ok s →
  match Scan_loop s text with
  | inl _ =>
      124 < sc_line s + count_chars is_newline text ∨
      125 < width_from (sc_col s + 1) (sc_Width s) text ∨
      1 < player_flag s + player_count text
  | inr s' =>
      scan_ok s' ∧
      sc_line s' = sc_line s + count_chars is_newline text ∧
      sc_Width s' = width_from (sc_col s + 1) (sc_Width s) text ∧
      player_flag s' = player_flag s + player_count text ∧
      Z.of_nat (length (sc_floor s')) = Z.of_nat (length (sc_floor s)) + floor_count text ∧
      Z.of_nat (length (sc_BoxPos0 s')) = Z.of_nat (length (sc_BoxPos0 s)) + box_count text ∧
      Z.of_nat (length (sc_GoalPos s')) = Z.of_nat (length (sc_GoalPos s)) + goal_count text
  end.
Proof.
  revert s. induction text as [|c text IH]; intros s Hs.
  { simpl. unfold player_count, floor_count, box_count, goal_count. simpl.
    split_and!; (done || lia). }
  cbn [Scan_loop]. rewrite Scan_step_normal_eq by done.
  pose proof (Scan_step_ok s c) as Hok.
  pose proof (scan_ok_here_fresh s Hs) as Hfresh.
  pose proof (so_line _ Hs). pose proof (so_col _ Hs). pose proof (so_Width _ Hs).
  unfold Scan_step_normal in *.
  unfold player_count, floor_count, box_count, goal_count in *. cbn [count_chars width_from].
  assert (is_carriage_return c = true → is_newline c = false ∧ is_player_char c = false
          ∧ is_floor_char c = false ∧ is_box_char c = false ∧ is_goal_char c = false) as Hcr.
  { unfold is_carriage_return. intros ->%Ascii.eqb_eq. done. }
  assert (is_newline c = true → is_player_char c = false
          ∧ is_floor_char c = false ∧ is_box_char c = false ∧ is_goal_char c = false) as Hnl.
  { unfold is_newline. intros ->%Ascii.eqb_eq. done. }
  destruct (is_carriage_return c) eqn:Ecr.
  { destruct (Hcr eq_refl) as (-> & -> & -> & -> & ->).
    specialize (IH s Hs). destruct (Scan_loop s text); simpl; [lia|].
    destruct IH as (? & ? & ? & ? & ? & ? & ?). split_and!; (done || lia). }
  destruct (is_newline c) eqn:Enl.
  { destruct (Hnl eq_refl) as (-> & -> & -> & ->).
    destruct (124 <=? sc_line s) eqn:E.
    { apply Z.leb_le in E. left.
      assert (0 ≤ count_chars is_newline text); [|lia].
      clear. induction text as [|c text IH]; simpl; [lia|]. destruct (is_newline c); lia. }
    specialize (Hok _ Hs eq_refl). specialize (IH _ Hok).
    unfold player_flag, has_player in *.
    cbn [sc_line sc_col sc_Width sc_floor sc_BoxPos0 sc_GoalPos sc_PlayerPos0] in IH.
    change (-1 + 1) with 0 in IH.
    destruct (Scan_loop _ text); [lia|].
    destruct IH as (? & ? & ? & ? & ? & ? & ?). split_and!; (done || lia). }
  destruct (124 <=? sc_col s) eqn:E.
  { apply Z.leb_le in E. right. left.
    pose proof (width_from_ge (sc_col s + 1 + 1) (Z.max (sc_Width s) (sc_col s + 1 + 1)) text).
    lia. }
  apply Z.leb_gt in E.
  destruct (is_player_char c && has_player s) eqn:Epl.
  { apply andb_true_iff in Epl as [-> Hpl]. right. right.
    unfold player_flag. rewrite Hpl.
    assert (0 ≤ count_chars is_player_char text); [|lia].
    clear. induction text as [|c text IH]; simpl; [lia|]. destruct (is_player_char c); lia. }
  specialize (Hok _ Hs eq_refl). specialize (IH _ Hok).
  assert (player_flag
            (mkScan (sc_line s) (sc_col s + 1) (sc_Height s)
               (Z.max (sc_Width s) (sc_col s + 2))
               (if is_player_char c then (sc_line s, sc_col s + 1) else sc_PlayerPos0 s)
               (if is_floor_char c then sc_floor s ++ [(sc_line s, sc_col s + 1)]
                else sc_floor s)
               (if is_goal_char c then set_insert (sc_line s, sc_col s + 1) (sc_GoalPos s)
                else sc_GoalPos s)
               (if is_box_char c then set_insert (sc_line s, sc_col s + 1) (sc_BoxPos0 s)
                else sc_BoxPos0 s))
          = player_flag s + (if is_player_char c then 1 else 0)) as Hflag.
  { unfold player_flag, has_player in *. simpl.
    destruct (is_player_char c); simpl in *; [|lia].
    rewrite Epl. replace (0 <=? sc_line s + (sc_col s + 1)) with true
      by (symmetry; apply Z.leb_le; lia). done. }
  assert (∀ l, (∀ p, p ∈ l → p ∈ sc_floor s) →
            length (set_insert (sc_line s, sc_col s + 1) l) = S (length l)) as Hins.
  { intros l Hl. apply set_insert_length_new. intros Hin. by apply Hfresh, Hl. }
  replace (sc_col s + 1 + 1) with (sc_col s + 2) by lia.
  rewrite Hflag in IH.
  cbn [sc_line sc_col sc_Width sc_floor sc_BoxPos0 sc_GoalPos sc_PlayerPos0] in IH.
  replace (sc_col s + 1 + 1) with (sc_col s + 2) in IH by lia.
  destruct (Scan_loop _ text); [lia|].
  destruct IH as (? & ? & ? & ? & Hf & Hb & Hg).
  split; [done|]. split; [lia|]. split; [done|]. split; [lia|].
    split; [|split].
    + rewrite Hf. destruct (is_floor_char c); [rewrite length_app; simpl|]; lia.
    + rewrite Hb. destruct (is_box_char c); [rewrite Hins by apply Hs|]; lia.
    + rewrite Hg. destruct (is_goal_char c); [rewrite Hins by apply Hs|]; lia.
Qed.

Lemma count_chars_nonneg P text : 0 ≤ count_chars P text.
Proof. induction text as [|c text IH]; simpl; [lia|]. destruct (P c); lia. Qed.

Lemma maze_rows_count text : maze_rows text = 1 + count_chars is_newline text.
Proof.
  unfold maze_rows. induction text as [|c text IH]; simpl; [done|].
  pose proof (count_chars_nonneg is_newline text).
  destruct (is_newline c); simpl; [lia|].
  destruct (maze_lines text) as [|row rows]; simpl in *; lia.
Qed.

Lemma row_cells_cons c row :
  row_cells (c :: row) = (if negb (is_carriage_return c) then 1 else 0) + row_cells row.
Proof. done. Qed.

Lemma row_cells_nonneg row : 0 ≤ row_cells row.
Proof. apply count_chars_nonneg. Qed.

Lemma width_from_lines cur w text :
  0 ≤ cur ≤ w →
  width_from cur w text
  = Z.max w
      match maze_lines text with
      | row :: rows => Z.max (cur + row_cells row) (foldr Z.max 0 (map row_cells rows))
      | [] => 0
      end.
Proof.
  revert cur w. induction text as [|c text IH]; intros cur w Hcur; simpl.
  { change (row_cells []) with 0. lia. }
  pose proof (maze_rows_count text) as Hrows. unfold maze_rows in Hrows.
  pose proof (count_chars_nonneg is_newline text).
  destruct (is_carriage_return c) eqn:Ecr.
  { assert (is_newline c = false) as ->.
    { unfold is_carriage_return in Ecr. apply Ascii.eqb_eq in Ecr. by subst. }
    rewrite IH by done. destruct (maze_lines text) as [|row rows]; [simpl in *; lia|].
    rewrite row_cells_cons, Ecr. simpl. done. }
  destruct (is_newline c) eqn:Enl.
  { rewrite IH by lia. destruct (maze_lines text) as [|row rows]; [simpl in *; lia|].
    change (row_cells []) with 0. simpl.
    pose proof (row_cells_nonneg row). lia. }
  rewrite IH by lia. destruct (maze_lines text) as [|row rows]; [simpl in *; lia|].
  rewrite row_cells_cons, Ecr. simpl.
  pose proof (row_cells_nonneg row). lia.
Qed.

Lemma maze_cols_width text : maze_cols text = width_from 0 0 text.
Proof.
  rewrite width_from_lines by lia. unfold maze_cols.
  pose proof (maze_rows_count text) as Hrows. unfold maze_rows in Hrows.
  pose proof (count_chars_nonneg is_newline text).
  destruct (maze_lines text) as [|row rows]; [simpl in *; lia|]. simpl.
  pose proof (row_cells_nonneg row). lia.
Qed.

(** ** The field width *)

Lemma bit_length_log2_up n : 1 ≤ n → bit_length (n - 1) = Z.log2_up n.
Proof.
  intros Hn. unfold bit_length, Z.log2_up.
  destruct (Z.compare_spec 1 n) as [<- | Hlt | Hgt].
  - done.
  - replace (n - 1 =? 0) with false by (symmetry; apply Z.eqb_neq; lia).
    unfold Z.succ, Z.pred. done.
  - lia.
Qed.

Lemma bit_length_range m : 0 ≤ m → 0 ≤ bit_length m ∧ m < 2 ^ bit_length m.
Proof.
  intros Hm. unfold bit_length. destruct (m =? 0) eqn:E.
  - apply Z.eqb_eq in E. subst. simpl. lia.
  - apply Z.eqb_neq in E. pose proof (Z.log2_nonneg m).
    pose proof (Z.log2_spec m ltac:(lia)). unfold Z.succ in *. lia.
Qed.

Lemma bit_length_le m k : 0 ≤ m < 2 ^ k → 0 ≤ k → bit_length m ≤ k.
Proof.
  intros Hm Hk. unfold bit_length. destruct (m =? 0) eqn:E; [lia|].
  apply Z.eqb_neq in E. assert (Z.log2 m < k); [|lia].
  apply Z.log2_lt_pow2; lia.
Qed.

Lemma FloorBits_loop_spec fuel m acc :
  0 ≤ m < 2 ^ (Z.of_nat fuel - 1) → 0 ≤ acc → acc + Z.of_nat fuel ≤ 128 →
  FloorBits_loop fuel m acc = Some (acc + bit_length m).
Proof.
  revert m acc. induction fuel as [|n IH]; intros m acc Hm Hacc Hfuel.
  { simpl in Hm. lia. }
  cbn [FloorBits_loop]. unfold bit_length. destruct (m =? 0) eqn:E; [f_equal; lia|].
  apply Z.eqb_neq in E.
  replace (Z.of_nat (S n) - 1) with (Z.of_nat n) in Hm by lia.
  assert (1 ≤ Z.of_nat n) as Hn.
  { destruct n; [simpl in Hm; lia|lia]. }
  rewrite to_BitsInt_small by lia.
  rewrite IH; [|rewrite Z.shiftr_div_pow2 by lia|lia|lia].
  - f_equal. unfold bit_length.
    destruct (decide (m = 1)) as [->|Hm1].
    { change (Z.shiftr 1 1) with 0. change (Z.log2 1) with 0. simpl. lia. }
    assert (Z.shiftr m 1 ≠ 0) as Hne.
    { rewrite Z.shiftr_div_pow2 by lia. change (2 ^ 1) with 2.
      pose proof (Z.div_le_lower_bound m 2 1). lia. }
    replace (Z.shiftr m 1 =? 0) with false by (symmetry; by apply Z.eqb_neq).
    rewrite Z.log2_shiftr by lia.
    assert (1 ≤ Z.log2 m) by (apply Z.log2_le_pow2; simpl; lia). lia.
  - change (2 ^ 1) with 2. split; [apply Z.div_pos; lia|].
    apply Z.div_lt_upper_bound; [lia|].
    replace (Z.of_nat n) with (1 + (Z.of_nat n - 1)) in Hm by lia.
    rewrite Z.pow_add_r in Hm by lia. simpl in Hm. lia.
Qed.

(** ** Numbering the floor cells *)

Lemma FloorIndex_fill_spec h w (floor : list Pos) :
  Forall (λ p : Pos, 0 ≤ p.1 < h ∧ 0 ≤ p.2 < w) floor →
  Z.of_nat (length floor) < 32768 →
  ∃ fi, FloorIndex_fill h w floor = Some fi ∧ dims fi h w ∧
    (∀ i j x, vec2_get fi i j = Some x → -1 ≤ x < Z.of_nat (length floor)) ∧
    (∀ p, p ∈ floor → ∃ x, vec2_get fi p.1 p.2 = Some x ∧ 0 ≤ x).
Proof.
  intros Hfloor Hlen. unfold FloorIndex_fill.
  edestruct (foldM_invariant
    (λ (done : list Pos) (acc : list (list Z) * Z),
       dims acc.1 h w ∧ acc.2 = Z.of_nat (length done) - 1 ∧
       (∀ i j x, vec2_get acc.1 i j = Some x → -1 ≤ x < Z.of_nat (length done)) ∧
       (∀ p, p ∈ done → ∃ x, vec2_get acc.1 p.1 p.2 = Some x ∧ 0 ≤ x)))
    as ([fi idx] & Hfold & Hd & _ & Hrange & Hset); [| |rewrite Hfold].
  - simpl. split; [apply dims_replicate|]. split; [done|]. split.
    + intros i j x Hx.
      destruct (vec2_get_in_dims _ _ _ _ _ _ (dims_replicate h w (-1)) Hx) as [Hi Hj].
      rewrite vec2_get_replicate in Hx by done. injection Hx as <-. lia.
    + intros p Hp. set_solver.
  - intros done p rest [fi idx] Hl (Hd & Hidx & Hrange & Hset). simpl in *. subst idx.
    rewrite Hl in Hfloor. apply Forall_app in Hfloor as [_ [Hp _]%Forall_cons].
    assert (Z.of_nat (length done) < Z.of_nat (length floor)) as Hdone.
    { rewrite Hl, length_app. simpl. lia. }
    rewrite to_SizeInt_small by lia.
    destruct (vec2_set_is_Some fi p.1 p.2 (Z.of_nat (length done) - 1 + 1)) as [fi' Hfi'].
    { destruct Hp. by apply (vec2_get_dims _ h w). }
    rewrite Hfi'. simpl. eexists (_, _). split; [done|]. simpl.
    split; [by eapply vec2_set_dims|]. split; [rewrite length_app; simpl; lia|]. split.
    + intros i j x. rewrite (vec2_get_set _ _ _ _ _ _ _ Hfi'). rewrite length_app. simpl.
      case_decide; [intros [= <-]; lia|]. intros Hx%Hrange. lia.
    + intros q Hq. rewrite (vec2_get_set _ _ _ _ _ _ _ Hfi').
      case_decide; [eexists; split; [done|lia]|].
      apply elem_of_app in Hq as [Hq | ->%list_elem_of_singleton]; [by apply Hset|].
      done.
  - simpl in *. exists fi. done.
Qed.

(** ** The constructor *)

Lemma count_chars_mono (P Q : ascii → bool) text :
  (∀ c, P c = true → Q c = true) → count_chars P text ≤ count_chars Q text.
Proof.
  intros HPQ. induction text as [|c text IH]; simpl; [lia|].
  destruct (P c) eqn:E; [rewrite (HPQ c E); lia|]. destruct (Q c); lia.
Qed.

Lemma scan_ok_init : scan_ok Scan_init.
Proof.
  constructor; simpl; try lia; try apply is_set_nil; try set_solver.
Qed.

Lemma FloorBits_value n :
  1 ≤ n ≤ 15625 →
  FloorBits_loop SizeInt_bits (to_SizeInt (to_size_t (n - 1))) 0 = Some (Z.log2_up n).
Proof.
  intros Hn. rewrite to_size_t_small by (change (2 ^ 64) with 18446744073709551616; lia).
  rewrite to_SizeInt_small by lia.
  rewrite FloorBits_loop_spec.
  - by rewrite bit_length_log2_up by lia.
  - change (2 ^ (Z.of_nat SizeInt_bits - 1)) with 65536. lia.
  - lia.
  - change (Z.of_nat SizeInt_bits) with 17. lia.
Qed.

Lemma log2_up_floor_range n :
  1 ≤ n ≤ 15625 → 0 ≤ Z.log2_up n ≤ 14 ∧ n ≤ 2 ^ Z.log2_up n.
Proof.
  intros Hn. rewrite <- bit_length_log2_up by lia.
  pose proof (bit_length_range (n - 1) ltac:(lia)).
  pose proof (bit_length_le (n - 1) 14 ltac:(change (2 ^ 14) with 16384; lia) ltac:(lia)).
  lia.
Qed.

Section Construction.
Variable StateBits : N.

(** The constructor throws exactly on the mazes the spec rejects, and
    otherwise leaves an object that satisfies the invariant, with the
    player and the boxes at their initial cells. *)
Lemma Game_new_spec maze :
  match Game_new StateBits maze with
  | Done g =>
      ¬ invalid_maze StateBits maze ∧ invariant StateBits g ∧
      PlayerPos g = PlayerPos0 g ∧ BoxPos g = BoxPos0 g ∧
      TimeElapsed g = 0 ∧ StateHistory g = ∅
  | Throws _ => invalid_maze StateBits maze
  | Undefined => False
  end.
Proof.
  unfold Game_new, invalid_maze. fold (maze_text maze).
  remember (FloorBits_loop SizeInt_bits) as loop eqn:Hloop.
  set (text := maze_text maze).
  rewrite maze_rows_count, maze_cols_width.
  pose proof (Scan_loop_spec text Scan_init scan_ok_init) as Hscan.
  change (player_flag Scan_init) with 0 in Hscan. simpl sc_line in Hscan.
  change (sc_col Scan_init + 1) with 0 in Hscan. simpl sc_Width in Hscan.
  simpl sc_floor in Hscan. simpl sc_BoxPos0 in Hscan. simpl sc_GoalPos in Hscan.
  simpl length in Hscan. change (Z.of_nat 0) with 0 in Hscan.
  rewrite !Z.add_0_l in Hscan.
  destruct (Scan_loop Scan_init text) as [e|s]; [lia|].
  destruct Hscan as (Hs & Hline & Hwidth & Hflag & Hfloor & Hboxes & Hgoals).
  pose proof (so_line _ Hs) as Hl. pose proof (so_Width _ Hs) as Hw.
  pose proof (so_col _ Hs) as Hc. pose proof (so_count _ Hs) as Hcount.
  pose proof (count_chars_mono is_box_char is_floor_char text is_box_floor_char) as Hbf.
  fold (box_count text) in Hbf. fold (floor_count text) in Hbf.
  unfold player_flag in Hflag.
  destruct (so_player _ Hs) as [Hnone | Hsome].
  { unfold has_player in Hflag. rewrite Hnone in *. simpl in *. lia. }
  pose proof (proj2 (scan_ok_has_player s Hs) Hsome) as Hhas. rewrite Hhas in Hflag.
  pose proof Hhas as Hsum. unfold has_player in Hsum. apply Z.leb_le in Hsum.
  replace ((sc_PlayerPos0 s).1 + (sc_PlayerPos0 s).2 =? -2) with false
    by (symmetry; apply Z.eqb_neq; lia).
  destruct (Nat.eqb_spec (length (sc_BoxPos0 s)) 0) as [Hb0 | Hb0].
  { rewrite Hb0 in Hboxes. simpl in Hboxes. lia. }
  destruct (Nat.ltb_spec (length (sc_GoalPos s)) (length (sc_BoxPos0 s))) as [Hgb | Hgb].
  { lia. }
  assert (1 ≤ floor_count text ≤ 15625) as Hn.
  { split; [|lia]. destruct (sc_floor s); [by apply elem_of_nil in Hsome|].
    simpl in Hfloor. lia. }
  replace (Z.of_nat (length (sc_floor s))) with (floor_count text) by lia.
  subst loop. rewrite FloorBits_value by done.
  pose proof (log2_up_floor_range _ Hn) as [Hfb Hpow].
  assert (0 ≤ Z.of_nat (length (sc_BoxPos0 s)) ≤ 15625) as Hnb by lia.
  rewrite (to_size_t_small (Z.log2_up (floor_count text)))
    by (change (2 ^ 64) with 18446744073709551616; lia).
  rewrite (to_size_t_small (Z.of_nat (length (sc_BoxPos0 s)) + 1))
    by (change (2 ^ 64) with 18446744073709551616; lia).
  rewrite to_size_t_small by (change (2 ^ 64) with 18446744073709551616; nia).
  destruct (Z.of_N StateBits <? _) eqn:Ecap.
  { apply Z.ltb_lt in Ecap. do 6 right. by rewrite <- Hboxes. }
  apply Z.ltb_ge in Ecap.
  destruct (FloorIndex_fill_spec (sc_Height s) (sc_Width s) (sc_floor s))
    as (fi & Hfi & Hd & Hrange & Hset).
  { apply Forall_forall. intros p Hp. apply (so_floor _ Hs) in Hp.
    rewrite (so_Height _ Hs). lia. }
  { lia. }
  rewrite Hfi. cbn [mbind option_bind]. unfold DoRestart.
  cbn [Succeeded Failed Directions Height Width FloorBits Finished State PlayerPos0
       BoxPos0 GoalPos Maze FloorIndex].
  assert (∀ g p, FloorIndex g = fi → Height g = sc_Height s → Width g = sc_Width s →
            p ∈ sc_floor s → is_floor g p = true) as Hisfloor.
  { intros g p Hg1 Hg2 Hg3 Hp. unfold is_floor, floor_index. rewrite Hg1, Hg2, Hg3.
    destruct (Hset p Hp) as (x & -> & Hx). apply (so_floor _ Hs) in Hp.
    rewrite (so_Height _ Hs). simpl. rewrite !andb_true_iff, !Z.leb_le, !Z.ltb_lt. lia. }
  edestruct (UpdateData_spec StateBits) as (g' & -> & Hinv & Hframe).
  - constructor; simpl.
    + rewrite (so_Height _ Hs). lia.
    + lia.
    + done.
    + done.
    + intros p. unfold floor_index. simpl.
      destruct (vec2_get fi p.1 p.2) as [x|] eqn:Ex; simpl; [apply Hrange in Ex; lia|].
      assert (0 < 2 ^ Z.log2_up (floor_count text)) by (apply Z.pow_pos_nonneg; lia). lia.
    + lia.
    + lia.
    + apply Forall_forall. intros p Hp%(so_goals _ Hs).
      apply (so_floor _ Hs) in Hp. rewrite (so_Height _ Hs). split; simpl; lia.
    + apply Hs.
    + apply Forall_forall. intros p Hp%(so_boxes _ Hs). by apply Hisfloor.
    + by apply Hisfloor.
  - constructor; simpl.
    + by apply Hisfloor.
    + apply Hs.
    + apply Forall_forall. intros p Hp%(so_boxes _ Hs). by apply Hisfloor.
    + done.
  - simpl. unfold same_frame in Hframe. simpl in Hframe.
    destruct Hframe as (_ & _ & _ & _ & _ & HB0 & HP0 & HP & HB & HT & HH).
    split; [lia|]. split; [done|]. by rewrite HB0, HP0, HP, HB, HT, HH.
Qed.

Lemma Game_new_invariant maze g :
  Game_new StateBits maze = Done g → invariant StateBits g.
Proof. intros Hg. pose proof (Game_new_spec maze) as H. rewrite Hg in H. tauto. Qed.

(** Every reachable state satisfies the invariant. *)
Lemma reachable_invariant maze g : reachable StateBits maze g → invariant StateBits g.
Proof.
  induction 1 as [g Hg | g d g' pushed _ IH Hm | g g' _ IH Hr].
  - by eapply Game_new_invariant.
  - by eapply Move_preserves.
  - by eapply Restart_preserves.
Qed.

End Construction.

(** ** Reachable states *)

Section Reachable.
Variable StateBits : N.

(** A call of [Move] either rejects the direction and changes nothing, or
    moves the player one cell and pushes the box that stands there. *)
Lemma Move_cases g d g' pushed :
  invariant StateBits g → Move StateBits g d = Some (g', pushed) →
  (g' = g ∧ pushed = false) ∨
  (d ∈ AllDirections ∧ legal g d = true ∧
   pushed = set_count (step (PlayerPos g) d) (BoxPos g) ∧
   same_layout g g' ∧ PlayerPos g' = step (PlayerPos g) d ∧
   BoxPos g' = moved_boxes g d ∧
   StateHistory g' = StateHistory g ∪ {[State g]}).
Proof.
  intros Hinv Hm.
  destruct (Z.land (Directions g) d =? 0) eqn:E1.
  { left. unfold Move, DoMove in Hm. rewrite E1 in Hm. by injection Hm as <- <-. }
  destruct ((Movement d).1 =? (Movement d).2) eqn:E2.
  { left. unfold Move, DoMove in Hm. rewrite E1, E2 in Hm. by injection Hm as <- <-. }
  apply Z.eqb_neq in E1. right.
  destruct (Move_accepted StateBits g d Hinv E1 E2)
    as (g'' & Hm' & _ & ? & ? & ? & ? & ? & ? & ? & ? & ? & ? & ?).
  rewrite Hm in Hm'. injection Hm' as <- ->.
  pose proof (Movement_unit d E2) as Hd.
  destruct Hinv as (_ & _ & Hcons).
  split; [done|]. split; [by apply (c_Directions _ Hcons)|].
  unfold same_layout. tauto.
Qed.

Lemma same_layout_refl g : same_layout g g.
Proof. by repeat split. Qed.

Lemma same_layout_trans g1 g2 g3 :
  same_layout g1 g2 → same_layout g2 g3 → same_layout g1 g3.
Proof.
  unfold same_layout. intros (? & ? & ? & ? & ? & ? & ?) (? & ? & ? & ? & ? & ? & ?).
  split_and!; congruence.
Qed.

Lemma reachable_layout maze g0 g :
  Game_new StateBits maze = Done g0 → reachable StateBits maze g → same_layout g0 g.
Proof.
  intros Hg0. induction 1 as [g Hg | g d g' pushed Hreach IH Hm | g g' Hreach IH Hr].
  - rewrite Hg0 in Hg. injection Hg as <-. apply same_layout_refl.
  - pose proof (reachable_invariant StateBits maze g Hreach) as Hinv.
    destruct (Move_cases g d g' pushed Hinv Hm) as [[-> _] | (_ & _ & _ & Hl & _)]; [done|].
    by eapply same_layout_trans.
  - pose proof (reachable_invariant StateBits maze g Hreach) as Hinv.
    destruct (Restart_spec StateBits g Hinv) as (g'' & Hr' & _ & Hl).
    rewrite Hr in Hr'. injection Hr' as <-.
    eapply same_layout_trans; [done|]. unfold same_layout. tauto.
Qed.

Lemma filter_length_lt {A} (P : A → Prop) `{∀ x, Decision (P x)} (l : list A) x :
  x ∈ l → ¬ P x → (length (filter P l) < length l)%nat.
Proof.
  induction l as [|y l IH]; intros Hx Hnot; [set_solver|].
  apply elem_of_cons in Hx as [<- | Hx].
  - rewrite filter_cons_False by done. simpl. pose proof (length_filter P l). lia.
  - specialize (IH Hx Hnot). destruct (decide (P y)).
    + rewrite filter_cons_True by done. simpl. lia.
    + rewrite filter_cons_False by done. simpl. lia.
Qed.

End Reachable.

(** * The engine: theorems *)

(** C1. For every game state and every direction value [d] that has no bit
    in common with the legal-direction mask (the sentinel [NoDirection = 0]
    included), [Move d] returns [false] and the state it leaves is the state
    it found: player, boxes, finished count, legal directions, succeeded,
    failed, encoded state, elapsed steps and visited-state history are all
    unchanged. *)
Theorem Move_illegal_direction_rejected (StateBits : N) (g : Game) (d : Z) :
  Z.land (Directions g) d = 0 → Move StateBits g d = Some (g, false).
Proof. intros Hd. unfold Move, DoMove. by rewrite Hd. Qed.

Lemma Move_illegal_direction_rejected_witness :
  Z.land (Directions corridor_game) Up = 0 ∧
  Move 64 corridor_game Up = Some (corridor_game, false) ∧
  Move 64 corridor_game NoDirection = Some (corridor_game, false).
Proof.
  split; [reflexivity|].
  split; apply Move_illegal_direction_rejected; reflexivity.
Defined.

(** C10. For every direction argument that is not one of the four unit
    values [Up = 1], [Left = 2], [Right = 4], [Down = 8], [Move] returns
    [false] and changes nothing, also when the argument shares a bit with
    the legal-direction mask: its movement vector is [(0, 0)]. *)
Theorem Move_non_unit_direction_rejected (StateBits : N) (g : Game) (d : Z) :
  d ≠ Up → d ≠ Left → d ≠ Right → d ≠ Down →
  Movement d = (0, 0) ∧ Move StateBits g d = Some (g, false).
Proof.
  intros H1 H2 H3 H4. pose proof (Movement_other d H1 H2 H3 H4) as Hmov.
  split; [done|]. unfold Move, DoMove. rewrite Hmov. simpl.
  by destruct (Z.land (Directions g) d =? 0).
Qed.

Lemma Move_non_unit_direction_rejected_witness :
  Z.land (Directions room_game) 3 ≠ 0 ∧
  Movement 3 = (0, 0) ∧ Move 64 room_game 3 = Some (room_game, false).
Proof.
  split; [vm_compute; congruence|].
  apply Move_non_unit_direction_rejected; vm_compute; congruence.
Defined.

(** C2. For every maze that constructs successfully and every sequence of
    [Move] and [Restart] calls, the initial boxes [BoxPos0] stay what the
    constructor made them and [BoxPos] keeps their number; a push that is
    accepted takes the pushed box out of its cell and puts it on the cell
    beyond, which holds no other box. *)
Theorem box_count_conserved (StateBits : N) (maze : string) (g0 g : Game) :
  Game_new StateBits maze = Done g0 →
  reachable StateBits maze g →
  BoxPos0 g = BoxPos0 g0 ∧
  length (BoxPos g) = length (BoxPos0 g0) ∧
  ∀ d g', Move StateBits g d = Some (g', true) →
    step (PlayerPos g) d ∈ BoxPos g ∧
    (step (step (PlayerPos g) d) d ∉ BoxPos g) ∧
    BoxPos g' = set_insert (step (step (PlayerPos g) d) d)
                  (set_erase (step (PlayerPos g) d) (BoxPos g)) ∧
    length (BoxPos g') = length (BoxPos g).
Proof.
  intros Hg0 Hreach.
  pose proof (reachable_invariant _ _ _ Hreach) as Hinv.
  pose proof (reachable_layout _ _ _ _ Hg0 Hreach) as (_ & _ & _ & _ & _ & HB0 & _).
  destruct Hinv as (Hlay & Hpos & Hcons).
  split; [done|]. split; [by rewrite (wf_BoxPos_length _ Hpos), HB0|].
  intros d g' Hm.
  pose proof (reach_move _ _ _ _ _ _ Hreach Hm) as Hreach'.
  destruct (reachable_invariant _ _ _ Hreach') as (_ & Hpos' & _).
  pose proof (reachable_layout _ _ _ _ Hg0 Hreach') as (_ & _ & _ & _ & _ & HB0' & _).
  destruct (Move_cases StateBits g d g' true (conj Hlay (conj Hpos Hcons)) Hm)
    as [[_ ?] | (Hd & Hlegal & Hpush & _ & _ & Hboxes & _)]; [done|].
  symmetry in Hpush. unfold moved_boxes in Hboxes. rewrite Hpush in Hboxes.
  unfold legal in Hlegal. rewrite Hpush in Hlegal. simpl in Hlegal.
  apply andb_true_iff in Hlegal as [_ [_ Hfree]%andb_true_iff].
  apply negb_true_iff, set_count_false in Hfree. apply set_count_true in Hpush.
  split; [done|]. split; [done|]. split; [done|].
  by rewrite (wf_BoxPos_length _ Hpos'), (wf_BoxPos_length _ Hpos), HB0', HB0.
Qed.

Lemma corridor_game_new : Game_new 64 corridor_maze = Done corridor_game.
Proof. vm_compute. reflexivity. Qed.

Lemma room_game_new : Game_new 64 room_maze = Done room_game.
Proof. vm_compute. reflexivity. Qed.

Lemma corner_game_new : Game_new 64 corner_maze = Done corner_game.
Proof. vm_compute. reflexivity. Qed.

Lemma box_count_conserved_witness :
  BoxPos0 corridor_game = BoxPos0 corridor_game ∧
  length (BoxPos corridor_game) = length (BoxPos0 corridor_game) ∧
  ∀ d g', Move 64 corridor_game d = Some (g', true) →
    step (PlayerPos corridor_game) d ∈ BoxPos corridor_game ∧
    (step (step (PlayerPos corridor_game) d) d ∉ BoxPos corridor_game) ∧
    BoxPos g' = set_insert (step (step (PlayerPos corridor_game) d) d)
                  (set_erase (step (PlayerPos corridor_game) d) (BoxPos corridor_game)) ∧
    length (BoxPos g') = length (BoxPos corridor_game).
Proof.
  apply (box_count_conserved 64 corridor_maze corridor_game corridor_game).
  - vm_compute. reflexivity.
  - apply reach_new. vm_compute. reflexivity.
Defined.

(** C4. In every state reachable by construction, [Move] and [Restart]:
    [Succeeded] holds if and only if [Finished] equals the initial box
    count, [Finished] is the number of boxes standing on a goal, and
    [Succeeded] and [Failed] are never both true. *)
Theorem terminal_flags_exclusive (StateBits : N) (maze : string) (g : Game) :
  reachable StateBits maze g →
  (Succeeded g = true ↔ Finished g = Z.of_nat (length (BoxPos0 g))) ∧
  Finished g = finished_count g ∧
  ¬ (Succeeded g = true ∧ Failed g = true).
Proof.
  intros Hreach. destruct (reachable_invariant _ _ _ Hreach) as (Hlay & Hpos & Hcons).
  pose proof (c_Succeeded _ Hcons) as Hsucc.
  split; [by rewrite Hsucc, Z.eqb_eq|]. split; [apply (c_Finished _ Hcons)|].
  intros [Hs Hf]. rewrite Hsucc in Hs. apply Z.eqb_eq in Hs.
  destruct (c_Failed _ Hcons) as [failed Hcheck].
  unfold CheckFailed in Hcheck. simpl in Hcheck.
  rewrite to_size_t_small in Hcheck.
  - rewrite Hs, Z.eqb_refl in Hcheck. congruence.
  - pose proof (wf_box_count _ _ Hlay). change (2 ^ 64) with 18446744073709551616. lia.
Qed.

Lemma terminal_flags_exclusive_witness :
  (Succeeded corridor_game = true
   ↔ Finished corridor_game = Z.of_nat (length (BoxPos0 corridor_game))) ∧
  Finished corridor_game = finished_count corridor_game ∧
  ¬ (Succeeded corridor_game = true ∧ Failed corridor_game = true).
Proof.
  apply (terminal_flags_exclusive 64 corridor_maze).
  apply reach_new. vm_compute. reflexivity.
Defined.

(** C9. In every reachable state in which some box that is not on a goal
    has a wall or the edge of the grid above or below it, and also to its
    left or to its right, the recomputation that produced the state has set
    [Failed]. *)
Theorem corner_box_failed (StateBits : N) (maze : string) (g : Game) (b : Pos) :
  reachable StateBits maze g →
  b ∈ BoxPos g → b ∉ GoalPos g →
  is_floor g (b.1 - 1, b.2) = false ∨ is_floor g (b.1 + 1, b.2) = false →
  is_floor g (b.1, b.2 - 1) = false ∨ is_floor g (b.1, b.2 + 1) = false →
  Failed g = true.
Proof.
  intros Hreach Hb Hgoal Hvert Hhoriz.
  destruct (reachable_invariant _ _ _ Hreach) as (Hlay & Hpos & Hcons).
  destruct (c_Failed _ Hcons) as [failed Hcheck].
  pose proof (wf_Height _ _ Hlay). pose proof (wf_Width _ _ Hlay).
  assert (is_floor g b = true) as Hfloor.
  { pose proof (wf_BoxPos_floor _ Hpos) as Hall. rewrite Forall_forall in Hall.
    by apply Hall. }
  apply (CheckFailed_corner (before_CheckFailed failed g)) with (b := b).
  - apply (wf_FloorIndex _ _ Hlay).
  - apply (c_Maze _ Hcons).
  - simpl. lia.
  - simpl. lia.
  - done.
  - by apply (is_floor_in_grid g).
  - simpl. by apply set_count_false.
  - simpl. rewrite (c_Finished _ Hcons).
    pose proof (filter_length_lt (λ b, set_count b (GoalPos g) = true) (BoxPos g) b Hb)
      as Hlt.
    rewrite to_size_t_small.
    + unfold finished_count. rewrite <- (wf_BoxPos_length _ Hpos).
      apply set_count_false in Hgoal.
      assert (¬ set_count b (GoalPos g) = true) as Hnot by congruence.
      specialize (Hlt Hnot). lia.
    + pose proof (finished_count_range g). pose proof (wf_box_count _ _ Hlay).
      rewrite (wf_BoxPos_length _ Hpos) in *.
      change (2 ^ 64) with 18446744073709551616. lia.
  - done.
  - done.
  - done.
Qed.

Lemma corner_box_failed_witness :
  (1, 1) ∈ BoxPos corner_game ∧ ((1, 1) ∉ GoalPos corner_game) ∧
  Failed corner_game = true.
Proof.
  split; [vm_compute; left|]. split; [by intros ?%set_count_true|].
  apply (corner_box_failed 64 corner_maze corner_game (1, 1)).
  - apply reach_new. vm_compute. reflexivity.
  - vm_compute. left.
  - by intros ?%set_count_true.
  - left. reflexivity.
  - left. reflexivity.
Defined.

Lemma reachable_constructed (StateBits : N) maze g :
  reachable StateBits maze g → ∃ g0, Game_new StateBits maze = Done g0.
Proof. induction 1; eauto. Qed.

(** C3. For every successfully constructed game, the encoded state is
    determined by the player's cell and the set of box cells: it is the
    number whose low-order [FloorBits]-wide field is the player's floor
    index and whose successive higher fields are the floor indices of the
    boxes in ascending order of position.  Hence two histories that end with
    the same player cell and the same set of box cells end with the same
    encoded state. *)
Theorem encoded_state_canonical (StateBits : N) (maze : string) (g : Game) :
  reachable StateBits maze g →
  State g = encoded_state g ∧
  State g mod 2 ^ FloorBits g = floor_index g (PlayerPos g) ∧
  (∀ k b, BoxPos g !! k = Some b →
     (State g / 2 ^ (FloorBits g * Z.of_nat (S k))) mod 2 ^ FloorBits g = floor_index g b) ∧
  is_set (BoxPos g) ∧
  ∀ g', reachable StateBits maze g' →
    PlayerPos g' = PlayerPos g → (∀ p, p ∈ BoxPos g' ↔ p ∈ BoxPos g) →
    State g' = State g.
Proof.
  intros Hreach. destruct (reachable_invariant _ _ _ Hreach) as (Hlay & Hpos & Hcons).
  pose proof (wf_FloorBits _ _ Hlay) as Hfb.
  assert (Forall (λ x, 0 ≤ x < 2 ^ FloorBits g)
            (floor_index g (PlayerPos g) :: map (floor_index g) (BoxPos g))) as Hfields.
  { assert (∀ p, is_floor g p = true → 0 ≤ floor_index g p < 2 ^ FloorBits g) as Hidx.
    { intros p Hp. pose proof (wf_index _ _ Hlay p). apply is_floor_index in Hp. lia. }
    apply Forall_cons. split; [apply Hidx, (wf_PlayerPos _ Hpos)|].
    apply Forall_map. eapply Forall_impl; [apply (wf_BoxPos_floor _ Hpos)|]. done. }
  split; [apply (c_State _ Hcons)|]. rewrite (c_State _ Hcons). unfold encoded_state.
  split; [|split; [|split]].
  - pose proof (pack_field (FloorBits g) _ 0 _ (proj1 Hfb) Hfields eq_refl) as Hfield.
    change (Z.of_nat 0) with 0 in Hfield.
    by rewrite Z.mul_0_r, Z.pow_0_r, Z.div_1_r in Hfield.
  - intros k b Hk. apply (pack_field (FloorBits g) _ (S k)); [lia|done|].
    simpl. by rewrite list_lookup_fmap, Hk.
  - apply (wf_BoxPos_set _ Hpos).
  - intros g' Hreach' Hplayer Hboxes.
    destruct (reachable_invariant _ _ _ Hreach') as (_ & Hpos' & Hcons').
    destruct (reachable_constructed _ _ _ Hreach) as [g0 Hg0].
    pose proof (reachable_layout _ _ _ _ Hg0 Hreach) as (_ & _ & Hb & Hf & _).
    pose proof (reachable_layout _ _ _ _ Hg0 Hreach') as (_ & _ & Hb' & Hf' & _).
    rewrite (c_State _ Hcons'). unfold encoded_state, floor_index.
    rewrite Hplayer, Hb, Hb', Hf, Hf'.
    by rewrite (is_set_ext (BoxPos g') (BoxPos g) (wf_BoxPos_set _ Hpos')
                  (wf_BoxPos_set _ Hpos) Hboxes).
Qed.

Lemma encoded_state_canonical_witness :
  State room_game = encoded_state room_game ∧
  State room_game mod 2 ^ FloorBits room_game = floor_index room_game (PlayerPos room_game) ∧
  (∀ k b, BoxPos room_game !! k = Some b →
     (State room_game / 2 ^ (FloorBits room_game * Z.of_nat (S k)))
       mod 2 ^ FloorBits room_game = floor_index room_game b) ∧
  is_set (BoxPos room_game) ∧
  ∀ g', reachable 64 room_maze g' →
    PlayerPos g' = PlayerPos room_game → (∀ p, p ∈ BoxPos g' ↔ p ∈ BoxPos room_game) →
    State g' = State room_game.
Proof.
  apply (encoded_state_canonical 64 room_maze room_game).
  apply reach_new. vm_compute. reflexivity.
Defined.

(** C5. Construction throws a [Sokoban::Error] exactly when the maze has
    more than 125 rows or more than 125 columns, more than one player
    symbol, no player symbol, no box symbol, more boxes than goals, or needs
    more than [StateBits] bits for [FloorBits * (box count + 1)]; it never
    leaves defined behaviour; and on every state of a constructed game
    [Move] (with any argument) and [Restart] return. *)
Theorem construction_errors_and_totality (StateBits : N) (maze : string) :
  ((∃ e, Game_new StateBits maze = Throws e) ↔ invalid_maze StateBits maze) ∧
  Game_new StateBits maze ≠ Undefined ∧
  ∀ g, reachable StateBits maze g →
    (∀ d, is_Some (Move StateBits g d)) ∧ is_Some (Restart StateBits g).
Proof.
  pose proof (Game_new_spec StateBits maze) as Hnew.
  split; [|split].
  - destruct (Game_new StateBits maze) as [g|e|].
    + split; [intros [e [=]]|]. tauto.
    + split; [done|]. eauto.
    + done.
  - by destruct (Game_new StateBits maze).
  - intros g Hinv%reachable_invariant. split.
    + intros d. destruct (Move_invariant StateBits g d Hinv) as (g' & pushed & -> & _).
      eauto.
    + destruct (Restart_spec StateBits g Hinv) as (g' & -> & _). eauto.
Qed.

Lemma construction_errors_and_totality_witness :
  invalid_maze 64 "**" ∧ ¬ invalid_maze 64 corridor_maze ∧
  Game_new 64 corridor_maze ≠ Undefined ∧
  is_Some (Move 64 corridor_game Right) ∧ is_Some (Restart 64 corridor_game).
Proof.
  split; [|split; [|split]].
  - apply (proj1 (construction_errors_and_totality 64 "**")). eexists. vm_compute.
    reflexivity.
  - intros [e He]%(proj1 (construction_errors_and_totality 64 corridor_maze)).
    vm_compute in He. discriminate He.
  - apply (construction_errors_and_totality 64 corridor_maze).
  - destruct (construction_errors_and_totality 64 corridor_maze) as (_ & _ & Htotal).
    destruct (Htotal corridor_game) as [Hmove Hrestart]; [|by split].
    apply reach_new. vm_compute. reflexivity.
Defined.

(** * The learner *)

Section ActionSelection.
Context {RealType : Type} `{RealArith RealType}.
Context {Table : Type} `{IQTable RealType Table}.

Lemma mask_cases actions :
  0 < actions < 16 →
  actions = 1 ∨ actions = 2 ∨ actions = 3 ∨ actions = 4 ∨ actions = 5 ∨ actions = 6 ∨
  actions = 7 ∨ actions = 8 ∨ actions = 9 ∨ actions = 10 ∨ actions = 11 ∨ actions = 12 ∨
  actions = 13 ∨ actions = 14 ∨ actions = 15.
Proof. lia. Qed.

(** The bit-scanning loop runs to the end and agrees with the scan of the
    list of legal directions. *)
Lemma FindAction_loop_list (Q : Table) (state actions : Z) :
  0 < actions < 16 →
  ∃ first rest s,
    legal_list actions = first :: rest ∧
    FindAction_loop DirectionInt_range Q state (FindAction_init Q state actions) = Some s ∧
    scan_list Q state first rest
    = (fs_all_same s, fs_action_count s, fs_last_Q s, fs_max_Q s, fs_choice s).
Proof.
  intros Hmask.
  destruct (mask_cases actions Hmask)
    as [-> | [-> | [-> | [-> | [-> | [-> | [-> | [-> | [-> | [-> | [-> | [-> | [->
        | [-> | ->]]]]]]]]]]]]]];
    eexists _, _, _; (split; [vm_compute; reflexivity|]);
    (split; [vm_compute; reflexivity|]); vm_compute; reflexivity.
Qed.

End ActionSelection.

Section ActionSelectionOrder.
Context {RealType : Type} `{RealOrder RealType}.
Context {Table : Type} `{IQTable RealType Table}.

Lemma real_le_lt_trans (x y z : RealType) :
  real_lt y x = false → real_lt y z = true → real_lt x z = true.
Proof.
  intros Hxy Hyz. destruct (real_lt x y) eqn:E.
  - by eapply real_lt_trans.
  - by rewrite (real_lt_total x y E Hxy).
Qed.

Lemma real_lt_asym (x y : RealType) : real_lt x y = true → real_lt y x = false.
Proof.
  intros Hxy. destruct (real_lt y x) eqn:E; [|done].
  pose proof (real_lt_trans _ _ _ Hxy E) as Hxx. by rewrite real_lt_irrefl in Hxx.
Qed.

(** The scan of a list of directions counts them, detects whether their
    values are all equal, and ends with the first direction whose value is
    largest. *)
Lemma scan_list_spec (Q : Table) (state first : Z) (rest : list Z) :
  ∃ all_same last_Q choice i,
    scan_list Q state first rest
    = (all_same, Z.of_nat (length (first :: rest)), last_Q, Q_Get Q state choice, choice) ∧
    (all_same = true ↔ ∀ d, d ∈ first :: rest → Q_Get Q state d = Q_Get Q state first) ∧
    (all_same = true → last_Q = Q_Get Q state first) ∧
    (first :: rest) !! i = Some choice ∧
    (∀ d, d ∈ first :: rest → real_lt (Q_Get Q state choice) (Q_Get Q state d) = false) ∧
    (∀ j d, (j < i)%nat → (first :: rest) !! j = Some d →
       real_lt (Q_Get Q state d) (Q_Get Q state choice) = true).
Proof.
  induction rest as [|d rest IH] using rev_ind.
  - exists true, (Q_Get Q state first), first, 0%nat. unfold scan_list. simpl.
    split; [done|]. split; [split; [|done]; by intros _ d ->%list_elem_of_singleton|].
    split; [done|]. split; [done|]. split.
    + intros d ->%list_elem_of_singleton. apply real_lt_irrefl.
    + intros j d Hj. lia.
  - destruct IH as (all_same & last_Q & choice & i & Hscan & Hsame & Hlast & Hi & Hmax & Hfirst).
    unfold scan_list in *. rewrite fold_left_app, Hscan. simpl.
    set (q := Q_Get Q state) in *.
    assert (Z.of_nat (length (first :: rest)) + 1
            = Z.of_nat (length (first :: rest ++ [d]))) as Hlen.
    { simpl. rewrite length_app. simpl. lia. }
    simpl in Hlen. rewrite Hlen.
    exists (all_same && real_eq last_Q (q d)), (q d).
    assert ((all_same && real_eq last_Q (q d)) = true
            ↔ ∀ d0, d0 ∈ first :: rest ++ [d] → q d0 = q first) as Hsame'.
    { rewrite andb_true_iff, real_eq_spec. split.
      - intros [Hall Heq] d0 Hd0. rewrite app_comm_cons in Hd0.
        apply elem_of_app in Hd0 as [Hd0 | ->%list_elem_of_singleton].
        + by apply Hsame.
        + by rewrite <- Heq, Hlast.
      - intros Hall. assert (all_same = true) as Hall'.
        { apply Hsame. intros d0 Hd0. apply Hall. rewrite app_comm_cons. set_solver. }
        split; [done|]. rewrite (Hlast Hall'). symmetry. apply Hall.
        rewrite app_comm_cons. set_solver. }
    assert ((all_same && real_eq last_Q (q d)) = true → q d = q first) as Hlast'.
    { intros Hall. apply Hsame'; [done|]. rewrite app_comm_cons. set_solver. }
    destruct (real_lt (q choice) (q d)) eqn:Elt.
    + exists d, (length (first :: rest)). split; [done|]. split; [done|].
      split; [done|]. split.
      { rewrite app_comm_cons. by apply list_lookup_middle. }
      split.
      * intros d0 Hd0. rewrite app_comm_cons in Hd0.
        apply elem_of_app in Hd0 as [Hd0 | ->%list_elem_of_singleton];
          [|apply real_lt_irrefl].
        destruct (real_lt (q d) (q d0)) eqn:E; [|done].
        pose proof (real_lt_trans _ _ _ Elt E) as Hcontra.
        by rewrite (Hmax d0 Hd0) in Hcontra.
      * intros j d0 Hj Hd0. rewrite app_comm_cons, lookup_app_l in Hd0 by done.
        apply (real_le_lt_trans _ (q choice)); [|done].
        apply Hmax. by eapply list_elem_of_lookup_2.
    + exists choice, i. split; [done|]. split; [done|]. split; [done|]. split.
      { rewrite app_comm_cons. apply lookup_app_l_Some. done. }
      split.
      * intros d0 Hd0. rewrite app_comm_cons in Hd0.
        apply elem_of_app in Hd0 as [Hd0 | ->%list_elem_of_singleton]; [by apply Hmax|done].
      * intros j d0 Hj Hd0. apply (Hfirst j); [done|].
        rewrite app_comm_cons, lookup_app_l in Hd0; [done|].
        apply lookup_lt_Some in Hi. lia.
Qed.

End ActionSelectionOrder.

Lemma elem_of_legal_list actions d :
  d ∈ legal_list actions ↔ d ∈ AllDirections ∧ Z.land actions d ≠ 0.
Proof.
  unfold legal_list. rewrite list_elem_of_In, filter_In, <- list_elem_of_In.
  by rewrite negb_true_iff, Z.eqb_neq.
Qed.

Lemma legal_list_singleton actions d :
  0 < actions < 16 → legal_list actions = [d] → actions = d.
Proof.
  intros Hmask.
  destruct (mask_cases actions Hmask)
    as [-> | [-> | [-> | [-> | [-> | [-> | [-> | [-> | [-> | [-> | [-> | [-> | [->
        | [-> | ->]]]]]]]]]]]]]];
    vm_compute; congruence.
Qed.

(** Skipping [k] legal directions leaves the [k]-th legal direction as the
    lowest bit. *)
Lemma FindAction_skip_legal actions k :
  0 < actions < 16 → 0 ≤ k < Z.of_nat (length (legal_list actions)) →
  to_DirectionInt (Z.land (FindAction_skip (to_BitsInt k) actions)
                     (- FindAction_skip (to_BitsInt k) actions))
  ∈ legal_list actions.
Proof.
  intros Hmask Hk.
  assert (k = 0 ∨ k = 1 ∨ k = 2 ∨ k = 3) as Hcases.
  { assert (length (legal_list actions) ≤ 4)%nat; [|lia].
    unfold legal_list. etrans; [apply List.filter_length_le|]. done. }
  destruct (mask_cases actions Hmask)
    as [-> | [-> | [-> | [-> | [-> | [-> | [-> | [-> | [-> | [-> | [-> | [-> | [->
        | [-> | ->]]]]]]]]]]]]]];
    destruct Hcases as [-> | [-> | [-> | ->]]];
    first [ by (vm_compute in Hk; destruct Hk as [_ Hk]; discriminate Hk)
          | vm_compute; repeat first [ apply list_elem_of_here | apply list_elem_of_further ] ].
Qed.

Section FindAction.
Context {RealType : Type} `{RealArith RealType}.
Context {Table : Type} `{IQTable RealType Table}.
Context {Generator Double : Type} `{URNG Generator Double}.

Lemma scan_list_choice (Q : Table) (state first : Z) (rest : list Z) :
  ∃ all_same last_Q max_Q choice,
    scan_list Q state first rest
    = (all_same, Z.of_nat (length (first :: rest)), last_Q, max_Q, choice) ∧
    choice ∈ first :: rest.
Proof.
  induction rest as [|d rest IH] using rev_ind.
  - eexists _, _, _, _. split; [reflexivity|]. set_solver.
  - destruct IH as (all_same & last_Q & max_Q & choice & Hscan & Hin).
    unfold scan_list in *. rewrite fold_left_app, Hscan. simpl.
    eexists _, _, _, _. split.
    + do 4 f_equal. rewrite !length_app. simpl. lia.
    + destruct (real_lt _ _); set_solver.
Qed.

(** [FindAction] unfolded on a non-empty mask, with the result of its
    loop. *)
Lemma FindAction_unfold (rng : Generator) (eps : Double) (g : Game) (Q : Table) s :
  Directions g ≠ 0 →
  FindAction_loop DirectionInt_range Q (State g) (FindAction_init Q (State g) (Directions g))
  = Some s →
  FindAction rng eps g Q
  = if fs_action_count s =? 1 then Some (Directions g, rng)
    else
      if fs_all_same s || double_lt (uniform_real rng).1 eps then
        Some (to_DirectionInt
                (Z.land
                   (FindAction_skip
                      (to_BitsInt (uniform_int 0 (fs_action_count s - 1)
                                     (uniform_real rng).2).1) (Directions g))
                   (- FindAction_skip
                        (to_BitsInt (uniform_int 0 (fs_action_count s - 1)
                                       (uniform_real rng).2).1) (Directions g))),
              (uniform_int 0 (fs_action_count s - 1) (uniform_real rng).2).2)
      else Some (fs_choice s, (uniform_real rng).2).
Proof.
  intros Hne Hloop. unfold FindAction. unfold FindAction_init in Hloop.
  cbv zeta in *. rewrite Hloop. cbn [mbind option_bind].
  replace (Directions g =? 0) with false by (symmetry; by apply Z.eqb_neq).
  destruct (fs_action_count s =? 1); [done|].
  destruct (uniform_real rng) as [random rng1]. cbn [fst snd].
  destruct (fs_all_same s || double_lt random eps); [|done].
  by destruct (uniform_int 0 (fs_action_count s - 1) rng1).
Qed.

(** On a non-empty mask [FindAction] returns one of the legal directions. *)
Lemma FindAction_legal (rng : Generator) (eps : Double) (g : Game) (Q : Table) :
  0 < Directions g < 16 →
  ∃ a rng', FindAction rng eps g Q = Some (a, rng') ∧ a ∈ legal_list (Directions g).
Proof.
  intros Hmask.
  destruct (FindAction_loop_list Q (State g) (Directions g) Hmask)
    as (first & rest & s & HL & Hloop & Hscan).
  destruct (scan_list_choice Q (State g) first rest)
    as (all_same & last_Q & max_Q & choice & Hscan' & Hchoice).
  rewrite Hscan in Hscan'. injection Hscan' as Hsame Hcount Hlast Hmax Hch.
  rewrite (FindAction_unfold rng eps g Q s) by (done || lia).
  destruct (fs_action_count s =? 1) eqn:E1.
  { eexists _, _. split; [done|]. apply Z.eqb_eq in E1.
    destruct rest as [|? ?]; [|simpl in Hcount; lia].
    rewrite (legal_list_singleton _ _ Hmask HL) at 1. rewrite HL.
    apply list_elem_of_here. }
  destruct (fs_all_same s || double_lt (uniform_real rng).1 eps).
  - eexists _, _. split; [done|]. apply FindAction_skip_legal; [done|].
    pose proof (uniform_int_range 0 (fs_action_count s - 1) (uniform_real rng).2) as Hr.
    rewrite HL, Hcount in *. simpl length in *. lia.
  - eexists _, _. split; [done|]. by rewrite HL, Hch.
Qed.

End FindAction.

Section FindActionOrder.
Context {RealType : Type} `{RealOrder RealType}.
Context {Table : Type} `{IQTable RealType Table}.
Context {Generator Double : Type} `{URNG Generator Double}.

(** C7. [FindAction] returns the sentinel [NoDirection] when no direction is
    legal; returns the one legal direction, without drawing from the random
    generator, when exactly one is legal; and when several are legal, their
    Q-values are not all equal and the one uniform draw is not below
    [epsilon], it returns the first direction, in the scan order Up, Left,
    Right, Down, whose Q-value is the largest among the legal directions. *)
Theorem FindAction_selection (rng : Generator) (eps : Double) (g : Game) (Q : Table) :
  0 ≤ Directions g < 16 →
  (Directions g = 0 → FindAction rng eps g Q = Some (NoDirection, rng)) ∧
  (∀ d, legal_list (Directions g) = [d] → FindAction rng eps g Q = Some (d, rng)) ∧
  ((2 ≤ length (legal_list (Directions g)))%nat →
   ¬ (∀ d d', d ∈ legal_list (Directions g) → d' ∈ legal_list (Directions g) →
        Q_Get Q (State g) d = Q_Get Q (State g) d') →
   double_lt (uniform_real rng).1 eps = false →
   ∃ i choice,
     FindAction rng eps g Q = Some (choice, (uniform_real rng).2) ∧
     legal_list (Directions g) !! i = Some choice ∧
     (∀ d, d ∈ legal_list (Directions g) →
        real_lt (Q_Get Q (State g) choice) (Q_Get Q (State g) d) = false) ∧
     (∀ j d, (j < i)%nat → legal_list (Directions g) !! j = Some d →
        real_lt (Q_Get Q (State g) d) (Q_Get Q (State g) choice) = true)).
Proof.
  intros Hrange. split; [|split].
  - intros Hzero. unfold FindAction. by rewrite Hzero.
  - intros d HL.
    assert (0 < Directions g < 16) as Hmask.
    { destruct (decide (Directions g = 0)) as [Hz|]; [|lia]. rewrite Hz in HL. done. }
    destruct (FindAction_loop_list Q (State g) (Directions g) Hmask)
      as (first & rest & s & HL' & Hloop & Hscan).
    rewrite HL in HL'. injection HL' as <- <-.
    rewrite (FindAction_unfold rng eps g Q s) by (done || lia).
    unfold scan_list in Hscan. simpl in Hscan. injection Hscan as _ <- _ _ _.
    simpl. by rewrite (legal_list_singleton _ _ Hmask HL).
  - intros Hlen Hdiff Hdraw.
    assert (0 < Directions g < 16) as Hmask.
    { destruct (decide (Directions g = 0)) as [Hz|]; [|lia].
      rewrite Hz in Hlen. simpl in Hlen. lia. }
    destruct (FindAction_loop_list Q (State g) (Directions g) Hmask)
      as (first & rest & s & HL & Hloop & Hscan).
    destruct (scan_list_spec Q (State g) first rest)
      as (all_same & last_Q & choice & i & Hscan' & Hsame & _ & Hi & Hmax & Hfirst).
    rewrite Hscan in Hscan'. injection Hscan' as Hall Hcount _ _ Hch.
    rewrite (FindAction_unfold rng eps g Q s) by (done || lia).
    rewrite HL in *. clear Hloop Hscan. simpl length in Hlen.
    replace (fs_action_count s =? 1) with false
      by (symmetry; apply Z.eqb_neq; rewrite Hcount; lia).
    assert (fs_all_same s = false) as ->.
    { rewrite Hall. destruct all_same; [|done]. exfalso. apply Hdiff.
      intros d d' Hd Hd'. destruct Hsame as [Hsame _].
      by rewrite (Hsame eq_refl d Hd), (Hsame eq_refl d' Hd'). }
    rewrite Hdraw. simpl. exists i, choice. by rewrite Hch.
Qed.

(** C6 (amended). The bootstrap value of [Train] is the largest of the
    fallback floor value [-(retrace_penalty + failure_penalty + goal_reward *
    box count)] and the Q-values of the legal directions of the state after
    the move: it is not below the floor nor below the Q-value of any legal
    direction, and it is the floor or the Q-value of a legal direction.  In
    particular it is the floor when no direction is legal, and when some
    direction is legal it is the largest legal Q-value as soon as that value
    is not below the floor. *)
Theorem Train_bootstrap_clamped (Q : Table) (g : Game)
    (retrace_penalty goal_reward failure_penalty : RealType) :
  let floor :=
    real_opp (real_add (real_add retrace_penalty failure_penalty)
                (real_mul goal_reward (real_of (Z.of_nat (length (BoxPos0 g)))))) in
  let bootstrap := Train_max_Q Q g retrace_penalty goal_reward failure_penalty in
  real_lt bootstrap floor = false ∧
  (∀ d, d ∈ legal_list (Directions g) →
     real_lt bootstrap (Q_Get Q (State g) d) = false) ∧
  (bootstrap = floor ∨
   ∃ d, d ∈ legal_list (Directions g) ∧ bootstrap = Q_Get Q (State g) d) ∧
  (legal_list (Directions g) = [] → bootstrap = floor) ∧
  (∀ d, d ∈ legal_list (Directions g) →
     real_lt (Q_Get Q (State g) d) floor = false →
     ∃ d', d' ∈ legal_list (Directions g) ∧ bootstrap = Q_Get Q (State g) d').
Proof.
  intros floor bootstrap. unfold bootstrap, Train_max_Q. fold floor.
  set (q := Q_Get Q (State g)).
  set (legal := λ d, negb (Z.land (Directions g) d =? 0)).
  assert (∀ l,
            let b := fold_left (λ m d, if legal d then std_max m (q d) else m) l floor in
            real_lt b floor = false ∧
            (∀ d, d ∈ l → legal d = true → real_lt b (q d) = false) ∧
            (b = floor ∨ ∃ d, d ∈ l ∧ legal d = true ∧ b = q d)) as Hfold.
  { induction l as [|d l IH] using rev_ind; simpl.
    - split; [apply real_lt_irrefl|]. split; [set_solver|by left].
    - rewrite fold_left_app. simpl.
      destruct IH as (Hfloor & Hmax & Hwhich).
      set (b := fold_left (λ m d, if legal d then std_max m (q d) else m) l floor) in *.
      destruct (legal d) eqn:Ed.
      + unfold std_max. destruct (real_lt b (q d)) eqn:Elt.
        * split; [|split].
          -- destruct (real_lt (q d) floor) eqn:E; [|done].
             pose proof (real_lt_trans _ _ _ Elt E). congruence.
          -- intros d0 [Hd0 | ->%list_elem_of_singleton]%elem_of_app Hl;
               [|apply real_lt_irrefl].
             destruct (real_lt (q d) (q d0)) eqn:E; [|done].
             pose proof (real_lt_trans _ _ _ Elt E) as Hc.
             by rewrite (Hmax d0 Hd0 Hl) in Hc.
          -- right. exists d. set_solver.
        * split; [done|]. split.
          -- intros d0 [Hd0 | ->%list_elem_of_singleton]%elem_of_app Hl; [by apply Hmax|done].
          -- destruct Hwhich as [? | (d0 & ? & ? & ?)]; [by left|].
             right. exists d0. set_solver.
      + split; [done|]. split.
        * intros d0 [Hd0 | ->%list_elem_of_singleton]%elem_of_app Hl;
            [by apply Hmax|congruence].
        * destruct Hwhich as [? | (d0 & ? & ? & ?)]; [by left|].
          right. exists d0. set_solver. }
  destruct (Hfold AllDirections) as (Hfloor & Hmax & Hwhich).
  assert (∀ d, d ∈ legal_list (Directions g) ↔ d ∈ AllDirections ∧ legal d = true) as Hlegal.
  { intros d. rewrite elem_of_legal_list. unfold legal.
    by rewrite negb_true_iff, Z.eqb_neq. }
  split; [done|]. split; [intros d [? ?]%Hlegal; by apply Hmax|].
  assert (fold_left (λ m d, if legal d then std_max m (q d) else m) AllDirections floor
          = floor
          ∨ ∃ d, d ∈ legal_list (Directions g)
                 ∧ fold_left (λ m d, if legal d then std_max m (q d) else m)
                     AllDirections floor = q d) as Hwhich'.
  { destruct Hwhich as [? | (d & ? & ? & ?)]; [by left|]. right. exists d.
    split; [by apply Hlegal|done]. }
  split; [done|]. split.
  - intros Hnone. destruct Hwhich' as [? | (d & Hd & _)]; [done|].
    rewrite Hnone in Hd. by apply elem_of_nil in Hd.
  - intros d Hd Hge. destruct Hwhich' as [Heq | ?]; [|done].
    exists d. split; [done|]. etrans; [exact Heq|].
    apply Hlegal in Hd as [Hd Hl]. pose proof (Hmax d Hd Hl) as Hle.
    rewrite Heq in Hle. by apply real_lt_total.
Qed.

End FindActionOrder.

(** ** The Q-table *)

Section QTableLemmas.
Context {RealType : Type} `{RealArith RealType}.

Lemma AllDirections_cases d :
  d ∈ AllDirections → d = Up ∨ d = Left ∨ d = Right ∨ d = Down.
Proof. unfold AllDirections. rewrite !elem_of_cons, elem_of_nil. tauto. Qed.

(** [Set] followed by [Get] at the same state and direction. *)
Lemma QTable_Get_Set (Q : QTable RealType) state action value :
  action ∈ AllDirections →
  QTable_Get (QTable_Set Q state action value) state action = value.
Proof.
  intros [-> | [-> | [-> | ->]]]%AllDirections_cases;
    unfold QTable_Get, QTable_Set, Up, Left, Right, Down, QTable in *;
    cbn [Z.eqb Pos.eqb]; by rewrite lookup_insert_eq.
Qed.

(** [Set] changes no other entry, also when it creates the row. *)
Lemma QTable_Get_Set_other (Q : QTable RealType) state action value state' action' :
  (state', action') ≠ (state, action) →
  QTable_Get (QTable_Set Q state action value) state' action' = QTable_Get Q state' action'.
Proof.
  intros Hne. unfold QTable_Get, QTable_Set, QTable in *.
  assert (state' ≠ state ∨ (state' = state ∧ action' ≠ action)) as Hcase.
  { destruct (decide (state' = state)); [right|left]; [split|]; congruence. }
  clear Hne.
  repeat match goal with
  | |- context [?a =? ?b] => destruct (Z.eqb_spec a b); subst; try done
  end.
  all: destruct Hcase as [Hs | [-> Ha]];
    rewrite ?lookup_insert_eq, ?lookup_insert_ne by done; try done;
    by destruct (Q !! state).
Qed.

End QTableLemmas.

(** ** One training step *)

Lemma nonterminal_has_direction (StateBits : N) (g : Game) :
  invariant StateBits g → Succeeded g = false → Failed g = false →
  0 < Directions g < 16.
Proof.
  intros (Hlay & Hpos & Hcons) Hs Hf.
  pose proof (c_Directions_range _ Hcons) as Hrange.
  destruct (c_Failed _ Hcons) as [failed Hcheck]. rewrite Hf in Hcheck.
  unfold CheckFailed in Hcheck. simpl in Hcheck.
  rewrite (c_Succeeded _ Hcons) in Hs.
  rewrite to_size_t_small, Hs in Hcheck.
  - destruct (Directions g =? 0) eqn:E; [done|]. apply Z.eqb_neq in E. lia.
  - rewrite (c_Finished _ Hcons). pose proof (finished_count_range g).
    pose proof (wf_box_count _ _ Hlay). rewrite (wf_BoxPos_length _ Hpos) in *.
    change (2 ^ 64) with 18446744073709551616. lia.
Qed.

Section Training.
Variable StateBits : N.
Context {RealType : Type} `{RealArith RealType}.
Context {Generator Double : Type} `{URNG Generator Double}.

(** C8. In every [Train] invocation on a non-terminal state [g], with the
    selected action [a] taking [g] to [g']: the reward is [goal_reward *
    (Finished g' - Finished g)], minus [retrace_penalty] if the new encoded
    state is in the visited-state history, plus [push_reward] if the move
    pushed a box, plus [success_reward] if [g'] is succeeded, minus
    [failure_penalty] if [g'] is failed (the terms are applied in this
    order); the entry of the old state and [a] becomes [(1 - alpha) * Q[s][a]
    + alpha * (reward + gamma * bootstrap)]; every other entry of the
    Q-table reads as before. *)
Theorem Train_update (maze : string) (rng : Generator) (g : Game) (Q : QTable RealType)
    (epsilon : Double)
    (alpha gamma retrace_penalty push_reward goal_reward failure_penalty success_reward
       : RealType) :
  reachable StateBits maze g → Succeeded g = false → Failed g = false →
  ∃ a g' pushed rng',
    FindAction rng epsilon g Q = Some (a, rng') ∧
    a ∈ legal_list (Directions g) ∧
    Move StateBits g a = Some (g', pushed) ∧
    pushed = set_count (step (PlayerPos g) a) (BoxPos g) ∧
    let reward0 := real_mul goal_reward (real_of (Finished g' - Finished g)) in
    let reward1 :=
      if decide (State g' ∈ StateHistory g') then real_sub reward0 retrace_penalty
      else reward0 in
    let reward2 := if pushed then real_add reward1 push_reward else reward1 in
    let reward3 := if Succeeded g' then real_add reward2 success_reward else reward2 in
    let reward := if Failed g' then real_sub reward3 failure_penalty else reward3 in
    let bootstrap := Train_max_Q Q g' retrace_penalty goal_reward failure_penalty in
    let value :=
      real_add (real_mul (real_sub (real_of 1) alpha) (QTable_Get Q (State g) a))
        (real_mul alpha (real_add reward (real_mul gamma bootstrap))) in
    let Q' := QTable_Set Q (State g) a value in
    Train StateBits rng g Q epsilon alpha gamma retrace_penalty push_reward goal_reward
      failure_penalty success_reward
    = Some (mkTrainResult a (State g) (QTable_GetRow Q (State g))
              (QTable_GetRow Q' (State g)), g', Q', rng') ∧
    QTable_Get Q' (State g) a = value ∧
    ∀ state' action', (state', action') ≠ (State g, a) →
      QTable_Get Q' state' action' = QTable_Get Q state' action'.
Proof.
  intros Hreach Hs Hf.
  pose proof (reachable_invariant _ _ _ Hreach) as Hinv.
  pose proof (nonterminal_has_direction _ _ Hinv Hs Hf) as Hmask.
  destruct (FindAction_legal rng epsilon g Q Hmask) as (a & rng' & Hfind & Ha).
  pose proof Ha as [Hunit Hland]%elem_of_legal_list.
  assert (((Movement a).1 =? (Movement a).2) = false) as Hmov.
  { by apply AllDirections_cases in Hunit as [-> | [-> | [-> | ->]]]. }
  destruct (Move_accepted StateBits g a Hinv Hland Hmov) as (g' & Hmove & _).
  exists a, g', (set_count (step (PlayerPos g) a) (BoxPos g)), rng'.
  split; [done|]. split; [done|]. split; [done|]. split; [done|].
  cbv zeta. split; [|split].
  - unfold Train. rewrite Hs, Hf. cbn [orb]. rewrite Hfind. cbn [mbind option_bind].
    rewrite Hmove. cbn [mbind option_bind]. reflexivity.
  - by apply QTable_Get_Set.
  - intros state' action' Hne. by apply QTable_Get_Set_other.
Qed.

End Training.

(** * The learner at integer rewards *)

(** The integers satisfy the order laws of [RealOrder]. *)
#[export] Instance Z_RealOrder : RealOrder Z.
Proof.
  split; simpl.
  - apply Z.ltb_irrefl.
  - intros x y z. rewrite !Z.ltb_lt. lia.
  - intros x y. rewrite !Z.ltb_ge. lia.
  - intros x y. apply Z.eqb_eq.
Qed.

(** C6, as stated, fails: [Train] on the room with [stingy_table] moves the
    player up; three directions are legal in the new state and each has the
    Q-value -5000, but the bootstrap value is the floor -(1 + 1000 + 50 * 1) =
    -1051, and with alpha = gamma = 1 that is what [Train] stores. *)
Lemma Train_bootstrap_counterexample :
  Succeeded room_game || Failed room_game = false ∧
  (λ r, (Action r.1.1.1, NewRow r.1.1.1, r.1.1.2))
    <$> Train 64 tt room_game stingy_table 0 1 1 1 1 50 1000 1000
  = Some (Up, mkRow (-1051) 0 0 0, room_up) ∧
  legal_list (Directions room_up) = [Left; Right; Down] ∧
  claimed_bootstrap stingy_table room_up (-1051) = -5000 ∧
  Train_max_Q stingy_table room_up 1 50 1000 = -1051 ∧
  Train_max_Q stingy_table room_up 1 50 1000 ≠ claimed_bootstrap stingy_table room_up (-1051).
Proof.
  split; [reflexivity|]. split; [vm_compute; reflexivity|].
  split; [reflexivity|]. split; [vm_compute; reflexivity|].
  split; [vm_compute; reflexivity|]. vm_compute. discriminate.
Qed.

Lemma Train_bootstrap_clamped_witness :
  Z.ltb (Train_max_Q stingy_table room_up 1 50 1000) (-1051) = false ∧
  (∀ d, d ∈ legal_list (Directions room_up) →
     Z.ltb (Train_max_Q stingy_table room_up 1 50 1000)
       (QTable_Get stingy_table (State room_up) d) = false) ∧
  (Train_max_Q stingy_table room_up 1 50 1000 = -1051 ∨
   ∃ d, d ∈ legal_list (Directions room_up) ∧
     Train_max_Q stingy_table room_up 1 50 1000 = QTable_Get stingy_table (State room_up) d).
Proof.
  pose proof (Train_bootstrap_clamped (RealType := Z) stingy_table room_up 1 50 1000) as Hb.
  cbv zeta in Hb. destruct Hb as (H1 & H2 & H3 & _).
  split; [exact H1|]. split; [exact H2|exact H3].
Defined.

Lemma FindAction_selection_witness :
  FindAction tt 0 no_game choosy_table = Some (NoDirection, tt) ∧
  FindAction tt 0 corridor_game choosy_table = Some (Right, tt) ∧
  ∃ i choice,
    FindAction tt 0 room_game choosy_table = Some (choice, tt) ∧
    legal_list (Directions room_game) !! i = Some choice ∧
    (∀ d, d ∈ legal_list (Directions room_game) →
       Z.ltb (QTable_Get choosy_table (State room_game) choice)
         (QTable_Get choosy_table (State room_game) d) = false) ∧
    (∀ j d, (j < i)%nat → legal_list (Directions room_game) !! j = Some d →
       Z.ltb (QTable_Get choosy_table (State room_game) d)
         (QTable_Get choosy_table (State room_game) choice) = true).
Proof.
  split; [|split].
  - destruct (FindAction_selection (RealType := Z) tt 0 no_game choosy_table)
      as (Hnone & _ & _); [vm_compute; split; congruence|].
    apply Hnone. reflexivity.
  - destruct (FindAction_selection (RealType := Z) tt 0 corridor_game choosy_table)
      as (_ & Hone & _); [vm_compute; split; congruence|].
    apply Hone. reflexivity.
  - destruct (FindAction_selection (RealType := Z) tt 0 room_game choosy_table)
      as (_ & _ & Hgreedy); [vm_compute; split; congruence|].
    apply Hgreedy.
    + vm_compute. lia.
    + intros Hall.
      assert (Up ∈ legal_list (Directions room_game)) as HUp
        by (vm_compute; apply list_elem_of_here).
      assert (Left ∈ legal_list (Directions room_game)) as HLeft
        by (vm_compute; apply list_elem_of_further, list_elem_of_here).
      specialize (Hall Up Left HUp HLeft). vm_compute in Hall. discriminate Hall.
    + reflexivity.
Defined.

Lemma Train_update_witness :
  ∃ r, Train 64 tt corridor_game (∅ : QTable Z) 0 1 1 1 1 50 1000 1000 = Some r ∧
       QTable_Get r.1.2 (State corridor_game) Right = 1051.
Proof.
  destruct (Train_update 64 corridor_maze tt corridor_game (∅ : QTable Z) 0 1 1 1 1 50
              1000 1000)
    as (a & g' & pushed & rng' & Hfind & Ha & Hmove & Hpushed & Htrain);
    [apply reach_new; vm_compute; reflexivity|reflexivity|reflexivity|].
  cbv zeta in Htrain. destruct Htrain as (Htrain & Hget & _).
  eexists. split; [exact Htrain|].
  vm_compute in Hfind. injection Hfind as <- <-.
  vm_compute in Hmove. injection Hmove as <- <-.
  vm_compute. reflexivity.
Defined.

Local Open Scope Z_scope.

(** X1. In every reachable state the mask [Directions] holds no bit besides
    the four direction bits, and the bit of a direction is set exactly when
    the cell next to the player in that direction is floor and either holds
    no box or holds a box whose next cell in the same direction is floor and
    holds no box. *)
Theorem Directions_exactly_legal (StateBits : N) (maze : string) (g : Game) :
  reachable StateBits maze g →
  0 ≤ Directions g < 16 ∧
  ∀ d, d ∈ AllDirections →
    (Z.land (Directions g) d ≠ 0 ↔
     let dest := step (PlayerPos g) d in
     is_floor g dest = true ∧
     (dest ∉ BoxPos g ∨
      (is_floor g (step dest d) = true ∧ step dest d ∉ BoxPos g))).
Proof.
  intros Hreach.
  destruct (reachable_invariant StateBits maze g Hreach) as (_ & _ & Hcons).
  split; [apply (c_Directions_range _ Hcons)|].
  intros d Hd. rewrite (c_Directions _ Hcons d Hd). unfold legal. cbv zeta.
  rewrite andb_true_iff, orb_true_iff, andb_true_iff, !negb_true_iff, !set_count_false.
  done.
Qed.

Lemma Directions_exactly_legal_witness :
  0 ≤ Directions room_game < 16 ∧
  ∀ d, d ∈ AllDirections →
    (Z.land (Directions room_game) d ≠ 0 ↔
     let dest := step (PlayerPos room_game) d in
     is_floor room_game dest = true ∧
     (dest ∉ BoxPos room_game ∨
      (is_floor room_game (step dest d) = true ∧ step dest d ∉ BoxPos room_game))).
Proof.
  apply (Directions_exactly_legal 64 room_maze room_game).
  apply reach_new. vm_compute. reflexivity.
Defined.

(** X2. A move in a legal unit direction is accepted: the player advances
    one cell, the call returns [true] exactly when that cell held a box, a
    pushed box advances one cell in the same direction and every other box
    stays where it is, the step counter grows by one (modulo 2^64) and the
    state left behind joins the history.  A unit direction that is not legal
    changes nothing and returns [false]. *)
Theorem Move_effect (StateBits : N) (maze : string) (g : Game) (d : Z) :
  reachable StateBits maze g → d ∈ AllDirections →
  let dest := step (PlayerPos g) d in
  if legal g d then
    ∃ g', Move StateBits g d = Some (g', bool_decide (dest ∈ BoxPos g)) ∧
      PlayerPos g' = dest ∧
      (∀ b, b ∈ BoxPos g' ↔ (b ∈ BoxPos g ∧ b ≠ dest) ∨ (dest ∈ BoxPos g ∧ b = step dest d)) ∧
      TimeElapsed g' = (TimeElapsed g + 1) mod 2 ^ 64 ∧
      StateHistory g' = StateHistory g ∪ {[State g]}
  else Move StateBits g d = Some (g, false).
Proof.
  intros Hreach Hd dest.
  pose proof (reachable_invariant StateBits maze g Hreach) as Hinv.
  destruct Hinv as (Hlay & Hpos & Hcons).
  destruct (legal g d) eqn:Hlegal.
  - assert (Z.land (Directions g) d ≠ 0) as Hbit by by apply (c_Directions _ Hcons d Hd).
    assert (((Movement d).1 =? (Movement d).2) = false) as Hmov.
    { destruct (Movement_cases d Hd) as [-> | [-> | [-> | ->]]]; done. }
    destruct (Move_accepted StateBits g d (conj Hlay (conj Hpos Hcons)) Hbit Hmov)
      as (g' & Hm & _ & _ & _ & _ & _ & _ & _ & _ & Hp & Hb & Ht & Hh).
    exists g'. split.
    { rewrite Hm. do 2 f_equal. fold dest.
      destruct (set_count dest (BoxPos g)) eqn:E.
      - apply set_count_true in E. by rewrite bool_decide_eq_true_2.
      - apply set_count_false in E. by rewrite bool_decide_eq_false_2. }
    split; [done|]. split; [|by split].
    intros b. rewrite Hb. unfold moved_boxes. fold dest.
    pose proof (wf_BoxPos_set _ Hpos) as Hset.
    destruct (set_count dest (BoxPos g)) eqn:E.
    + apply set_count_true in E. rewrite elem_of_set_insert, elem_of_set_erase by done.
      naive_solver.
    + apply set_count_false in E. naive_solver.
  - assert (Z.land (Directions g) d = 0) as Hbit.
    { destruct (decide (Z.land (Directions g) d = 0)) as [|Hne]; [done|].
      apply (c_Directions _ Hcons d Hd) in Hne. congruence. }
    unfold Move, DoMove. by rewrite Hbit.
Qed.

Lemma Move_effect_witness :
  ∃ g', Move 64 room_game Right = Some (g', true) ∧
    PlayerPos g' = (2, 3) ∧ (∀ b, b ∈ BoxPos g' ↔ b = (2, 4)).
Proof.
  pose proof (Move_effect 64 room_maze room_game Right (reach_new _ _ _ room_game_new)
                ltac:(repeat first [apply list_elem_of_here | apply list_elem_of_further])) as Hm.
  change (legal room_game Right) with true in Hm. cbv zeta in Hm.
  destruct Hm as (g' & Hm & Hp & Hb & _).
  exists g'. split; [|split].
  - rewrite Hm. reflexivity.
  - exact Hp.
  - intros b. rewrite Hb. split.
    + intros [[Hin Hne] | [_ ->]]; [|reflexivity].
      apply list_elem_of_singleton in Hin. subst b. by destruct Hne.
    + intros ->. right. split; [apply list_elem_of_here|reflexivity].
Defined.

(** X3. [Move] and [Restart] never change what the constructor read from the
    maze text: the size of the grid, the numbering of the floor cells, the
    width of a state field, the goals, and the start cells of the player and
    of the boxes. *)
Theorem layout_never_changes (StateBits : N) (maze : string) (g0 g : Game) :
  Game_new StateBits maze = Done g0 → reachable StateBits maze g →
  Height g = Height g0 ∧ Width g = Width g0 ∧ FloorBits g = FloorBits g0 ∧
  FloorIndex g = FloorIndex g0 ∧ GoalPos g = GoalPos g0 ∧
  BoxPos0 g = BoxPos0 g0 ∧ PlayerPos0 g = PlayerPos0 g0.
Proof.
  intros Hnew Hreach. exact (reachable_layout StateBits maze g0 g Hnew Hreach).
Qed.

Lemma layout_never_changes_witness :
  Height room_up = Height room_game ∧ Width room_up = Width room_game ∧
  FloorBits room_up = FloorBits room_game ∧ FloorIndex room_up = FloorIndex room_game ∧
  GoalPos room_up = GoalPos room_game ∧ BoxPos0 room_up = BoxPos0 room_game ∧
  PlayerPos0 room_up = PlayerPos0 room_game.
Proof.
  apply (layout_never_changes 64 room_maze room_game room_up room_game_new).
  apply (reach_move 64 room_maze room_game Up room_up false).
  - apply reach_new. exact room_game_new.
  - vm_compute. reflexivity.
Defined.

(** X4. A reachable state in which no direction is legal is terminal: it is
    a success or it is flagged as failed. *)
Theorem no_move_is_terminal (StateBits : N) (maze : string) (g : Game) :
  reachable StateBits maze g → Directions g = 0 →
  Succeeded g = true ∨ Failed g = true.
Proof.
  intros Hreach Hdir.
  pose proof (reachable_invariant StateBits maze g Hreach) as Hinv.
  destruct (Succeeded g) eqn:Hs; [by left|]. destruct (Failed g) eqn:Hf; [by right|].
  pose proof (nonterminal_has_direction StateBits g Hinv Hs Hf). lia.
Qed.

Lemma no_move_is_terminal_witness :
  Directions walled_game = 0 ∧ (Succeeded walled_game = true ∨ Failed walled_game = true).
Proof.
  split; [reflexivity|].
  apply (no_move_is_terminal 64 walled_maze walled_game); [|reflexivity].
  apply reach_new. vm_compute. reflexivity.
Defined.

(** X5. The encoded state of a reachable game is a number below
    [2 ^ (FloorBits * (number of boxes + 1))], and that bound is at most
    [2 ^ StateBits]: the key fits the bitset and no floor index is cut off. *)
Theorem State_fits (StateBits : N) (maze : string) (g : Game) :
  reachable StateBits maze g →
  0 ≤ State g < 2 ^ (FloorBits g * (Z.of_nat (length (BoxPos0 g)) + 1)) ∧
  2 ^ (FloorBits g * (Z.of_nat (length (BoxPos0 g)) + 1)) ≤ 2 ^ Z.of_N StateBits.
Proof.
  intros Hreach.
  destruct (reachable_invariant StateBits maze g Hreach) as (Hlay & Hpos & Hcons).
  pose proof (wf_FloorBits _ _ Hlay) as Hfb.
  split.
  - rewrite (c_State _ Hcons). unfold encoded_state.
    pose proof (pack_bound (FloorBits g)
                  (floor_index g (PlayerPos g) :: map (floor_index g) (BoxPos g))
                  (proj1 Hfb)) as Hb.
    simpl length in Hb. rewrite length_map, (wf_BoxPos_length _ Hpos) in Hb.
    replace (Z.of_nat (length (BoxPos0 g)) + 1) with (Z.of_nat (S (length (BoxPos0 g)))) by lia.
    apply Hb. constructor.
    + split; [apply is_floor_index, (wf_PlayerPos _ Hpos) | apply (wf_index _ _ Hlay)].
    + apply Forall_map. eapply Forall_impl; [apply (wf_BoxPos_floor _ Hpos)|].
      intros b Hb'. simpl. split; [by apply is_floor_index | apply (wf_index _ _ Hlay)].
  - apply Z.pow_le_mono_r; [lia|]. apply (wf_capacity _ _ Hlay).
Qed.

Lemma State_fits_witness :
  0 ≤ State room_game < 2 ^ (FloorBits room_game * (Z.of_nat (length (BoxPos0 room_game)) + 1)) ∧
  2 ^ (FloorBits room_game * (Z.of_nat (length (BoxPos0 room_game)) + 1)) ≤ 2 ^ Z.of_N 64.
Proof.
  apply (State_fits 64 room_maze room_game). apply reach_new. exact room_game_new.
Defined.

(** * The Q-table as a store *)

Section QTableStore.
Context {RealType : Type} `{RealArith RealType}.

Lemma not_direction_eqb a :
  a ∉ AllDirections →
  (a =? Up) = false ∧ (a =? Left) = false ∧ (a =? Right) = false ∧ (a =? Down) = false.
Proof.
  intros Ha. repeat split; apply Z.eqb_neq; intros ->; apply Ha;
    repeat first [apply list_elem_of_here | apply list_elem_of_further].
Qed.

(** X6. The two [Get] overloads agree: the row of a state holds the values
    of Up, Left, Right and Down in this order.  [Set] with a direction makes
    the row of the state hold the new value in the slot of that direction and
    the old values (zeros for a state not yet stored) in the other three, and
    leaves every other row alone; [Set] with a whole row stores that row and
    leaves every other row alone. *)
Theorem QTable_rows (Q : QTable RealType) (state : Z) :
  QTable_GetRow Q state
  = mkRow (QTable_Get Q state Up) (QTable_Get Q state Left)
      (QTable_Get Q state Right) (QTable_Get Q state Down) ∧
  (∀ value,
     QTable_GetRow (QTable_Set Q state Up value) state
     = mkRow value (QTable_Get Q state Left) (QTable_Get Q state Right)
         (QTable_Get Q state Down) ∧
     QTable_GetRow (QTable_Set Q state Left value) state
     = mkRow (QTable_Get Q state Up) value (QTable_Get Q state Right)
         (QTable_Get Q state Down) ∧
     QTable_GetRow (QTable_Set Q state Right value) state
     = mkRow (QTable_Get Q state Up) (QTable_Get Q state Left) value
         (QTable_Get Q state Down) ∧
     QTable_GetRow (QTable_Set Q state Down value) state
     = mkRow (QTable_Get Q state Up) (QTable_Get Q state Left)
         (QTable_Get Q state Right) value) ∧
  (∀ action value state', state' ≠ state →
     QTable_GetRow (QTable_Set Q state action value) state' = QTable_GetRow Q state') ∧
  (∀ row, QTable_GetRow (QTable_SetRow Q state row) state = row) ∧
  (∀ row state', state' ≠ state →
     QTable_GetRow (QTable_SetRow Q state row) state' = QTable_GetRow Q state').
Proof.
  unfold QTable_GetRow, QTable_Get, QTable_Set, QTable_SetRow, zero_row, QTable in *.
  split; [|split; [|split; [|split]]].
  - destruct (Q !! state) as [[a b c d]|]; reflexivity.
  - intros value. cbn [Z.eqb Up Left Right Down Pos.eqb].
    rewrite !lookup_insert_eq. by destruct (Q !! state) as [[a b c d]|].
  - intros action value state' Hne.
    repeat match goal with
    | |- context [?a =? ?b] => destruct (Z.eqb_spec a b)
    end; by rewrite ?lookup_insert_ne.
  - intros row. by rewrite lookup_insert_eq.
  - intros row state' Hne. by rewrite lookup_insert_ne.
Qed.

(** X7. A state that was never stored reads as zeros, through both [Get]
    overloads, and [Check] is what tells it from a stored row of zeros.  An
    action that is none of the four directions reads as zero and [Set] with
    it stores nothing, not even an empty row; [Set] with a direction and
    [Set] with a row make [Check] answer [true] for their state and leave
    its answer for every other state as it was. *)
Theorem QTable_absent_states_and_actions (Q : QTable RealType) (state : Z) :
  QTable_Check (∅ : QTable RealType) state = false ∧
  (QTable_Check Q state = false →
   QTable_GetRow Q state = zero_row ∧ ∀ action, QTable_Get Q state action = real_of 0) ∧
  (∀ action, action ∉ AllDirections → QTable_Get Q state action = real_of 0) ∧
  (∀ action value, action ∉ AllDirections → QTable_Set Q state action value = Q) ∧
  (∀ action value, action ∈ AllDirections →
     QTable_Check (QTable_Set Q state action value) state = true) ∧
  (∀ row, QTable_Check (QTable_SetRow Q state row) state = true) ∧
  (∀ action value state', state' ≠ state →
     QTable_Check (QTable_Set Q state action value) state' = QTable_Check Q state') ∧
  (∀ row state', state' ≠ state →
     QTable_Check (QTable_SetRow Q state row) state' = QTable_Check Q state').
Proof.
  unfold QTable_Check, QTable_GetRow, QTable_Get, QTable_Set, QTable_SetRow, QTable in *.
  split; [|split; [|split; [|split; [|split; [|split; [|split]]]]]].
  - apply bool_decide_eq_false_2. rewrite lookup_empty. by intros [? ?].
  - intros Hc. apply bool_decide_eq_false_1 in Hc.
    destruct (Q !! state) as [row|]; [by destruct Hc|]. done.
  - intros action (-> & -> & -> & ->)%not_direction_eqb. by destruct (Q !! state).
  - intros action value (-> & -> & -> & ->)%not_direction_eqb. done.
  - intros action value [-> | [-> | [-> | ->]]]%AllDirections_cases;
      cbn [Z.eqb Up Left Right Down Pos.eqb]; apply bool_decide_eq_true_2;
      by rewrite lookup_insert_eq.
  - intros row. apply bool_decide_eq_true_2. by rewrite lookup_insert_eq.
  - intros action value state' Hne.
    repeat match goal with
    | |- context [?a =? ?b] => destruct (Z.eqb_spec a b)
    end; by rewrite ?lookup_insert_ne.
  - intros row state' Hne. by rewrite lookup_insert_ne.
Qed.

End QTableStore.

(** * Exploration and the training step *)

(** Skipping [k] legal directions leaves the direction number [k] of the
    scan order as the lowest bit. *)
Lemma FindAction_skip_nth actions k :
  0 < actions < 16 → 0 ≤ k < Z.of_nat (length (legal_list actions)) →
  legal_list actions !! Z.to_nat k
  = Some (to_DirectionInt (Z.land (FindAction_skip (to_BitsInt k) actions)
                             (- FindAction_skip (to_BitsInt k) actions))).
Proof.
  intros Hmask Hk.
  assert (k = 0 ∨ k = 1 ∨ k = 2 ∨ k = 3) as Hcases.
  { assert (length (legal_list actions) ≤ 4)%nat; [|lia].
    unfold legal_list. etrans; [apply List.filter_length_le|]. done. }
  destruct (mask_cases actions Hmask)
    as [-> | [-> | [-> | [-> | [-> | [-> | [-> | [-> | [-> | [-> | [-> | [-> | [->
        | [-> | ->]]]]]]]]]]]]]];
    destruct Hcases as [-> | [-> | [-> | ->]]];
    first [ by (vm_compute in Hk; destruct Hk as [_ Hk]; discriminate Hk)
          | vm_compute; reflexivity ].
Qed.

Section Exploration.
Context {RealType : Type} `{RealOrder RealType}.
Context {Table : Type} `{IQTable RealType Table}.
Context {Generator Double : Type} `{URNG Generator Double}.

(** X8. When at least two directions are legal and either their Q-values
    are all equal or the uniform draw from [0, 1) is below [epsilon],
    [FindAction] explores: it draws an index between 0 and the number of
    legal directions minus one and returns the legal direction at that index
    of the scan order Up, Left, Right, Down, whatever the Q-values are. *)
Theorem FindAction_explores (rng : Generator) (eps : Double) (g : Game) (Q : Table) :
  0 ≤ Directions g < 16 →
  (2 ≤ length (legal_list (Directions g)))%nat →
  (∀ d d', d ∈ legal_list (Directions g) → d' ∈ legal_list (Directions g) →
     Q_Get Q (State g) d = Q_Get Q (State g) d')
  ∨ double_lt (uniform_real rng).1 eps = true →
  let count := Z.of_nat (length (legal_list (Directions g))) in
  let draw := uniform_int 0 (count - 1) (uniform_real rng).2 in
  0 ≤ draw.1 < count ∧
  ∃ d, FindAction rng eps g Q = Some (d, draw.2) ∧
       legal_list (Directions g) !! Z.to_nat draw.1 = Some d.
Proof.
  intros Hrange Hlen Hexplore count draw.
  assert (0 < Directions g < 16) as Hmask.
  { destruct (decide (Directions g = 0)) as [Hz|]; [|lia].
    rewrite Hz in Hlen. simpl in Hlen. lia. }
  destruct (FindAction_loop_list Q (State g) (Directions g) Hmask)
    as (first & rest & s & HL & Hloop & Hscan).
  destruct (scan_list_spec Q (State g) first rest)
    as (all_same & last_Q & choice & i & Hscan' & Hsame & _).
  rewrite Hscan in Hscan'. injection Hscan' as Hall Hcount _ _ _.
  assert (fs_action_count s = count) as Hn by (unfold count; by rewrite HL).
  pose proof (uniform_int_range 0 (count - 1) (uniform_real rng).2 ltac:(lia)) as Hdraw.
  fold draw in Hdraw. split; [lia|].
  rewrite (FindAction_unfold rng eps g Q s) by (done || lia).
  rewrite Hn. fold draw.
  replace (count =? 1) with false by (symmetry; apply Z.eqb_neq; lia).
  assert (fs_all_same s || double_lt (uniform_real rng).1 eps = true) as ->.
  { destruct Hexplore as [Heq | ->]; [|by rewrite orb_true_r].
    rewrite Hall. replace all_same with true; [done|]. symmetry. apply Hsame.
    intros d Hd. apply Heq; rewrite HL; [done|apply list_elem_of_here]. }
  eexists. split; [reflexivity|].
  apply FindAction_skip_nth; [done|]. fold count. lia.
Qed.

End Exploration.

Section TrainingStep.
Variable StateBits : N.
Context {RealType : Type} `{RealArith RealType}.
Context {Table : Type} `{IQTable RealType Table}.
Context {Generator Double : Type} `{URNG Generator Double}.

(** X9. On every reachable game, with any table and any random source,
    [Train] returns, and the game it leaves is reachable again.  The result
    names the state the step started from and the row that state had.  Its
    action is [NoDirection] exactly when the game was terminal: then the
    game is restarted, and the table, the random source and the row are
    left as they were.  Otherwise the action is a legal direction and the
    move is carried out: the player stands one cell further in that
    direction. *)
Theorem Train_total (maze : string) (rng : Generator) (g : Game) (Q : Table)
    (epsilon : Double)
    (alpha gamma retrace_penalty push_reward goal_reward failure_penalty success_reward
       : RealType) :
  reachable StateBits maze g →
  ∃ r g' Q' rng',
    Train StateBits rng g Q epsilon alpha gamma retrace_penalty push_reward goal_reward
      failure_penalty success_reward = Some (r, g', Q', rng') ∧
    reachable StateBits maze g' ∧
    LastState r = State g ∧ OldRow r = Q_GetRow Q (State g) ∧
    (Action r = NoDirection ↔ Succeeded g || Failed g = true) ∧
    (Succeeded g || Failed g = true →
     Restart StateBits g = Some g' ∧ Q' = Q ∧ rng' = rng ∧ NewRow r = OldRow r) ∧
    (Succeeded g || Failed g = false →
     Action r ∈ legal_list (Directions g) ∧
     (∃ pushed, Move StateBits g (Action r) = Some (g', pushed)) ∧
     PlayerPos g' = step (PlayerPos g) (Action r) ∧
     NewRow r = Q_GetRow Q' (State g)).
Proof.
  intros Hreach.
  pose proof (reachable_invariant _ _ _ Hreach) as Hinv.
  unfold Train. destruct (Succeeded g || Failed g) eqn:Hterm.
  - destruct (Restart_spec StateBits g Hinv) as (g' & Hr & _).
    rewrite Hr. cbn [mbind option_bind]. eexists _, g', Q, rng.
    split; [reflexivity|]. split; [by eapply reach_restart|]. simpl.
    split; [done|]. split; [done|]. split; [done|]. split; [done|]. done.
  - apply orb_false_iff in Hterm as [Hs Hf].
    pose proof (nonterminal_has_direction _ _ Hinv Hs Hf) as Hmask.
    destruct (FindAction_legal rng epsilon g Q Hmask) as (a & rng' & Hfind & Ha).
    pose proof Ha as [Hunit Hland]%elem_of_legal_list.
    assert (((Movement a).1 =? (Movement a).2) = false) as Hmov.
    { by apply AllDirections_cases in Hunit as [-> | [-> | [-> | ->]]]. }
    destruct (Move_accepted StateBits g a Hinv Hland Hmov)
      as (g' & Hmove & _ & _ & _ & _ & _ & _ & _ & _ & Hp & _).
    rewrite Hfind. cbn [mbind option_bind]. rewrite Hmove. cbn [mbind option_bind].
    eexists _, g', _, rng'. split; [reflexivity|].
    split; [by eapply reach_move|]. simpl.
    split; [done|]. split; [done|]. split.
    { split; [|done]. intros ->.
      by apply AllDirections_cases in Hunit as [? | [? | [? | ?]]]. }
    split; [done|]. intros _. split; [done|]. split; [by eexists|]. by split.
Qed.

End TrainingStep.

Lemma FindAction_explores_witness :
  FindAction tt 1 room_game choosy_table = Some (Up, tt) ∧
  legal_list (Directions room_game) !! 0%nat = Some Up.
Proof.
  destruct (FindAction_explores (RealType := Z) tt 1 room_game choosy_table)
    as (_ & d & Hfind & Hd).
  - vm_compute. split; congruence.
  - vm_compute. lia.
  - right. reflexivity.
  - vm_compute in Hd. injection Hd as <-. split; [exact Hfind|reflexivity].
Defined.

Lemma Train_total_witness :
  ∃ r g' Q' rng',
    Train 64 tt corridor_game (∅ : QTable Z) 0 1 1 1 1 50 1000 1000 = Some (r, g', Q', rng') ∧
    reachable 64 corridor_maze g' ∧ Action r = Right.
Proof.
  destruct (Train_total 64 corridor_maze tt corridor_game (∅ : QTable Z) 0 1 1 1 1 50
              1000 1000)
    as (r & g' & Q' & rng' & Htrain & Hreach & _);
    [apply reach_new; exact corridor_game_new|].
  exists r, g', Q', rng'. split; [exact Htrain|]. split; [exact Hreach|].
  vm_compute in Htrain. by injection Htrain as <- _ _ _.
Defined.

(** * The constructor, cell by cell *)

Lemma is_set_snoc (l : list Pos) (x : Pos) :
  is_set l → Forall (λ p, pos_lt p x) l → is_set (l ++ [x]).
Proof.
  unfold is_set. induction l as [|q l IH]; intros Hl Hx; simpl.
  - repeat constructor.
  - apply StronglySorted_inv in Hl as [Hl Hq]. apply Forall_cons in Hx as [Hqx Hx].
    constructor; [by apply IH|]. apply Forall_app. split; [done|]. by constructor.
Qed.

Lemma is_set_filter (P : Pos → bool) (l : list Pos) :
  is_set l → is_set (List.filter P l).
Proof.
  unfold is_set. induction l as [|q l IH]; intros Hl; simpl; [constructor|].
  apply StronglySorted_inv in Hl as [Hl Hq].
  destruct (P q); [|by apply IH]. constructor; [by apply IH|].
  rewrite Forall_forall in *. intros p Hp. apply Hq.
  apply list_elem_of_In in Hp. apply filter_In in Hp as [Hp _]. by apply list_elem_of_In.
Qed.

Lemma elem_of_List_filter {A} (P : A → bool) (l : list A) x :
  x ∈ List.filter P l ↔ x ∈ l ∧ P x = true.
Proof. by rewrite !list_elem_of_In, filter_In. Qed.

(** The queue of floor cells grows in reading order. *)
Lemma Scan_step_floor_sorted s c s' :
  scan_ok s → is_set (sc_floor s) → Scan_step_normal s c = inr s' → is_set (sc_floor s').
Proof.
  intros Hs Hsorted. unfold Scan_step_normal.
  destruct (is_carriage_return c); [by intros [= <-]|].
  destruct (is_newline c).
  { destruct (124 <=? sc_line s); [done|]. by intros [= <-]. }
  destruct (124 <=? sc_col s); [done|].
  destruct (is_player_char c && has_player s); [done|]. intros [= <-]. simpl.
  destruct (is_floor_char c); [|done]. apply is_set_snoc; [done|].
  apply Forall_forall. intros p Hp%(so_floor _ Hs).
  unfold pos_lt. apply pos_ltb_spec. simpl. lia.
Qed.

Lemma Scan_loop_floor_sorted text s s' :
  scan_ok s → is_set (sc_floor s) → Scan_loop s text = inr s' → is_set (sc_floor s').
Proof.
  revert s. induction text as [|c text IH]; intros s Hs Hsorted; simpl.
  { by intros [= <-]. }
  rewrite Scan_step_normal_eq by done.
  destruct (Scan_step_normal s c) as [e|s1] eqn:Hstep; [done|].
  apply IH; [by eapply Scan_step_ok|by eapply Scan_step_floor_sorted].
Qed.

Lemma Scan_loop_ok text s s' : scan_ok s → Scan_loop s text = inr s' → scan_ok s'.
Proof.
  intros Hs Hloop. pose proof (Scan_loop_spec text s Hs) as Hspec.
  rewrite Hloop in Hspec. tauto.
Qed.

Lemma cells_where_cons P p c cells :
  cells_where P ((p, c) :: cells)
  = if P c then p :: cells_where P cells else cells_where P cells.
Proof. unfold cells_where. simpl. by destruct (P c). Qed.

Lemma cells_where_count P line col text :
  P carriage_return = false → P newline = false →
  Z.of_nat (length (cells_where P (text_cells line col text))) = count_chars P text.
Proof.
  intros Hcr Hnl. revert line col.
  induction text as [|c text IH]; intros line col; simpl; [done|].
  unfold is_carriage_return, is_newline.
  destruct (Ascii.eqb_spec c carriage_return) as [->|_]; [rewrite Hcr, IH; lia|].
  destruct (Ascii.eqb_spec c newline) as [->|_]; [rewrite Hnl, IH; lia|].
  rewrite cells_where_cons. destruct (P c); simpl; rewrite <- (IH line (col + 1)); lia.
Qed.

(** A text without a player symbol leaves the player's cell as it was. *)
Lemma Scan_loop_no_player text s s' :
  scan_ok s → Scan_loop s text = inr s' → player_count text = 0 →
  sc_PlayerPos0 s' = sc_PlayerPos0 s.
Proof.
  revert s. induction text as [|c text IH]; intros s Hs; simpl.
  { by intros [= <-]. }
  rewrite Scan_step_normal_eq by done.
  destruct (Scan_step_normal s c) as [e|s1] eqn:Hstep; [done|].
  intros Hloop Hcount. unfold player_count in *. simpl in Hcount.
  pose proof (count_chars_nonneg is_player_char text).
  destruct (is_player_char c) eqn:Epl; [lia|].
  rewrite (IH s1); [|by eapply Scan_step_ok|done|lia].
  unfold Scan_step_normal in Hstep.
  destruct (is_carriage_return c); [by injection Hstep as <-|].
  destruct (is_newline c).
  { destruct (124 <=? sc_line s); [done|]. by injection Hstep as <-. }
  destruct (124 <=? sc_col s); [done|]. rewrite Epl in Hstep. simpl in Hstep.
  by injection Hstep as <-.
Qed.

(** What the scanning loop collects, in terms of the cells of the text. *)
Lemma Scan_loop_cells text s s' :
  scan_ok s → Scan_loop s text = inr s' →
  let cells := text_cells (sc_line s) (sc_col s + 1) text in
  sc_floor s' = sc_floor s ++ cells_where is_floor_char cells ∧
  (∀ p, p ∈ sc_BoxPos0 s' ↔ p ∈ sc_BoxPos0 s ∨ p ∈ cells_where is_box_char cells) ∧
  (∀ p, p ∈ sc_GoalPos s' ↔ p ∈ sc_GoalPos s ∨ p ∈ cells_where is_goal_char cells) ∧
  (has_player s = false →
   ∀ p, p ∈ cells_where is_player_char cells → sc_PlayerPos0 s' = p).
Proof.
  revert s. induction text as [|c text IH]; intros s Hs; cbn [Scan_loop text_cells].
  { intros [= <-]. cbv zeta. unfold cells_where. simpl. rewrite app_nil_r.
    split; [done|]. split; [set_solver|]. split; [set_solver|]. set_solver. }
  rewrite Scan_step_normal_eq by done.
  destruct (Scan_step_normal s c) as [e|s1] eqn:Hstep; [done|]. intros Hloop.
  pose proof (Scan_step_ok s c s1 Hs Hstep) as Hs1.
  specialize (IH s1 Hs1 Hloop). cbv zeta in IH.
  destruct IH as (IHf & IHb & IHg & IHp). cbv zeta.
  unfold Scan_step_normal in Hstep.
  destruct (is_carriage_return c); [by injection Hstep as <-|].
  destruct (is_newline c).
  { destruct (124 <=? sc_line s); [done|]. injection Hstep as <-.
    simpl in *. by change (-1 + 1) with 0 in *. }
  destruct (124 <=? sc_col s); [done|].
  destruct (is_player_char c && has_player s) eqn:Epl; [done|]. injection Hstep as <-.
  cbn [sc_line sc_col sc_floor sc_BoxPos0 sc_GoalPos sc_PlayerPos0] in *.
  rewrite !cells_where_cons. split; [|split; [|split]].
  - rewrite IHf. destruct (is_floor_char c); [|done]. by rewrite <- app_assoc.
  - intros p. rewrite IHb. destruct (is_box_char c); [|done].
    rewrite elem_of_set_insert, elem_of_cons. tauto.
  - intros p. rewrite IHg. destruct (is_goal_char c); [|done].
    rewrite elem_of_set_insert, elem_of_cons. tauto.
  - intros Hnone. rewrite Hnone, andb_false_r in Epl. clear Epl.
    destruct (is_player_char c) eqn:Ec.
    + pose proof (Scan_loop_spec text _ Hs1) as Hspec. rewrite Hloop in Hspec.
      destruct Hspec as (Hs' & _ & _ & Hflag & _).
      assert (player_count text = 0) as Hzero.
      { pose proof (count_chars_nonneg is_player_char text). unfold player_count in *.
        unfold player_flag, has_player in Hflag. simpl in Hflag.
        pose proof (so_line _ Hs). pose proof (so_col _ Hs).
        replace (0 <=? sc_line s + (sc_col s + 1)) with true in Hflag
          by (symmetry; apply Z.leb_le; lia).
        destruct (0 <=? _) in Hflag; lia. }
      pose proof (cells_where_count is_player_char (sc_line s) (sc_col s + 1 + 1) text
                    eq_refl eq_refl) as Hlen.
      unfold player_count in Hzero. rewrite Hzero in Hlen.
      destruct (cells_where is_player_char _) as [|? ?]; [|simpl in Hlen; lia].
      intros p ->%list_elem_of_singleton.
      by rewrite (Scan_loop_no_player text _ s' Hs1 Hloop Hzero).
    + apply IHp. done.
Qed.

(** ** Numbering in queue order *)

(** [FloorIndex_fill] gives every cell of a duplicate-free queue its place
    in the queue, and leaves [-1] everywhere else. *)
Lemma FloorIndex_fill_index h w (floor : list Pos) :
  Forall (λ p : Pos, 0 ≤ p.1 < h ∧ 0 ≤ p.2 < w) floor → NoDup floor →
  Z.of_nat (length floor) < 32768 →
  ∃ fi, FloorIndex_fill h w floor = Some fi ∧ dims fi h w ∧
    (∀ k p, floor !! k = Some p → vec2_get fi p.1 p.2 = Some (Z.of_nat k)) ∧
    (∀ p : Pos, 0 ≤ p.1 < h → 0 ≤ p.2 < w → p ∉ floor → vec2_get fi p.1 p.2 = Some (-1)).
Proof.
  intros Hfloor Hnodup Hlen. unfold FloorIndex_fill.
  edestruct (foldM_invariant
    (λ (done : list Pos) (acc : list (list Z) * Z),
       dims acc.1 h w ∧ acc.2 = Z.of_nat (length done) - 1 ∧
       (∀ k p, done !! k = Some p → vec2_get acc.1 p.1 p.2 = Some (Z.of_nat k)) ∧
       (∀ p : Pos, 0 ≤ p.1 < h → 0 ≤ p.2 < w → p ∉ done →
          vec2_get acc.1 p.1 p.2 = Some (-1))))
    as ([fi idx] & Hfold & Hd & _ & Hidx & Hrest); [| |rewrite Hfold].
  - simpl. split; [apply dims_replicate|]. split; [done|]. split; [done|].
    intros p Hp1 Hp2 _. by apply vec2_get_replicate.
  - intros done p rest [fi idx] Hl (Hd & Hidx & Hdone & Hrest). simpl in *. subst idx.
    rewrite Hl in Hfloor. apply Forall_app in Hfloor as [_ [Hp _]%Forall_cons].
    assert (Z.of_nat (length done) < Z.of_nat (length floor)) as Hdone'.
    { rewrite Hl, length_app. simpl. lia. }
    assert (p ∉ done) as Hfresh.
    { rewrite Hl in Hnodup. apply NoDup_app in Hnodup as (_ & Hdisj & _).
      intros Hin. apply (Hdisj p Hin). apply list_elem_of_here. }
    rewrite to_SizeInt_small by lia.
    destruct (vec2_set_is_Some fi p.1 p.2 (Z.of_nat (length done) - 1 + 1)) as [fi' Hfi'].
    { destruct Hp. by apply (vec2_get_dims _ h w). }
    rewrite Hfi'. simpl. eexists (_, _). split; [done|]. simpl.
    split; [by eapply vec2_set_dims|]. split; [rewrite length_app; simpl; lia|]. split.
    + intros k q Hk. rewrite (vec2_get_set _ _ _ _ _ _ _ Hfi').
      apply lookup_app_Some in Hk as [Hk | [Hge Hk]].
      * rewrite decide_False; [by apply Hdone|].
        intros Heq. apply Hfresh. replace p with q by (destruct p, q; simpl in *; congruence).
        by eapply list_elem_of_lookup_2.
      * destruct (k - length done)%nat as [|n] eqn:E; [|by destruct n].
        simpl in Hk. injection Hk as <-. rewrite decide_True by done. f_equal. lia.
    + intros q Hq1 Hq2 Hq. rewrite (vec2_get_set _ _ _ _ _ _ _ Hfi').
      rewrite decide_False.
      * apply Hrest; [done|done|]. intros Hin. apply Hq. apply elem_of_app. by left.
      * intros Heq. apply Hq. apply elem_of_app. right.
        replace q with p by (destruct p, q; simpl in *; congruence). apply list_elem_of_here.
  - simpl in *. exists fi. done.
Qed.

(** ** The grid in reading order *)

Lemma elem_of_grid_list g p : p ∈ grid_list g ↔ in_grid g p.
Proof.
  unfold grid_list, in_grid. rewrite list_elem_of_In. destruct p as [i j].
  rewrite in_prod_iff, <- !list_elem_of_In, !elem_of_seqZ. simpl. lia.
Qed.

Lemma is_set_app (l1 l2 : list Pos) :
  is_set l1 → is_set l2 → (∀ p q, p ∈ l1 → q ∈ l2 → pos_lt p q) → is_set (l1 ++ l2).
Proof.
  unfold is_set. induction l1 as [|x l1 IH]; intros H1 H2 Hlt; simpl; [done|].
  apply StronglySorted_inv in H1 as [H1 Hx]. constructor.
  - apply IH; [done|done|]. intros p q Hp Hq. apply Hlt; [by right|done].
  - apply Forall_app. split; [done|]. apply Forall_forall. intros q Hq.
    apply Hlt; [apply list_elem_of_here|done].
Qed.

Lemma StronglySorted_seqZ m n : StronglySorted Z.lt (seqZ m n).
Proof.
  destruct (decide (n ≤ 0)) as [Hn|Hn]; [rewrite seqZ_nil by done; constructor|].
  rewrite <- (Z2Nat.id n) by lia. generalize (Z.to_nat n). clear. intros k. revert m.
  induction k as [|k IH]; intros m; [rewrite seqZ_nil by done; constructor|].
  rewrite seqZ_cons by lia. constructor.
  - replace (Z.pred (Z.of_nat (S k))) with (Z.of_nat k) by lia. apply IH.
  - apply Forall_seqZ. lia.
Qed.

Lemma is_set_list_prod (rows cols : list Z) :
  StronglySorted Z.lt rows → StronglySorted Z.lt cols → is_set (list_prod rows cols).
Proof.
  intros Hrows Hcols. induction Hrows as [|i rows Hs IH Hi]; simpl; [constructor|].
  apply is_set_app; [|done|].
  - clear -Hcols. unfold is_set.
    induction Hcols as [|j cols Hs IH Hj]; simpl; constructor; [done|].
    apply Forall_map. eapply Forall_impl; [exact Hj|]. intros j' Hlt.
    unfold pos_lt. apply pos_ltb_spec. simpl. lia.
  - intros p [i' j'] Hp Hq. apply list_elem_of_fmap in Hp as (j & -> & _).
    apply list_elem_of_In, in_prod_iff in Hq as [Hq _]. apply list_elem_of_In in Hq.
    rewrite Forall_forall in Hi. specialize (Hi i' Hq).
    unfold pos_lt. apply pos_ltb_spec. simpl. lia.
Qed.

Lemma is_set_grid_list g : is_set (grid_list g).
Proof. apply is_set_list_prod; apply StronglySorted_seqZ. Qed.

Lemma is_set_grid_floor g : is_set (grid_floor g).
Proof. apply is_set_filter, is_set_grid_list. Qed.

Lemma elem_of_grid_floor g p : p ∈ grid_floor g ↔ is_floor g p = true.
Proof.
  unfold grid_floor. rewrite elem_of_List_filter, elem_of_grid_list.
  split; [tauto|]. intros Hp. split; [by apply is_floor_in_grid|done].
Qed.

(** ** The constructor after the scan *)

Section ConstructorCases.
Variable StateBits : N.

(** The checks that follow the scanning loop, on what the loop collected. *)
Lemma Game_new_scanned maze s :
  Scan_loop Scan_init (maze_text maze) = inr s →
  Game_new StateBits maze
  = if negb (has_player s) then Throws (MkError "No Player")
    else if Nat.eqb (length (sc_BoxPos0 s)) 0 then Throws (MkError "No Box")
    else if (length (sc_GoalPos s) <? length (sc_BoxPos0 s))%nat
    then Throws (MkError "Too Few Goals")
    else if Z.of_N StateBits
            <? Z.log2_up (Z.of_nat (length (sc_floor s)))
               * (Z.of_nat (length (sc_BoxPos0 s)) + 1)
    then Throws (MkError "Maze Too Large")
    else
      of_option
        (fi ← FloorIndex_fill (sc_Height s) (sc_Width s) (sc_floor s);
         DoRestart StateBits
           (mkGame false false 0 (sc_Height s) (sc_Width s)
              (Z.log2_up (Z.of_nat (length (sc_floor s)))) 0 0 0
              (sc_PlayerPos0 s) (0, 0) (sc_BoxPos0 s) [] (sc_GoalPos s) [] fi ∅)).
Proof.
  intros Hscan. unfold Game_new. fold (maze_text maze). rewrite Hscan.
  remember (FloorBits_loop SizeInt_bits) as loop eqn:Hloop.
  pose proof (Scan_loop_ok _ _ _ scan_ok_init Hscan) as Hs.
  pose proof (so_line _ Hs) as Hl. pose proof (so_col _ Hs) as Hc.
  pose proof (so_count _ Hs) as Hcount.
  destruct (has_player s) eqn:Hhas; cbn [negb].
  - pose proof Hhas as Hsum. unfold has_player in Hsum. apply Z.leb_le in Hsum.
    replace ((sc_PlayerPos0 s).1 + (sc_PlayerPos0 s).2 =? -2) with false
      by (symmetry; apply Z.eqb_neq; lia).
    destruct (Nat.eqb (length (sc_BoxPos0 s)) 0) eqn:Eb; [done|].
    destruct (length (sc_GoalPos s) <? length (sc_BoxPos0 s))%nat eqn:Eg; [done|].
    assert (1 ≤ Z.of_nat (length (sc_floor s)) ≤ 15625) as Hn.
    { split; [|lia]. apply (scan_ok_has_player s Hs) in Hhas.
      destruct (sc_floor s); [by apply elem_of_nil in Hhas|]. simpl. lia. }
    subst loop. rewrite FloorBits_value by done.
    pose proof (log2_up_floor_range _ Hn) as [Hfb Hpow].
    assert (0 ≤ Z.of_nat (length (sc_BoxPos0 s)) ≤ 15625) as Hnb.
    { pose proof (Scan_loop_spec (maze_text maze) Scan_init scan_ok_init) as Hspec.
      rewrite Hscan in Hspec. destruct Hspec as (_ & _ & _ & _ & Hf & Hb & _).
      pose proof (count_chars_mono is_box_char is_floor_char (maze_text maze)
                    is_box_floor_char) as Hbf.
      unfold floor_count, box_count in *. simpl in Hf, Hb. lia. }
    rewrite (to_size_t_small (Z.log2_up _))
      by (change (2 ^ 64) with 18446744073709551616; lia).
    rewrite (to_size_t_small (Z.of_nat (length (sc_BoxPos0 s)) + 1))
      by (change (2 ^ 64) with 18446744073709551616; lia).
    rewrite to_size_t_small by (change (2 ^ 64) with 18446744073709551616; nia).
    reflexivity.
  - assert (sc_PlayerPos0 s = (-1, -1)) as ->; [|done].
    destruct (so_player _ Hs) as [?|Hin]; [done|].
    apply (scan_ok_has_player s Hs) in Hin. congruence.
Qed.

End ConstructorCases.

(** The player's start cell is never a box's start cell. *)
Lemma Scan_step_apart s c s' :
  scan_ok s → sc_PlayerPos0 s ∉ sc_BoxPos0 s → Scan_step_normal s c = inr s' →
  sc_PlayerPos0 s' ∉ sc_BoxPos0 s'.
Proof.
  intros Hs Hapart. pose proof (scan_ok_here_fresh s Hs) as Hfresh.
  unfold Scan_step_normal.
  destruct (is_carriage_return c); [by intros [= <-]|].
  destruct (is_newline c).
  { destruct (124 <=? sc_line s); [done|]. by intros [= <-]. }
  destruct (124 <=? sc_col s); [done|].
  destruct (is_player_char c && has_player s); [done|]. intros [= <-]. simpl.
  assert (is_player_char c = true → is_box_char c = false) as Hexcl.
  { unfold is_player_char, is_box_char.
    intros [->%Ascii.eqb_eq | ->%Ascii.eqb_eq]%orb_true_iff; done. }
  destruct (is_player_char c) eqn:Ep.
  - rewrite Hexcl by done. intros Hin. by apply Hfresh, (so_boxes _ Hs).
  - destruct (is_box_char c); [|done].
    intros [Heq | Hin]%elem_of_set_insert; [|done].
    destruct (so_player _ Hs) as [Hnone | Hin]; [|by rewrite Heq in Hin].
    rewrite Hnone in Heq. pose proof (so_line _ Hs). injection Heq as Heq _. lia.
Qed.

Lemma Scan_loop_apart text s s' :
  scan_ok s → sc_PlayerPos0 s ∉ sc_BoxPos0 s → Scan_loop s text = inr s' →
  sc_PlayerPos0 s' ∉ sc_BoxPos0 s'.
Proof.
  revert s. induction text as [|c text IH]; intros s Hs Hapart; simpl.
  { by intros [= <-]. }
  rewrite Scan_step_normal_eq by done.
  destruct (Scan_step_normal s c) as [e|s1] eqn:Hstep; [done|].
  apply IH; [by eapply Scan_step_ok|by eapply Scan_step_apart].
Qed.

Section ConstructedGames.
Variable StateBits : N.

(** [UpdateData] leaves the members it does not compute as they are. *)
Lemma UpdateData_frame g g' : UpdateData StateBits g = Some g' → same_frame g g'.
Proof.
  unfold UpdateData. intros H.
  apply bind_Some in H as (m1 & _ & H). apply bind_Some in H as (m2 & _ & H).
  apply bind_Some in H as (x & _ & H). apply bind_Some in H as ([[[m3 fin] st] off] & _ & H).
  apply bind_Some in H as (m4 & _ & H). apply bind_Some in H as (dirs & _ & H).
  apply bind_Some in H as (failed & _ & H). injection H as <-.
  unfold same_frame. simpl. by repeat split.
Qed.

(** A successfully constructed game, in terms of what the scan collected. *)
Lemma Game_new_Done maze g :
  Game_new StateBits maze = Done g →
  ∃ s, Scan_loop Scan_init (maze_text maze) = inr s ∧ scan_ok s ∧
    has_player s = true ∧ sc_BoxPos0 s ≠ [] ∧
    (length (sc_BoxPos0 s) ≤ length (sc_GoalPos s))%nat ∧
    Z.log2_up (Z.of_nat (length (sc_floor s))) * (Z.of_nat (length (sc_BoxPos0 s)) + 1)
    ≤ Z.of_N StateBits ∧
    Height g = sc_Height s ∧ Width g = sc_Width s ∧
    FloorBits g = Z.log2_up (Z.of_nat (length (sc_floor s))) ∧
    PlayerPos0 g = sc_PlayerPos0 s ∧ BoxPos0 g = sc_BoxPos0 s ∧ GoalPos g = sc_GoalPos s ∧
    FloorIndex_fill (sc_Height s) (sc_Width s) (sc_floor s) = Some (FloorIndex g) ∧
    PlayerPos g = PlayerPos0 g ∧ BoxPos g = BoxPos0 g ∧
    TimeElapsed g = 0 ∧ StateHistory g = ∅.
Proof.
  intros Hnew.
  destruct (Scan_loop Scan_init (maze_text maze)) as [e|s] eqn:Hscan.
  { unfold Game_new in Hnew. fold (maze_text maze) in Hnew. by rewrite Hscan in Hnew. }
  exists s. split; [done|].
  pose proof (Scan_loop_ok _ _ _ scan_ok_init Hscan) as Hs. split; [done|].
  rewrite (Game_new_scanned StateBits maze s Hscan) in Hnew.
  destruct (has_player s); [|done]. cbn [negb] in Hnew. split; [done|].
  destruct (Nat.eqb_spec (length (sc_BoxPos0 s)) 0) as [|Hb]; [done|].
  split; [by destruct (sc_BoxPos0 s)|].
  destruct (Nat.ltb_spec (length (sc_GoalPos s)) (length (sc_BoxPos0 s))) as [|Hg]; [done|].
  split; [done|].
  destruct (Z.ltb_spec (Z.of_N StateBits)
              (Z.log2_up (Z.of_nat (length (sc_floor s)))
               * (Z.of_nat (length (sc_BoxPos0 s)) + 1))) as [|Hcap]; [done|].
  split; [done|].
  destruct (FloorIndex_fill _ _ _) as [fi|]; [|done]. cbn [mbind option_bind] in Hnew.
  unfold DoRestart in Hnew.
  destruct (UpdateData StateBits _) as [g'|] eqn:Hupd; [|done].
  injection Hnew as ->. apply UpdateData_frame in Hupd.
  unfold same_frame in Hupd. simpl in Hupd.
  destruct Hupd as (-> & -> & -> & -> & -> & -> & -> & -> & -> & -> & ->).
  by repeat split.
Qed.

(** The queue of floor cells the scan collects is the list of the floor
    cells of the constructed game, in reading order. *)
Lemma Game_new_floor maze g s :
  Game_new StateBits maze = Done g → Scan_loop Scan_init (maze_text maze) = inr s →
  sc_floor s = grid_floor g.
Proof.
  intros Hnew Hscan'.
  destruct (Game_new_Done maze g Hnew)
    as (s' & Hscan & Hs & Hhas & Hb & Hg & Hcap & HH & HW & HFB & HP0 & HB0 & HG
        & Hfill & HP & HB & _).
  rewrite Hscan' in Hscan. injection Hscan as <-.
  pose proof (Scan_loop_floor_sorted _ _ _ scan_ok_init is_set_nil Hscan') as Hsorted.
  pose proof (so_count _ Hs) as Hcount. pose proof (so_line _ Hs) as Hl.
  pose proof (so_col _ Hs) as Hc.
  destruct (FloorIndex_fill_index (sc_Height s) (sc_Width s) (sc_floor s))
    as (fi & Hfi & Hd & Hidx & Hrest).
  { apply Forall_forall. intros p Hp%(so_floor _ Hs). rewrite (so_Height _ Hs). lia. }
  { by apply is_set_NoDup. }
  { lia. }
  rewrite Hfill in Hfi. injection Hfi as <-.
  apply is_set_ext; [done|apply is_set_grid_floor|].
  intros p. rewrite elem_of_grid_floor. unfold is_floor, floor_index. rewrite HH, HW. split.
  - intros Hp. pose proof Hp as (k & Hk)%list_elem_of_lookup_1.
    rewrite (Hidx k p Hk). apply (so_floor _ Hs) in Hp. rewrite (so_Height _ Hs).
    simpl. rewrite !andb_true_iff, !Z.leb_le, !Z.ltb_lt. lia.
  - rewrite !andb_true_iff, !Z.leb_le, !Z.ltb_lt. intros ((((H1 & H2) & H3) & H4) & H5).
    destruct (decide (p ∈ sc_floor s)) as [|Hnot]; [done|].
    rewrite (Hrest p) in H5 by (done || lia). simpl in H5. lia.
Qed.

(** The constructor establishes [wf_board], with the player off the boxes. *)
Lemma Game_new_board maze g :
  Game_new StateBits maze = Done g → wf_board g ∧ PlayerPos g ∉ BoxPos g.
Proof.
  intros Hnew.
  destruct (Game_new_Done maze g Hnew)
    as (s & Hscan & Hs & Hhas & Hb & Hg & Hcap & HH & HW & HFB & HP0 & HB0 & HG
        & Hfill & HP & HB & _).
  pose proof (Scan_loop_apart _ _ _ scan_ok_init ltac:(by apply not_elem_of_nil) Hscan)
    as Hapart.
  pose proof (Game_new_floor maze g s Hnew Hscan) as Hgrid.
  assert (∀ p, p ∈ sc_floor s ↔ is_floor g p = true) as Hfloor.
  { intros p. by rewrite Hgrid, elem_of_grid_floor. }
  split.
  - constructor.
    + by rewrite HH, HW, <- Hgrid.
    + by rewrite HFB, Hgrid.
    + rewrite HG. apply Hs.
    + rewrite HG. apply Forall_forall. intros p Hp%(so_goals _ Hs). by apply Hfloor.
    + by rewrite HB0.
    + by rewrite HB0, HG.
    + by rewrite HP0, HB0.
  - by rewrite HP, HB, HP0, HB0.
Qed.

Lemma same_layout_is_floor g g' p : same_layout g g' → is_floor g' p = is_floor g p.
Proof.
  intros (HH & HW & _ & HF & _). unfold is_floor, floor_index. by rewrite HH, HW, HF.
Qed.

Lemma same_layout_grid_floor g g' : same_layout g g' → grid_floor g' = grid_floor g.
Proof.
  intros Hl. unfold grid_floor, grid_list.
  destruct Hl as (HH & HW & Hfb & HF & Hrest). rewrite HH, HW.
  apply filter_ext. intros p. apply same_layout_is_floor.
  unfold same_layout. tauto.
Qed.

Lemma reachable_wf_board maze g : reachable StateBits maze g → wf_board g.
Proof.
  intros Hreach.
  destruct (reachable_constructed StateBits maze g Hreach) as [g0 Hnew].
  destruct (Game_new_board maze g0 Hnew) as [Hboard0 _].
  pose proof (reachable_layout StateBits maze g0 g Hnew Hreach) as Hlay.
  pose proof (same_layout_grid_floor g0 g Hlay) as Hgf.
  pose proof Hlay as (HH & HW & HFB & HF & HG & HB0 & HP0).
  destruct Hboard0. constructor.
  - by rewrite HH, HW, HF, Hgf.
  - by rewrite HFB, Hgf.
  - by rewrite HG.
  - rewrite HG. eapply Forall_impl; [done|]. intros p Hp. simpl.
    by rewrite (same_layout_is_floor g0 g).
  - by rewrite HB0.
  - by rewrite HB0, HG.
  - by rewrite HP0, HB0.
Qed.

Lemma step_apart p d : d ∈ AllDirections → step p d ≠ p.
Proof.
  intros Hd. unfold step. destruct p as [i j].
  destruct (Movement_cases d Hd) as [-> | [-> | [-> | ->]]]; simpl; intros [=]; lia.
Qed.

(** The player never stands on a box. *)
Lemma reachable_player_apart maze g : reachable StateBits maze g → PlayerPos g ∉ BoxPos g.
Proof.
  induction 1 as [g Hg | g d g' pushed Hreach IH Hm | g g' Hreach IH Hr].
  - by destruct (Game_new_board maze g Hg).
  - pose proof (reachable_invariant StateBits maze g Hreach) as Hinv.
    destruct (Move_cases StateBits g d g' pushed Hinv Hm)
      as [[-> _] | (Hd & _ & _ & _ & -> & -> & _)]; [done|].
    destruct Hinv as (_ & Hpos & _). unfold moved_boxes.
    destruct (set_count _ _) eqn:E; [|by apply set_count_false].
    rewrite elem_of_set_insert, elem_of_set_erase by apply (wf_BoxPos_set _ Hpos).
    intros [Heq | [Hne _]]; [|done]. symmetry in Heq. by apply step_apart in Heq.
  - pose proof (reachable_invariant StateBits maze g Hreach) as Hinv.
    destruct (Restart_spec StateBits g Hinv)
      as (g'' & Hr' & _ & _ & _ & _ & _ & _ & _ & _ & HP & HB & _).
    rewrite Hr in Hr'. injection Hr' as <-. rewrite HP, HB.
    apply (wb_start _ (reachable_wf_board maze g Hreach)).
Qed.

End ConstructedGames.

(** * The board of a reachable game *)

Lemma grid_floor_length g :
  1 ≤ Height g ≤ 125 → 0 ≤ Width g ≤ 125 → Z.of_nat (length (grid_floor g)) ≤ 15625.
Proof.
  intros Hh Hw. unfold grid_floor, grid_list.
  pose proof (List.filter_length_le (is_floor g)
                (list_prod (seqZ 0 (Height g)) (seqZ 0 (Width g)))) as Hle.
  rewrite length_prod, !length_seqZ in Hle. nia.
Qed.

(** The numbering of the floor cells, read from [wf_board]. *)
Lemma board_index (StateBits : N) g :
  wf_layout StateBits g → wf_board g →
  (∀ k p, grid_floor g !! k = Some p →
     vec2_get (FloorIndex g) p.1 p.2 = Some (Z.of_nat k)) ∧
  (∀ p, in_grid g p → p ∉ grid_floor g → vec2_get (FloorIndex g) p.1 p.2 = Some (-1)).
Proof.
  intros Hlay Hboard.
  pose proof (grid_floor_length g (wf_Height _ _ Hlay) (wf_Width _ _ Hlay)) as Hlen.
  destruct (FloorIndex_fill_index (Height g) (Width g) (grid_floor g))
    as (fi & Hfi & _ & Hidx & Hrest).
  { apply Forall_forall. intros p Hp%elem_of_grid_floor%is_floor_in_grid. done. }
  { apply is_set_NoDup, is_set_grid_floor. }
  { lia. }
  rewrite (wb_numbering _ Hboard) in Hfi. injection Hfi as <-.
  split; [done|]. intros p [Hp1 Hp2] Hp. by apply Hrest.
Qed.

Lemma floor_index_rank (StateBits : N) g p :
  wf_layout StateBits g → wf_board g → is_floor g p = true →
  ∃ k, grid_floor g !! k = Some p ∧ floor_index g p = Z.of_nat k.
Proof.
  intros Hlay Hboard Hp. pose proof Hp as (k & Hk)%elem_of_grid_floor%list_elem_of_lookup_1.
  exists k. split; [done|]. unfold floor_index.
  by rewrite (proj1 (board_index StateBits g Hlay Hboard) k p Hk).
Qed.

(** Distinct floor cells have distinct indices. *)
Lemma floor_index_inj (StateBits : N) g p q :
  wf_layout StateBits g → wf_board g → is_floor g p = true → is_floor g q = true →
  floor_index g p = floor_index g q → p = q.
Proof.
  intros Hlay Hboard Hp Hq Heq.
  destruct (floor_index_rank StateBits g p Hlay Hboard Hp) as (k & Hk & Hpk).
  destruct (floor_index_rank StateBits g q Hlay Hboard Hq) as (k' & Hk' & Hqk).
  assert (k = k') as <- by lia. congruence.
Qed.

Lemma is_set_lookup_lt (l : list Pos) j k p q :
  is_set l → (j < k)%nat → l !! j = Some p → l !! k = Some q → pos_lt p q.
Proof.
  unfold is_set. intros Hs. revert j k.
  induction Hs as [|x l Hs IH Hx]; intros j k Hjk Hj Hk; [done|].
  destruct k as [|k]; [lia|]. destruct j as [|j].
  - injection Hj as ->. rewrite Forall_forall in Hx. apply Hx.
    by eapply list_elem_of_lookup_2.
  - apply (IH j k); (done || lia).
Qed.

(** X10. In every reachable state the player stands on a floor cell that
    holds no box, every box and every goal is on a floor cell, no two boxes
    share a cell, and every floor cell lies inside the grid. *)
Theorem positions_on_floor (StateBits : N) (maze : string) (g : Game) :
  reachable StateBits maze g →
  is_floor g (PlayerPos g) = true ∧ (PlayerPos g ∉ BoxPos g) ∧
  (∀ b, b ∈ BoxPos g → is_floor g b = true) ∧ NoDup (BoxPos g) ∧
  (∀ p, p ∈ GoalPos g → is_floor g p = true) ∧
  (∀ p, is_floor g p = true → 0 ≤ p.1 < Height g ∧ 0 ≤ p.2 < Width g).
Proof.
  intros Hreach.
  destruct (reachable_invariant StateBits maze g Hreach) as (Hlay & Hpos & Hcons).
  pose proof (reachable_wf_board StateBits maze g Hreach) as Hboard.
  split; [apply (wf_PlayerPos _ Hpos)|].
  split; [by eapply reachable_player_apart|].
  split; [apply Forall_forall, (wf_BoxPos_floor _ Hpos)|].
  split; [apply is_set_NoDup, (wf_BoxPos_set _ Hpos)|].
  split; [apply Forall_forall, (wb_GoalPos_floor _ Hboard)|].
  intros p. apply is_floor_in_grid.
Qed.

Lemma positions_on_floor_witness :
  is_floor room_up (PlayerPos room_up) = true ∧ (PlayerPos room_up ∉ BoxPos room_up).
Proof.
  destruct (positions_on_floor 64 room_maze room_up) as (Hp & Ha & _).
  - apply (reach_move 64 room_maze room_game Up room_up false).
    + apply reach_new. exact room_game_new.
    + vm_compute. reflexivity.
  - split; [exact Hp|exact Ha].
Defined.

(** X11. The floor cells are numbered 0, 1, 2, ... in reading order, row by
    row and from left to right: the cell number [k] of the floor cells so
    listed has the entry [k] in [FloorIndex], and every other cell of the
    grid has the entry [-1].  [FloorBits] is the number of binary digits
    that the largest index needs. *)
Theorem floor_cells_numbered_in_reading_order (StateBits : N) (maze : string) (g : Game) :
  reachable StateBits maze g →
  (∀ k p, grid_floor g !! k = Some p →
     vec2_get (FloorIndex g) p.1 p.2 = Some (Z.of_nat k)) ∧
  (∀ p, in_grid g p → p ∉ grid_floor g → vec2_get (FloorIndex g) p.1 p.2 = Some (-1)) ∧
  (∀ j k p q, (j < k)%nat → grid_floor g !! j = Some p → grid_floor g !! k = Some q →
     p.1 < q.1 ∨ (p.1 = q.1 ∧ p.2 < q.2)) ∧
  (2 ≤ length (grid_floor g))%nat ∧
  Z.of_nat (length (grid_floor g)) - 1 < 2 ^ FloorBits g ∧
  2 ^ (FloorBits g - 1) ≤ Z.of_nat (length (grid_floor g)) - 1.
Proof.
  intros Hreach.
  destruct (reachable_invariant StateBits maze g Hreach) as (Hlay & Hpos & Hcons).
  pose proof (reachable_wf_board StateBits maze g Hreach) as Hboard.
  destruct (board_index StateBits g Hlay Hboard) as [Hidx Hrest].
  split; [done|]. split; [done|]. split.
  { intros j k p q Hjk Hj Hk. apply pos_ltb_spec.
    by apply (is_set_lookup_lt (grid_floor g) j k); [apply is_set_grid_floor| | |]. }
  assert (2 ≤ length (grid_floor g))%nat as Hlen.
  { pose proof (wf_PlayerPos _ Hpos) as Hp%elem_of_grid_floor.
    pose proof (reachable_player_apart StateBits maze g Hreach) as Hapart.
    destruct (BoxPos g) as [|b bs] eqn:Eb.
    { pose proof (wf_BoxPos_length _ Hpos) as Hl. rewrite Eb in Hl.
      destruct (BoxPos0 g) eqn:E0; [|done]. by destruct (wb_BoxPos0 _ Hboard). }
    assert (b ∈ grid_floor g) as Hb.
    { apply elem_of_grid_floor. pose proof (wf_BoxPos_floor _ Hpos) as Hall.
      rewrite Eb in Hall. by apply Forall_cons in Hall as [? _]. }
    assert (PlayerPos g ≠ b) as Hne
      by (intros Heq; apply Hapart; rewrite Heq; apply list_elem_of_here).
    destruct (grid_floor g) as [|x [|y l]]; [by apply elem_of_nil in Hp| |simpl; lia].
    apply list_elem_of_singleton in Hp, Hb. congruence. }
  split; [done|].
  pose proof (grid_floor_length g (wf_Height _ _ Hlay) (wf_Width _ _ Hlay)) as Hmax.
  rewrite (wb_FloorBits _ Hboard).
  set (n := Z.of_nat (length (grid_floor g))) in *.
  assert (2 ≤ n) as Hn by lia.
  pose proof (Z.log2_up_spec n ltac:(lia)) as [Hlo Hhi].
  split; [lia|]. replace (Z.log2_up n - 1) with (Z.pred (Z.log2_up n)) by lia. lia.
Qed.

Lemma floor_cells_numbered_in_reading_order_witness :
  grid_floor room_game !! 5%nat = Some (2, 2) ∧
  vec2_get (FloorIndex room_game) 2 2 = Some 5 ∧
  vec2_get (FloorIndex room_game) 0 0 = Some (-1) ∧ FloorBits room_game = 4.
Proof.
  destruct (floor_cells_numbered_in_reading_order 64 room_maze room_game)
    as (Hidx & Hrest & _); [apply reach_new; exact room_game_new|].
  split; [reflexivity|]. split; [exact (Hidx 5%nat (2, 2) eq_refl)|].
  split; [|reflexivity]. apply (Hrest (0, 0)).
  - split; simpl; vm_compute; split; congruence.
  - vm_compute. intros Hin. repeat (apply elem_of_cons in Hin as [[=]|Hin]).
    by apply elem_of_nil in Hin.
Defined.

(** Two reachable states of the same maze with the same encoded state have
    the player and the boxes on the same cells. *)
Lemma same_state_same_position (StateBits : N) (maze : string) (g1 g2 : Game) :
  reachable StateBits maze g1 → reachable StateBits maze g2 →
  State g1 = State g2 → PlayerPos g1 = PlayerPos g2 ∧ BoxPos g1 = BoxPos g2.
Proof.
  intros Hr1 Hr2 Hstate.
  destruct (reachable_constructed StateBits maze g1 Hr1) as [g0 Hnew].
  pose proof (reachable_layout StateBits maze g0 g1 Hnew Hr1) as Hl1.
  pose proof (reachable_layout StateBits maze g0 g2 Hnew Hr2) as Hl2.
  destruct (reachable_invariant StateBits maze g1 Hr1) as (Hlay1 & Hpos1 & Hcons1).
  destruct (reachable_invariant StateBits maze g2 Hr2) as (Hlay2 & Hpos2 & Hcons2).
  pose proof (reachable_wf_board StateBits maze g1 Hr1) as Hboard.
  assert (∀ p, floor_index g2 p = floor_index g1 p) as Hfi.
  { intros p. unfold floor_index.
    destruct Hl1 as (_ & _ & _ & -> & _). by destruct Hl2 as (_ & _ & _ & -> & _). }
  assert (∀ p, is_floor g2 p = is_floor g1 p) as Hfl.
  { intros p. by rewrite (same_layout_is_floor g0 g1), (same_layout_is_floor g0 g2). }
  assert (FloorBits g2 = FloorBits g1) as Hfb.
  { destruct Hl1 as (_ & _ & -> & _). by destruct Hl2 as (_ & _ & -> & _). }
  assert (length (BoxPos g2) = length (BoxPos g1)) as Hlen.
  { rewrite (wf_BoxPos_length _ Hpos1), (wf_BoxPos_length _ Hpos2).
    destruct Hl1 as (_ & _ & _ & _ & _ & -> & _).
    by destruct Hl2 as (_ & _ & _ & _ & _ & -> & _). }
  rewrite (c_State _ Hcons1), (c_State _ Hcons2) in Hstate.
  unfold encoded_state in Hstate. rewrite Hfb in Hstate.
  rewrite (map_ext (floor_index g2) (floor_index g1) Hfi) in Hstate.
  rewrite Hfi in Hstate.
  pose proof (wf_FloorBits _ _ Hlay1) as Hbits.
  assert (∀ g, wf_position g → (∀ p, is_floor g p = is_floor g1 p) →
            Forall (λ x, 0 ≤ x < 2 ^ FloorBits g1)
              (floor_index g1 (PlayerPos g) :: map (floor_index g1) (BoxPos g))) as Hfields.
  { intros g Hpos Hsame. constructor.
    - split; [|apply (wf_index _ _ Hlay1)]. apply is_floor_index.
      rewrite <- Hsame. apply (wf_PlayerPos _ Hpos).
    - apply Forall_map. eapply Forall_impl; [apply (wf_BoxPos_floor _ Hpos)|].
      intros b Hb. simpl. split; [|apply (wf_index _ _ Hlay1)]. apply is_floor_index.
      by rewrite <- Hsame. }
  assert (floor_index g1 (PlayerPos g1) :: map (floor_index g1) (BoxPos g1)
          = floor_index g1 (PlayerPos g2) :: map (floor_index g1) (BoxPos g2)) as Hlists.
  { apply list_eq. intros k.
    destruct ((floor_index g1 (PlayerPos g1) :: map (floor_index g1) (BoxPos g1)) !! k)
      as [x|] eqn:E1;
    destruct ((floor_index g1 (PlayerPos g2) :: map (floor_index g1) (BoxPos g2)) !! k)
      as [y|] eqn:E2.
    - f_equal.
      rewrite <- (pack_field (FloorBits g1) _ k x (proj1 Hbits) (Hfields g1 Hpos1
                    (λ _, eq_refl)) E1).
      rewrite <- (pack_field (FloorBits g1) _ k y (proj1 Hbits) (Hfields g2 Hpos2 Hfl) E2).
      by rewrite Hstate.
    - apply lookup_lt_Some in E1. apply lookup_ge_None in E2.
      simpl in E1, E2. rewrite !length_map in *. lia.
    - apply lookup_lt_Some in E2. apply lookup_ge_None in E1.
      simpl in E1, E2. rewrite !length_map in *. lia.
    - done. }
  injection Hlists as Hplayer Hboxes.
  split.
  - apply (floor_index_inj StateBits g1); [done|done|apply (wf_PlayerPos _ Hpos1)| |done].
    rewrite <- Hfl. apply (wf_PlayerPos _ Hpos2).
  - pose proof (wf_BoxPos_floor _ Hpos1) as Hf1. pose proof (wf_BoxPos_floor _ Hpos2) as Hf2.
    revert Hboxes Hf1 Hf2. generalize (BoxPos g2). clear -Hlay1 Hboard Hfl.
    induction (BoxPos g1) as [|b l IH]; intros [|b' l'] Heq Hf1 Hf2; try done.
    simpl in Heq. injection Heq as Hb Hl.
    apply Forall_cons in Hf1 as [Hb1 Hf1]. apply Forall_cons in Hf2 as [Hb2 Hf2].
    f_equal; [|by apply IH].
    apply (floor_index_inj StateBits g1); [done|done|done| |done]. by rewrite <- Hfl.
Qed.

(** * What the derived members depend on *)

(** The failure check reads the grid and the positions, and nothing else. *)
Section SameBoard.
Variables g1 g2 : Game.
Hypothesis HH : Height g1 = Height g2.
Hypothesis HW : Width g1 = Width g2.
Hypothesis HF : FloorIndex g1 = FloorIndex g2.
Hypothesis HM : Maze g1 = Maze g2.

Lemma CheckFloor_ext : CheckFloor g1 = CheckFloor g2.
Proof. unfold CheckFloor. by rewrite HH, HW, HF. Qed.

Lemma CheckDirection_ext : CheckDirection g1 = CheckDirection g2.
Proof. unfold CheckDirection, CheckDirection_body. by rewrite CheckFloor_ext, HM. Qed.

Lemma BoxStuck_ext fuel : BoxStuck fuel g1 = BoxStuck fuel g2.
Proof.
  induction fuel as [|n IH]; [done|]. cbn [BoxStuck]. unfold BoxStuck_neighbours.
  by rewrite IH, CheckFloor_ext, HM.
Qed.

Lemma WallStuck_run_ext fuel : WallStuck_run fuel g1 = WallStuck_run fuel g2.
Proof.
  induction fuel as [|n IH]; [done|]. cbn [WallStuck_run].
  by rewrite IH, CheckFloor_ext, HM.
Qed.

Lemma WallStuck_ext : WallStuck g1 = WallStuck g2.
Proof.
  unfold WallStuck. generalize MazeInt_range. intros fuel.
  by rewrite WallStuck_run_ext, HM.
Qed.

Lemma CanPushAny_ext fuel : CanPushAny fuel g1 = CanPushAny fuel g2.
Proof.
  induction fuel as [|n IH]; [done|]. cbn [CanPushAny].
  by rewrite IH, CheckDirection_ext.
Qed.

Hypothesis HFinished : Finished g1 = Finished g2.
Hypothesis HDirections : Directions g1 = Directions g2.
Hypothesis HPlayerPos : PlayerPos g1 = PlayerPos g2.
Hypothesis HBoxPos : BoxPos g1 = BoxPos g2.
Hypothesis HBoxPos0 : length (BoxPos0 g1) = length (BoxPos0 g2).

Lemma CheckFailed_ext : CheckFailed g1 = CheckFailed g2.
Proof.
  unfold CheckFailed, CheckFailed_box, BoxStuck_fuel, CanPushAny_fuel.
  rewrite HH, HW.
  generalize (S (2 * (Z.to_nat (Height g2) * Z.to_nat (Width g2)))).
  generalize (S (Z.to_nat (Height g2) * Z.to_nat (Width g2))). intros fuel1 fuel2.
  by rewrite BoxStuck_ext, CanPushAny_ext, WallStuck_ext, CheckFloor_ext, HM, HFinished,
    HDirections, HPlayerPos, HBoxPos, HBoxPos0.
Qed.

End SameBoard.

(** Two rectangular vectors of the same size with the same entries. *)
Lemma vec2_ext (v1 v2 : list (list Z)) h w :
  dims v1 h w → dims v2 h w →
  (∀ i j, 0 ≤ i < h → 0 ≤ j < w → vec2_get v1 i j = vec2_get v2 i j) →
  v1 = v2.
Proof.
  intros [Hl1 Hr1] [Hl2 Hr2] Hget. apply list_eq. intros i.
  destruct (v1 !! i) as [row1|] eqn:E1; destruct (v2 !! i) as [row2|] eqn:E2.
  - f_equal. apply list_eq. intros j.
    rewrite Forall_forall in Hr1, Hr2.
    pose proof (Hr1 row1 (list_elem_of_lookup_2 _ _ _ E1)) as Hw1.
    pose proof (Hr2 row2 (list_elem_of_lookup_2 _ _ _ E2)) as Hw2.
    apply lookup_lt_Some in E1 as Hi.
    destruct (decide (j < length row1)%nat) as [Hj|Hj].
    + specialize (Hget (Z.of_nat i) (Z.of_nat j) ltac:(lia) ltac:(lia)).
      unfold vec2_get in Hget.
      replace ((Z.of_nat i <? 0) || (Z.of_nat j <? 0)) with false in Hget
        by (symmetry; apply orb_false_iff; split; apply Z.ltb_ge; lia).
      rewrite !Nat2Z.id, E1, E2 in Hget. done.
    + rewrite !lookup_ge_None_2; [done|lia|lia].
  - apply lookup_lt_Some in E1. apply lookup_ge_None in E2. lia.
  - apply lookup_lt_Some in E2. apply lookup_ge_None in E1. lia.
  - done.
Qed.

(** A mask of the four direction bits is fixed by its four bits. *)
Lemma mask_ext a b :
  0 ≤ a < 16 → 0 ≤ b < 16 →
  (∀ d, d ∈ AllDirections → (Z.land a d ≠ 0 ↔ Z.land b d ≠ 0)) → a = b.
Proof.
  intros Ha Hb Hbits.
  assert (∀ x, 0 ≤ x < 16 →
            x = (if Z.land x Up =? 0 then 0 else 1) + (if Z.land x Left =? 0 then 0 else 2)
                + (if Z.land x Right =? 0 then 0 else 4)
                + (if Z.land x Down =? 0 then 0 else 8)) as Hsum.
  { intros x Hx.
    assert (x = 0 ∨ x = 1 ∨ x = 2 ∨ x = 3 ∨ x = 4 ∨ x = 5 ∨ x = 6 ∨ x = 7 ∨ x = 8 ∨ x = 9
            ∨ x = 10 ∨ x = 11 ∨ x = 12 ∨ x = 13 ∨ x = 14 ∨ x = 15) as Hc by lia.
    destruct Hc as [-> | [-> | [-> | [-> | [-> | [-> | [-> | [-> | [-> | [-> | [-> | [->
        | [-> | [-> | [-> | ->]]]]]]]]]]]]]]]; reflexivity. }
  rewrite (Hsum a Ha), (Hsum b Hb).
  assert (∀ d, d ∈ AllDirections → (Z.land a d =? 0) = (Z.land b d =? 0)) as Heq.
  { intros d Hd. specialize (Hbits d Hd).
    destruct (Z.eqb_spec (Z.land a d) 0), (Z.eqb_spec (Z.land b d) 0); tauto. }
  rewrite (Heq Up), (Heq Left), (Heq Right), (Heq Down);
    [done|..]; repeat first [apply list_elem_of_here | apply list_elem_of_further].
Qed.

(** The members that [UpdateData] computes are determined by the layout and
    the positions. *)
Lemma position_determines (StateBits : N) g1 g2 :
  invariant StateBits g1 → invariant StateBits g2 →
  Height g1 = Height g2 → Width g1 = Width g2 → FloorBits g1 = FloorBits g2 →
  FloorIndex g1 = FloorIndex g2 → GoalPos g1 = GoalPos g2 →
  PlayerPos g1 = PlayerPos g2 → BoxPos g1 = BoxPos g2 →
  length (BoxPos0 g1) = length (BoxPos0 g2) →
  Maze g1 = Maze g2 ∧ Finished g1 = Finished g2 ∧ State g1 = State g2 ∧
  Directions g1 = Directions g2 ∧ Succeeded g1 = Succeeded g2 ∧ Failed g1 = Failed g2.
Proof.
  intros (Hlay1 & Hpos1 & Hcons1) (Hlay2 & Hpos2 & Hcons2) HH HW HFB HF HG HP HB HB0.
  assert (∀ p, floor_index g1 p = floor_index g2 p) as Hfi.
  { intros p. unfold floor_index. by rewrite HF. }
  assert (∀ p, is_floor g1 p = is_floor g2 p) as Hfl.
  { intros p. unfold is_floor. by rewrite HH, HW, Hfi. }
  assert (Maze g1 = Maze g2) as HM.
  { destruct (c_Maze _ Hcons1) as [Hd1 Hc1]. destruct (c_Maze _ Hcons2) as [Hd2 Hc2].
    rewrite HH, HW in Hd1. apply (vec2_ext _ _ _ _ Hd1 Hd2). intros i j Hi Hj.
    pose proof (Hc1 (i, j) ltac:(split; simpl; lia)) as Hv1.
    pose proof (Hc2 (i, j) ltac:(split; simpl; lia)) as Hv2.
    simpl in Hv1, Hv2. rewrite Hv1, Hv2.
    unfold cell_value. by rewrite Hfi, HG, HB, HP. }
  assert (Finished g1 = Finished g2) as HFin.
  { rewrite (c_Finished _ Hcons1), (c_Finished _ Hcons2). unfold finished_count.
    by rewrite HG, HB. }
  assert (Directions g1 = Directions g2) as HD.
  { apply mask_ext; [apply (c_Directions_range _ Hcons1)|apply (c_Directions_range _ Hcons2)|].
    intros d Hd. rewrite (c_Directions _ Hcons1 d Hd), (c_Directions _ Hcons2 d Hd).
    unfold legal. by rewrite HP, HB, !Hfl. }
  split; [done|]. split; [done|]. split.
  { rewrite (c_State _ Hcons1), (c_State _ Hcons2). unfold encoded_state.
    rewrite HFB, HP, HB, Hfi. f_equal. f_equal. apply map_ext. done. }
  split; [done|]. split.
  { by rewrite (c_Succeeded _ Hcons1), (c_Succeeded _ Hcons2), HFin, HB0. }
  destruct (c_Failed _ Hcons1) as [f1 Hf1]. destruct (c_Failed _ Hcons2) as [f2 Hf2].
  rewrite (CheckFailed_ext (before_CheckFailed f1 g1) (before_CheckFailed f2 g2)) in Hf1
    by done.
  congruence.
Qed.

(** X12. The encoded state stands for the position: two reachable states of
    the same maze have the same encoded state exactly when they have the
    player on the same cell and the boxes on the same cells. *)
Theorem encoded_state_injective (StateBits : N) (maze : string) (g1 g2 : Game) :
  reachable StateBits maze g1 → reachable StateBits maze g2 →
  State g1 = State g2 ↔ PlayerPos g1 = PlayerPos g2 ∧ BoxPos g1 = BoxPos g2.
Proof.
  intros Hr1 Hr2. split; [apply (same_state_same_position StateBits maze); done|].
  intros [HP HB].
  destruct (reachable_constructed StateBits maze g1 Hr1) as [g0 Hnew].
  pose proof (reachable_layout StateBits maze g0 g1 Hnew Hr1)
    as (HH1 & HW1 & HFB1 & HF1 & HG1 & HB1 & HP1).
  pose proof (reachable_layout StateBits maze g0 g2 Hnew Hr2)
    as (HH2 & HW2 & HFB2 & HF2 & HG2 & HB2 & HP2).
  destruct (position_determines StateBits g1 g2
              (reachable_invariant StateBits maze g1 Hr1)
              (reachable_invariant StateBits maze g2 Hr2))
    as (_ & _ & HSt & _); congruence.
Qed.

Lemma encoded_state_injective_witness :
  State room_game ≠ State room_up.
Proof.
  intros Heq.
  destruct (proj1 (encoded_state_injective 64 room_maze room_game room_up
                     (reach_new 64 room_maze room_game room_game_new)
                     (reach_move 64 room_maze room_game Up room_up false
                        (reach_new 64 room_maze room_game room_game_new) eq_refl))
              Heq) as [Hp _].
  vm_compute in Hp. discriminate Hp.
Defined.

(** X13. [Restart] brings every reachable state back to the very state the
    constructor left: not only the player and the boxes, but every member of
    the game object is as it was after construction. *)
Theorem Restart_restores_initial_state (StateBits : N) (maze : string) (g0 g : Game) :
  Game_new StateBits maze = Done g0 → reachable StateBits maze g →
  Restart StateBits g = Some g0.
Proof.
  intros Hnew Hreach.
  pose proof (reachable_invariant StateBits maze g Hreach) as Hinv.
  pose proof (reachable_layout StateBits maze g0 g Hnew Hreach)
    as (HH & HW & HFB & HF & HG & HB0 & HP0).
  destruct (Restart_spec StateBits g Hinv)
    as (g' & -> & Hinv' & HH' & HW' & HFB' & HF' & HG' & HB0' & HP0' & HP' & HB' & HT' & HS').
  pose proof (Game_new_invariant StateBits maze g0 Hnew) as Hinv0.
  destruct (Game_new_Done StateBits maze g0 Hnew)
    as (s & _ & _ & _ & _ & _ & _ & _ & _ & _ & _ & _ & _ & _ & HPg0 & HBg0 & HT0 & HS0).
  destruct (position_determines StateBits g' g0 Hinv' Hinv0)
    as (HM & HFin & HSt & HD & HSu & HFa); try congruence.
  clear Hinv Hinv' Hinv0 Hreach Hnew.
  f_equal. destruct g', g0. simpl in *.
  rewrite HM, HFin, HSt, HD, HSu, HFa, HH', HW', HFB', HF', HG', HB0', HP0', HP', HB', HT',
    HS', HH, HW, HFB, HF, HG, HB0, HP0, HT0, HS0, HPg0, HBg0.
  reflexivity.
Qed.

Lemma Restart_restores_initial_state_witness : Restart 64 room_up = Some room_game.
Proof.
  apply (Restart_restores_initial_state 64 room_maze room_game room_up room_game_new).
  apply (reach_move 64 room_maze room_game Up room_up false).
  - apply reach_new. exact room_game_new.
  - vm_compute. reflexivity.
Defined.

(** X14. The encoded state fixes everything the learner observes of a
    position: two reachable states of the same maze with the same encoded
    state have the same picture, offer the same legal directions, and agree
    on the number of finished boxes and on the flags [Succeeded] and
    [Failed]. *)
Theorem encoded_state_determines_observation (StateBits : N) (maze : string)
    (g1 g2 : Game) :
  reachable StateBits maze g1 → reachable StateBits maze g2 →
  State g1 = State g2 →
  Maze g1 = Maze g2 ∧ Directions g1 = Directions g2 ∧ Finished g1 = Finished g2 ∧
  Succeeded g1 = Succeeded g2 ∧ Failed g1 = Failed g2.
Proof.
  intros Hr1 Hr2 Hstate.
  destruct (same_state_same_position StateBits maze g1 g2 Hr1 Hr2 Hstate) as [HP HB].
  destruct (reachable_constructed StateBits maze g1 Hr1) as [g0 Hnew].
  pose proof (reachable_layout StateBits maze g0 g1 Hnew Hr1)
    as (HH1 & HW1 & HFB1 & HF1 & HG1 & HB1 & HP1).
  pose proof (reachable_layout StateBits maze g0 g2 Hnew Hr2)
    as (HH2 & HW2 & HFB2 & HF2 & HG2 & HB2 & HP2).
  destruct (position_determines StateBits g1 g2
              (reachable_invariant StateBits maze g1 Hr1)
              (reachable_invariant StateBits maze g2 Hr2))
    as (HM & HFin & _ & HD & HSu & HFa); try congruence.
  done.
Qed.

Lemma room_up_reachable : reachable 64 room_maze room_up.
Proof.
  apply (reach_move 64 room_maze room_game Up room_up false).
  - apply reach_new. exact room_game_new.
  - vm_compute. reflexivity.
Qed.

Lemma room_back_reachable : reachable 64 room_maze room_back.
Proof.
  apply (reach_move 64 room_maze room_up Down room_back false).
  - exact room_up_reachable.
  - vm_compute. reflexivity.
Qed.

Lemma encoded_state_determines_observation_witness :
  TimeElapsed room_back ≠ TimeElapsed room_game ∧
  Maze room_back = Maze room_game ∧ Directions room_back = Directions room_game ∧
  Finished room_back = Finished room_game ∧ Succeeded room_back = Succeeded room_game ∧
  Failed room_back = Failed room_game.
Proof.
  split; [vm_compute; discriminate|].
  apply (encoded_state_determines_observation 64 room_maze room_back room_game).
  - exact room_back_reachable.
  - apply reach_new. exact room_game_new.
  - reflexivity.
Defined.

(** * The picture of a position *)

Lemma dims_tabulate (f : Pos → Z) h w :
  dims (map (λ i, map (λ j, f (i, j)) (seqZ 0 w)) (seqZ 0 h)) h w.
Proof.
  split; [by rewrite length_map, length_seqZ|].
  apply Forall_map, Forall_forall. intros i _. simpl.
  by rewrite length_map, length_seqZ.
Qed.

Lemma vec2_get_tabulate (f : Pos → Z) h w i j :
  0 ≤ i < h → 0 ≤ j < w →
  vec2_get (map (λ i, map (λ j, f (i, j)) (seqZ 0 w)) (seqZ 0 h)) i j = Some (f (i, j)).
Proof.
  intros Hi Hj. unfold vec2_get.
  replace ((i <? 0) || (j <? 0)) with false
    by (symmetry; apply orb_false_iff; split; apply Z.ltb_ge; lia).
  rewrite !list_lookup_fmap, lookup_seqZ_lt by lia. simpl.
  rewrite !list_lookup_fmap, lookup_seqZ_lt by lia. simpl.
  do 2 f_equal; f_equal; lia.
Qed.

(** [Maze] is the table of the cell values. *)
Lemma Maze_tabulate g :
  maze_ok g →
  Maze g = map (λ i, map (λ j, cell_value g (i, j)) (seqZ 0 (Width g))) (seqZ 0 (Height g)).
Proof.
  intros [Hd Hc]. apply (vec2_ext _ _ _ _ Hd (dims_tabulate _ _ _)). intros i j Hi Hj.
  rewrite vec2_get_tabulate by done. apply (Hc (i, j)). by split.
Qed.

Lemma removelast_lines (rows : list (list ascii)) :
  rows ≠ [] → removelast (flat_map (λ row, row ++ [newline]) rows) = join_lines rows.
Proof.
  induction rows as [|row rows IH]; [done|]. intros _.
  destruct rows as [|row' rows].
  - simpl. rewrite !app_nil_r. apply removelast_last.
  - change (flat_map (λ row, row ++ [newline]) (row :: row' :: rows))
      with ((row ++ [newline]) ++ flat_map (λ row, row ++ [newline]) (row' :: rows)).
    rewrite removelast_app by (simpl; by destruct row').
    rewrite IH by done. simpl. by rewrite <- app_assoc.
Qed.

Section Picture.
Variable StateBits : N.
Variable maze : string.
Variable g : Game.
Hypothesis Hreach : reachable StateBits maze g.

Lemma cell_symbol_spec p :
  in_grid g p →
  WriteMazeString_cell (cell_value g p) = [cell_symbol g p] ∧
  is_floor_char (cell_symbol g p) = is_floor g p ∧
  is_box_char (cell_symbol g p) = set_count p (BoxPos g) ∧
  is_goal_char (cell_symbol g p) = set_count p (GoalPos g) ∧
  is_player_char (cell_symbol g p) = pos_eqb p (PlayerPos g) ∧
  is_newline (cell_symbol g p) = false ∧ is_carriage_return (cell_symbol g p) = false.
Proof.
  intros [Hp1 Hp2].
  destruct (reachable_invariant StateBits maze g Hreach) as (Hlay & Hpos & Hcons).
  pose proof (reachable_wf_board StateBits maze g Hreach) as Hboard.
  pose proof (reachable_player_apart StateBits maze g Hreach) as Hapart.
  assert (is_floor g p = (0 <=? floor_index g p)) as Hfl.
  { unfold is_floor.
    replace (0 <=? p.1) with true by (symmetry; apply Z.leb_le; lia).
    replace (p.1 <? Height g) with true by (symmetry; apply Z.ltb_lt; lia).
    replace (0 <=? p.2) with true by (symmetry; apply Z.leb_le; lia).
    replace (p.2 <? Width g) with true by (symmetry; apply Z.ltb_lt; lia). done. }
  assert (pos_eqb p (PlayerPos g) = true →
          is_floor g p = true ∧ set_count p (BoxPos g) = false) as Hplayer.
  { intros ->%pos_eqb_eq. split; [apply (wf_PlayerPos _ Hpos)|by apply set_count_false]. }
  assert (set_count p (BoxPos g) = true → is_floor g p = true) as Hbox.
  { intros Hb%set_count_true. pose proof (wf_BoxPos_floor _ Hpos) as Hall.
    rewrite Forall_forall in Hall. by apply Hall. }
  assert (set_count p (GoalPos g) = true → is_floor g p = true) as Hgoal.
  { intros Hb%set_count_true. pose proof (wb_GoalPos_floor _ Hboard) as Hall.
    rewrite Forall_forall in Hall. by apply Hall. }
  unfold cell_value, cell_symbol. rewrite <- Hfl.
  destruct (pos_eqb p (PlayerPos g)), (set_count p (BoxPos g)), (set_count p (GoalPos g)),
    (is_floor g p);
    try (by destruct Hplayer); try (by discriminate Hbox); try (by discriminate Hgoal);
    vm_compute; done.
Qed.

(** [WriteMazeString] draws the picture of the position. *)
Lemma WriteMazeString_picture : WriteMazeString g = Some (maze_picture g).
Proof.
  destruct (reachable_invariant StateBits maze g Hreach) as (Hlay & Hpos & Hcons).
  pose proof (wf_Height _ _ Hlay) as Hh.
  unfold WriteMazeString, maze_picture.
  rewrite (Maze_tabulate g (c_Maze _ Hcons)).
  assert (flat_map (λ row, flat_map WriteMazeString_cell row ++ [newline])
            (map (λ i, map (λ j, cell_value g (i, j)) (seqZ 0 (Width g)))
               (seqZ 0 (Height g)))
          = flat_map (λ row, row ++ [newline]) (picture_rows g)) as ->.
  { unfold picture_rows. rewrite !flat_map_concat_map, !map_map. f_equal.
    apply map_ext_in. intros i Hi%list_elem_of_In%elem_of_seqZ. f_equal.
    rewrite flat_map_concat_map, map_map.
    assert (∀ cols, Forall (λ j, 0 ≤ j < Width g) cols →
              concat (map (λ j, WriteMazeString_cell (cell_value g (i, j))) cols)
              = map (λ j, cell_symbol g (i, j)) cols) as Hrow.
    { induction 1 as [|j cols Hj _ IH]; [done|]. simpl. rewrite IH.
      destruct (cell_symbol_spec (i, j)) as [-> _]; [split; simpl; lia|]. done. }
    apply Hrow. apply Forall_seqZ. lia. }
  assert (picture_rows g ≠ []) as Hrows.
  { unfold picture_rows. rewrite (seqZ_cons 0 (Height g)) by lia. done. }
  rewrite <- (removelast_lines _ Hrows).
  destruct (picture_rows g) as [|row rows]; [done|]. simpl.
  destruct (row ++ [newline]) eqn:E; [by destruct row|]. done.
Qed.

End Picture.

(** X15. On every reachable state [GetMazeString] is defined and draws the
    position: one row of text per row of the grid, rows separated by line
    feeds with none after the last row, and per cell the symbol [*] for the
    player, [+] for the player on a goal, [&] for a box, [@] for a box on a
    goal, [$] for a free goal, [.] for free floor and [#] for a wall.  No
    cell is left out, so every row of the text is as long as the grid is
    wide. *)
Theorem GetMazeString_draws_position (StateBits : N) (maze : string) (g : Game) :
  reachable StateBits maze g → GetMazeString g = Some (maze_picture g).
Proof. apply WriteMazeString_picture. Qed.

Lemma GetMazeString_draws_position_witness :
  GetMazeString room_up
  = Some (unlines ["######"; "#.*..#"; "#..&$#"; "#....#"; "######"]%string).
Proof.
  rewrite (GetMazeString_draws_position 64 room_maze room_up room_up_reachable).
  reflexivity.
Defined.

(** * Reading a picture back *)

Lemma is_cell_char_spec c :
  is_cell_char c = true ↔ is_newline c = false ∧ is_carriage_return c = false.
Proof. unfold is_cell_char. rewrite andb_true_iff, !negb_true_iff. done. Qed.

Lemma join_lines_cons row row' rows :
  join_lines (row :: row' :: rows) = row ++ newline :: join_lines (row' :: rows).
Proof. reflexivity. Qed.

Lemma trim_front_cell c rest : is_newline c = false → trim_front (c :: rest) = c :: rest.
Proof. unfold is_newline. simpl. by intros ->. Qed.

Lemma trim_back_cell l c : is_newline c = false → trim_back (l ++ [c]) = l ++ [c].
Proof.
  intros Hc. unfold trim_back. rewrite rev_app_distr.
  change (rev [c] ++ rev l) with (c :: rev l).
  rewrite trim_front_cell by done. change (c :: rev l) with ([c] ++ rev l).
  by rewrite rev_app_distr, rev_involutive.
Qed.

Lemma join_lines_ends rows :
  rows ≠ [] → cell_rows rows →
  (∃ c rest, join_lines rows = c :: rest ∧ is_cell_char c = true) ∧
  (∃ l c, join_lines rows = l ++ [c] ∧ is_cell_char c = true).
Proof.
  intros Hne Hrows. split.
  - destruct rows as [|[|c row] rows]; [done| |].
    + apply Forall_cons in Hrows as [[? _] _]. done.
    + apply Forall_cons in Hrows as [[_ [Hc _]%Forall_cons] _].
      eexists _, _. split; [reflexivity|done].
  - induction rows as [|row rows IH]; [done|].
    apply Forall_cons in Hrows as [[Hrow Hcells] Hrows].
    destruct rows as [|row' rows].
    + destruct row as [|c row _] using rev_ind; [done|].
      apply Forall_app in Hcells as [_ [Hc _]%Forall_cons].
      exists row, c. simpl. by rewrite app_nil_r.
    + destruct (IH ltac:(done) Hrows) as (l & c & Heq & Hc).
      rewrite join_lines_cons, Heq. exists (row ++ newline :: l), c.
      split; [|done]. by rewrite <- app_assoc.
Qed.

Lemma maze_text_join_lines rows :
  rows ≠ [] → cell_rows rows →
  maze_text (string_of_list_ascii (join_lines rows)) = join_lines rows.
Proof.
  intros Hne Hrows. unfold maze_text. rewrite list_ascii_of_string_of_list_ascii.
  destruct (join_lines_ends rows Hne Hrows)
    as [(c & rest & Hfirst & [Hc _]%is_cell_char_spec)
        (l & c' & Hlast & [Hc' _]%is_cell_char_spec)].
  rewrite Hfirst, trim_front_cell by done. rewrite <- Hfirst, Hlast.
  by apply trim_back_cell.
Qed.

Lemma maze_lines_nonempty text : maze_lines text ≠ [].
Proof.
  induction text as [|c text IH]; simpl; [done|].
  destruct (is_newline c); [done|]. by destruct (maze_lines text).
Qed.

Lemma maze_lines_row row text :
  Forall (λ c, is_cell_char c = true) row →
  maze_lines (row ++ text)
  = (row ++ hd [] (maze_lines text)) :: tl (maze_lines text).
Proof.
  induction 1 as [|c row [Hc _]%is_cell_char_spec _ IH]; simpl.
  - pose proof (maze_lines_nonempty text). by destruct (maze_lines text).
  - rewrite Hc, IH. done.
Qed.

Lemma maze_lines_join_lines rows :
  rows ≠ [] → cell_rows rows → maze_lines (join_lines rows) = rows.
Proof.
  induction rows as [|row rows IH]; [done|]. intros _ Hrows.
  apply Forall_cons in Hrows as [[_ Hcells] Hrows].
  destruct rows as [|row' rows].
  - simpl. rewrite app_nil_r. rewrite <- (app_nil_r row) at 1.
    rewrite maze_lines_row by done. simpl. by rewrite app_nil_r.
  - rewrite join_lines_cons, maze_lines_row by done.
    change (maze_lines (newline :: ?t)) with ([] :: maze_lines t). simpl.
    rewrite app_nil_r. f_equal. by apply IH.
Qed.

Lemma text_cells_tab_row (f : Pos → ascii) line c (n : nat) text :
  (∀ p, is_cell_char (f p) = true) →
  text_cells line c (map (λ j, f (line, j)) (seqZ c (Z.of_nat n)) ++ text)
  = map (λ j, ((line, j), f (line, j))) (seqZ c (Z.of_nat n))
    ++ text_cells line (c + Z.of_nat n) text.
Proof.
  intros Hf. revert c. induction n as [|n IH]; intros c.
  { rewrite seqZ_nil by done. simpl. by rewrite Z.add_0_r. }
  rewrite seqZ_cons by lia. replace (Z.pred (Z.of_nat (S n))) with (Z.of_nat n) by lia.
  simpl. destruct (proj1 (is_cell_char_spec _) (Hf (line, c))) as [-> ->].
  rewrite IH. do 3 f_equal. lia.
Qed.

Lemma text_cells_tab (f : Pos → ascii) line (m : nat) w :
  (∀ p, is_cell_char (f p) = true) → 0 ≤ w →
  text_cells line 0
    (join_lines (map (λ i, map (λ j, f (i, j)) (seqZ 0 w)) (seqZ line (Z.of_nat m))))
  = map (λ p, (p, f p)) (list_prod (seqZ line (Z.of_nat m)) (seqZ 0 w)).
Proof.
  intros Hf Hw. rewrite <- (Z2Nat.id w) by done. generalize (Z.to_nat w). clear w Hw.
  intros n. revert line. induction m as [|m IH]; intros line.
  { by rewrite (seqZ_nil line) by done. }
  rewrite (seqZ_cons line) by lia.
  replace (Z.pred (Z.of_nat (S m))) with (Z.of_nat m) by lia.
  cbn [map list_prod]. rewrite map_app, map_map.
  destruct m as [|m].
  - rewrite (seqZ_nil (Z.succ line)) by done. cbn [map list_prod join_lines flat_map].
    rewrite text_cells_tab_row by done. done.
  - specialize (IH (Z.succ line)). rewrite (seqZ_cons (Z.succ line)) in IH |- * by lia.
    cbn [map] in IH |- *. rewrite join_lines_cons.
    rewrite text_cells_tab_row by done. cbn [text_cells].
    change (is_carriage_return newline) with false. change (is_newline newline) with true.
    cbv iota. replace (line + 1) with (Z.succ line) by lia.
    by rewrite IH.
Qed.

Lemma cells_where_tab (P : ascii → bool) (f : Pos → ascii) (l : list Pos) :
  cells_where P (map (λ p, (p, f p)) l) = List.filter (λ p, P (f p)) l.
Proof.
  unfold cells_where. induction l as [|p l IH]; simpl; [done|].
  destruct (P (f p)); simpl; by rewrite IH.
Qed.

Lemma filter_pos_eqb_single (l : list Pos) q :
  NoDup l → q ∈ l → List.filter (λ p, pos_eqb p q) l = [q].
Proof.
  intros Hnd Hq. induction Hnd as [|x l Hx Hnd IH]; [by apply elem_of_nil in Hq|].
  simpl. destruct (pos_eqb x q) eqn:E.
  - apply pos_eqb_eq in E as ->. f_equal.
    clear IH Hq Hnd. induction l as [|y l IH]; simpl; [done|].
    apply not_elem_of_cons in Hx as [Hne Hx].
    destruct (pos_eqb y q) eqn:E; [by apply pos_eqb_eq in E|]. by apply IH.
  - apply pos_eqb_neq in E. apply elem_of_cons in Hq as [->|Hq]; [done|]. by apply IH.
Qed.

Lemma row_cells_length row :
  Forall (λ c, is_cell_char c = true) row → row_cells row = Z.of_nat (length row).
Proof.
  unfold row_cells. induction 1 as [|c row [_ Hc]%is_cell_char_spec _ IH]; simpl; [done|].
  rewrite Hc, IH. simpl. lia.
Qed.

Section ReadBack.
Variable StateBits : N.
Variable maze : string.
Variable g : Game.
Hypothesis Hreach : reachable StateBits maze g.

Lemma cell_symbol_cell p : is_cell_char (cell_symbol g p) = true.
Proof.
  unfold cell_symbol.
  destruct (pos_eqb p (PlayerPos g)), (set_count p (BoxPos g)), (set_count p (GoalPos g)),
    (is_floor g p); reflexivity.
Qed.

Lemma grid_size : 1 ≤ Height g ≤ 125 ∧ 1 ≤ Width g ≤ 125.
Proof.
  destruct (reachable_invariant StateBits maze g Hreach) as (Hlay & Hpos & Hcons).
  pose proof (wf_Height _ _ Hlay). pose proof (wf_Width _ _ Hlay).
  destruct (is_floor_in_grid _ _ (wf_PlayerPos _ Hpos)). lia.
Qed.

Lemma picture_rows_ok : picture_rows g ≠ [] ∧ cell_rows (picture_rows g).
Proof.
  destruct grid_size as [Hh Hw]. unfold picture_rows, cell_rows. split.
  - rewrite (seqZ_cons 0 (Height g)) by lia. done.
  - apply Forall_map, Forall_forall. intros i _. simpl. split.
    + rewrite (seqZ_cons 0 (Width g)) by lia. done.
    + apply Forall_map, Forall_forall. intros j _. apply cell_symbol_cell.
Qed.

Lemma picture_text_cells :
  text_cells 0 0 (join_lines (picture_rows g))
  = map (λ p, (p, cell_symbol g p)) (grid_list g).
Proof.
  destruct grid_size as [Hh Hw]. unfold picture_rows, grid_list.
  rewrite <- (Z2Nat.id (Height g)) by lia.
  apply text_cells_tab; [apply cell_symbol_cell|lia].
Qed.

Lemma picture_where (P : ascii → bool) (Q : Pos → bool) :
  (∀ p, in_grid g p → P (cell_symbol g p) = Q p) →
  cells_where P (text_cells 0 0 (join_lines (picture_rows g))) = List.filter Q (grid_list g).
Proof.
  intros HPQ. rewrite picture_text_cells, cells_where_tab.
  apply filter_ext_in. intros p Hp%list_elem_of_In%elem_of_grid_list. by apply HPQ.
Qed.

Lemma picture_counts :
  count_chars is_newline (join_lines (picture_rows g)) = Height g - 1 ∧
  width_from 0 0 (join_lines (picture_rows g)) = Width g ∧
  player_count (join_lines (picture_rows g)) = 1.
Proof.
  destruct grid_size as [Hh Hw]. destruct picture_rows_ok as [Hne Hrows].
  destruct (reachable_invariant StateBits maze g Hreach) as (Hlay & Hpos & Hcons).
  split; [|split].
  - pose proof (maze_rows_count (join_lines (picture_rows g))) as Hcount.
    unfold maze_rows in Hcount. rewrite maze_lines_join_lines in Hcount by done.
    unfold picture_rows in Hcount at 1. rewrite length_map, length_seqZ in Hcount. lia.
  - rewrite <- maze_cols_width. unfold maze_cols.
    rewrite maze_lines_join_lines by done.
    assert (Forall (λ row, row_cells row = Width g) (picture_rows g)) as Hall.
    { unfold picture_rows. apply Forall_map, Forall_forall. intros i _. simpl.
      rewrite row_cells_length.
      - rewrite length_map, length_seqZ. lia.
      - apply Forall_map, Forall_forall. intros j _. apply cell_symbol_cell. }
    destruct (picture_rows g) as [|row rows]; [done|].
    apply Forall_cons in Hall as [Hrow Hall]. simpl. rewrite Hrow.
    clear -Hall Hw. induction Hall as [|r rs Hr _ IH]; simpl; [lia|]. rewrite Hr. lia.
  - unfold player_count.
    rewrite <- (cells_where_count is_player_char 0 0) by done.
    rewrite (picture_where is_player_char (λ p, pos_eqb p (PlayerPos g))).
    + rewrite filter_pos_eqb_single; [done|apply is_set_NoDup, is_set_grid_list|].
      apply elem_of_grid_list, is_floor_in_grid, (wf_PlayerPos _ Hpos).
    + intros p Hp. by destruct (cell_symbol_spec StateBits maze g Hreach p Hp)
        as (_ & _ & _ & _ & -> & _).
Qed.

(** What the scan of the picture collects. *)
Lemma picture_scan :
  ∃ s, Scan_loop Scan_init (join_lines (picture_rows g)) = inr s ∧ scan_ok s ∧
    has_player s = true ∧ sc_Height s = Height g ∧ sc_Width s = Width g ∧
    sc_floor s = grid_floor g ∧ sc_BoxPos0 s = BoxPos g ∧ sc_GoalPos s = GoalPos g ∧
    sc_PlayerPos0 s = PlayerPos g.
Proof.
  destruct grid_size as [Hh Hw]. destruct picture_counts as (Hnl & Hwd & Hpl).
  destruct (reachable_invariant StateBits maze g Hreach) as (Hlay & Hpos & Hcons).
  pose proof (reachable_wf_board StateBits maze g Hreach) as Hboard.
  set (text := join_lines (picture_rows g)) in *.
  pose proof (Scan_loop_spec text Scan_init scan_ok_init) as Hspec.
  change (player_flag Scan_init) with 0 in Hspec. simpl sc_line in Hspec.
  change (sc_col Scan_init + 1) with 0 in Hspec. simpl sc_Width in Hspec.
  destruct (Scan_loop Scan_init text) as [e|s] eqn:Hscan; [lia|].
  destruct Hspec as (Hs & Hline & Hwidth & Hflag & _).
  destruct (Scan_loop_cells text Scan_init s scan_ok_init Hscan)
    as (Hfloor & Hboxes & Hgoals & Hplayer).
  simpl in Hfloor, Hboxes, Hgoals, Hplayer. change (-1 + 1) with 0 in *.
  subst text. exists s. split; [done|]. split; [done|].
  assert (has_player s = true) as Hhas.
  { unfold player_flag in Hflag. destruct (has_player s); [done|lia]. }
  split; [done|]. split; [rewrite (so_Height _ Hs); lia|]. split; [lia|].
  split; [|split; [|split]].
  - rewrite Hfloor. unfold grid_floor. apply picture_where. intros p Hp.
    by destruct (cell_symbol_spec StateBits maze g Hreach p Hp) as (_ & -> & _).
  - apply is_set_ext; [apply Hs|apply (wf_BoxPos_set _ Hpos)|]. intros p.
    rewrite Hboxes, (picture_where is_box_char (λ p, set_count p (BoxPos g))).
    + rewrite elem_of_List_filter, elem_of_grid_list, set_count_true.
      split; [intros [[]%elem_of_nil|[_ ?]]; done|]. intros Hp. right. split; [|done].
      pose proof (wf_BoxPos_floor _ Hpos) as Hall. rewrite Forall_forall in Hall.
      by apply is_floor_in_grid, Hall.
    + intros q Hq. by destruct (cell_symbol_spec StateBits maze g Hreach q Hq)
        as (_ & _ & -> & _).
  - apply is_set_ext; [apply Hs|apply (wb_GoalPos_set _ Hboard)|]. intros p.
    rewrite Hgoals, (picture_where is_goal_char (λ p, set_count p (GoalPos g))).
    + rewrite elem_of_List_filter, elem_of_grid_list, set_count_true.
      split; [intros [[]%elem_of_nil|[_ ?]]; done|]. intros Hp. right. split; [|done].
      pose proof (wb_GoalPos_floor _ Hboard) as Hall. rewrite Forall_forall in Hall.
      by apply is_floor_in_grid, Hall.
    + intros q Hq. by destruct (cell_symbol_spec StateBits maze g Hreach q Hq)
        as (_ & _ & _ & -> & _).
  - apply Hplayer; [done|].
    rewrite (picture_where is_player_char (λ p, pos_eqb p (PlayerPos g))).
    + apply elem_of_List_filter. split; [|apply pos_eqb_refl].
      apply elem_of_grid_list, is_floor_in_grid, (wf_PlayerPos _ Hpos).
    + intros q Hq. by destruct (cell_symbol_spec StateBits maze g Hreach q Hq)
        as (_ & _ & _ & _ & -> & _).
Qed.

End ReadBack.

(** X16. The text that [GetMazeString] returns for a reachable state is a
    valid maze, and the game constructed from it is the game as it stands
    with the current position taken as the initial one: the same grid, floor
    numbering, goals, picture, encoded state, legal directions and flags,
    the player and the boxes starting where they are now, no steps taken and
    an empty history. *)
Theorem GetMazeString_reads_back (StateBits : N) (maze : string) (g : Game) :
  reachable StateBits maze g →
  ∃ text, GetMazeString g = Some text ∧ Game_new StateBits text = Done (as_initial g).
Proof.
  intros Hreach. exists (maze_picture g).
  split; [by apply (WriteMazeString_picture StateBits maze)|].
  destruct (picture_scan StateBits maze g Hreach)
    as (s & Hscan & Hs & Hhas & HH & HW & Hfl & HB & HG & HP).
  destruct (picture_rows_ok StateBits maze g Hreach) as [Hne Hrows].
  pose proof (reachable_invariant StateBits maze g Hreach) as Hinv.
  pose proof Hinv as (Hlay & Hpos & Hcons).
  pose proof (reachable_wf_board StateBits maze g Hreach) as Hboard.
  pose proof (wf_BoxPos_length _ Hpos) as Hlen.
  rewrite (Game_new_scanned StateBits (maze_picture g) s)
    by (unfold maze_picture; by rewrite maze_text_join_lines).
  rewrite Hhas, HH, HW, Hfl, HB, HG, HP. cbn [negb].
  destruct (Nat.eqb_spec (length (BoxPos g)) 0) as [Hzero|_].
  { rewrite Hzero in Hlen. pose proof (wb_BoxPos0 _ Hboard). by destruct (BoxPos0 g). }
  destruct (Nat.ltb_spec (length (GoalPos g)) (length (BoxPos g))) as [Hfew|_].
  { pose proof (wb_goal_count _ Hboard). lia. }
  rewrite <- (wb_FloorBits _ Hboard).
  destruct (Z.ltb_spec (Z.of_N StateBits)
              (FloorBits g * (Z.of_nat (length (BoxPos g)) + 1))) as [Hcap|_].
  { pose proof (wf_capacity _ _ Hlay). rewrite Hlen in Hcap. lia. }
  rewrite (wb_numbering _ Hboard). cbn [mbind option_bind]. unfold DoRestart.
  cbn [Succeeded Failed Directions Height Width FloorBits Finished State PlayerPos0
       BoxPos0 GoalPos Maze FloorIndex].
  edestruct (UpdateData_spec StateBits) as (g' & -> & Hinv' & Hframe).
  - destruct Hlay. constructor; simpl; try done.
    + by rewrite Hlen.
    + by rewrite Hlen.
    + apply (wf_BoxPos_set _ Hpos).
    + apply (wf_BoxPos_floor _ Hpos).
    + apply (wf_PlayerPos _ Hpos).
  - destruct Hpos. constructor; simpl; done.
  - simpl. f_equal. unfold same_frame in Hframe. simpl in Hframe.
    destruct Hframe as (HH' & HW' & HFB' & HF' & HG' & HB0' & HP0' & HP' & HB' & HT' & HS').
    destruct (position_determines StateBits g' g Hinv' Hinv)
      as (HM & HFin & HSt & HD & HSu & HFa); try congruence.
    clear Hinv Hinv' Hlay Hpos Hcons Hboard Hreach Hscan Hs.
    unfold as_initial. destruct g'. simpl in *.
    by rewrite HM, HFin, HSt, HD, HSu, HFa, HH', HW', HFB', HF', HG', HB0', HP0', HP', HB',
      HT', HS'.
Qed.

Lemma GetMazeString_reads_back_witness :
  ∃ text, GetMazeString room_up = Some text ∧ Game_new 64 text = Done (as_initial room_up).
Proof. exact (GetMazeString_reads_back 64 room_maze room_up room_up_reachable). Defined.

(** * The constructor and the text *)

(** X17. A successfully constructed game is the text read as a grid, where
    a line feed ends a row, a carriage return is skipped and every other
    character is one cell: the grid has as many rows as the text has lines
    and is as wide as the longest line; the floor cells are the cells that
    hold one of the symbols [.], [*], [+], [&], [@], [$]; the player starts
    on the one cell with [*] or [+], the boxes start on the cells with [&] or
    [@], the goals are the cells with [$], [+] or [@]; the player and the
    boxes stand on their start cells, no step is counted and the history is
    empty. *)
Theorem constructor_reads_the_text (StateBits : N) (maze : string) (g : Game) :
  Game_new StateBits maze = Done g →
  let text := maze_text maze in
  let cells := text_cells 0 0 text in
  Height g = maze_rows text ∧ Width g = maze_cols text ∧
  grid_floor g = cells_where is_floor_char cells ∧
  cells_where is_player_char cells = [PlayerPos0 g] ∧
  (∀ p, p ∈ BoxPos0 g ↔ p ∈ cells_where is_box_char cells) ∧
  (∀ p, p ∈ GoalPos g ↔ p ∈ cells_where is_goal_char cells) ∧
  PlayerPos g = PlayerPos0 g ∧ BoxPos g = BoxPos0 g ∧
  TimeElapsed g = 0 ∧ StateHistory g = ∅.
Proof.
  intros Hnew text cells.
  destruct (Game_new_Done StateBits maze g Hnew)
    as (s & Hscan & Hs & Hhas & Hb & Hg & Hcap & HH & HW & HFB & HP0 & HB0 & HG
        & Hfill & HP & HB & HT & HS).
  pose proof (Scan_loop_spec text Scan_init scan_ok_init) as Hspec.
  fold text in Hscan. rewrite Hscan in Hspec.
  destruct Hspec as (_ & Hline & Hwidth & Hflag & _).
  destruct (Scan_loop_cells text Scan_init s scan_ok_init Hscan)
    as (Hfloor & Hboxes & Hgoals & Hplayer).
  simpl in Hline, Hwidth, Hfloor, Hboxes, Hgoals, Hplayer.
  change (-1 + 1) with 0 in *. fold cells in Hfloor, Hboxes, Hgoals, Hplayer.
  split; [rewrite HH, (so_Height _ Hs), maze_rows_count; lia|].
  split; [by rewrite HW, maze_cols_width|].
  split; [by rewrite <- (Game_new_floor StateBits maze g s Hnew Hscan)|].
  split.
  { assert (player_count text = 1) as Hcount.
    { unfold player_flag in Hflag. rewrite Hhas in Hflag. simpl in Hflag. lia. }
    pose proof (cells_where_count is_player_char 0 0 text eq_refl eq_refl) as Hlen.
    fold cells in Hlen. unfold player_count in Hcount. rewrite Hcount in Hlen.
    destruct (cells_where is_player_char cells) as [|p [|q l]] eqn:E;
      [simpl in Hlen; lia| |simpl in Hlen; lia].
    rewrite HP0, (Hplayer eq_refl p); [done|]. apply list_elem_of_here. }
  split.
  { intros p. rewrite HB0, Hboxes. split; [intros [[]%elem_of_nil|?]; done|by right]. }
  split.
  { intros p. rewrite HG, Hgoals. split; [intros [[]%elem_of_nil|?]; done|by right]. }
  done.
Qed.

Lemma constructor_reads_the_text_witness :
  Height room_game = 5 ∧ Width room_game = 6 ∧
  cells_where is_player_char (text_cells 0 0 (maze_text room_maze)) = [PlayerPos0 room_game] ∧
  PlayerPos0 room_game = (2, 2).
Proof.
  pose proof (constructor_reads_the_text 64 room_maze room_game room_game_new) as Hread.
  cbv zeta in Hread. destruct Hread as (HH & HW & _ & HP & _).
  split; [reflexivity|]. split; [reflexivity|]. split; [exact HP|reflexivity].
Defined.

(** ** Which error the constructor throws *)

(** The error of a scan that fails, and what is wrong with the text. *)
Lemma Scan_loop_error text s e :
  scan_ok s → Scan_loop s text = inl e →
  (e = MkError "Maze Too Large" ∧
   (124 < sc_line s + count_chars is_newline text ∨
    125 < width_from (sc_col s + 1) (sc_Width s) text)) ∨
  (e = MkError "Too Many Players" ∧ 1 < player_flag s + player_count text).
Proof.
  revert s. induction text as [|c text IH]; intros s Hs; [done|].
  cbn [Scan_loop]. rewrite Scan_step_normal_eq by done.
  pose proof (Scan_step_ok s c) as Hok.
  pose proof (so_line _ Hs). pose proof (so_col _ Hs). pose proof (so_Width _ Hs).
  pose proof (count_chars_nonneg is_newline text).
  pose proof (count_chars_nonneg is_player_char text).
  unfold Scan_step_normal in *. unfold player_count in *. cbn [count_chars width_from].
  assert (is_carriage_return c = true → is_newline c = false ∧ is_player_char c = false)
    as Hcr.
  { unfold is_carriage_return. intros ->%Ascii.eqb_eq. done. }
  assert (is_newline c = true → is_player_char c = false) as Hnl.
  { unfold is_newline. intros ->%Ascii.eqb_eq. done. }
  destruct (is_carriage_return c) eqn:Ecr.
  { destruct (Hcr eq_refl) as (-> & ->). intros Hloop.
    destruct (IH s Hs Hloop) as [[-> ?]|[-> ?]]; [left|right]; split; (done || lia). }
  destruct (is_newline c) eqn:Enl.
  { rewrite (Hnl eq_refl).
    destruct (124 <=? sc_line s) eqn:E.
    { apply Z.leb_le in E. intros [= <-]. left. split; [done|]. lia. }
    specialize (Hok _ Hs eq_refl). intros Hloop.
    destruct (IH _ Hok Hloop) as [[-> Hbig]|[-> Hmany]]; [left|right]; (split; [done|]).
    - simpl in Hbig. change (-1 + 1) with 0 in Hbig. lia.
    - unfold player_flag, has_player in *. simpl in Hmany. lia. }
  destruct (124 <=? sc_col s) eqn:E.
  { apply Z.leb_le in E. intros [= <-]. left. split; [done|]. right.
    pose proof (width_from_ge (sc_col s + 1 + 1) (Z.max (sc_Width s) (sc_col s + 1 + 1)) text).
    lia. }
  apply Z.leb_gt in E.
  destruct (is_player_char c && has_player s) eqn:Epl.
  { apply andb_true_iff in Epl as [-> Hpl]. intros [= <-]. right. split; [done|].
    unfold player_flag. rewrite Hpl. lia. }
  specialize (Hok _ Hs eq_refl). intros Hloop.
  destruct (IH _ Hok Hloop) as [[-> Hbig]|[-> Hmany]]; [left|right]; (split; [done|]).
  - simpl in Hbig. replace (sc_col s + 1 + 1) with (sc_col s + 2) in * by lia. lia.
  - unfold player_flag, has_player in *. simpl in Hmany.
    destruct (is_player_char c); simpl in *; [|lia].
    rewrite Epl.
    replace (0 <=? sc_line s + (sc_col s + 1)) with true in Hmany
      by (symmetry; apply Z.leb_le; lia). lia.
Qed.

Ltac settle_message :=
  lazymatch goal with
  | |- _ ↔ _ =>
      first [ split; [by intros [=] | intros ?; exfalso; lia]
            | split; [intros _; lia | intros _; reflexivity] ]
  | |- ∀ e : Error, _ =>
      first [ by intros e [=]
            | intros e [= <-];
              repeat first [apply list_elem_of_here | apply list_elem_of_further] ]
  | |- _ → _ =>
      first [ by intros [=] | intros _; lia
            | intros _; right; right; split; [lia | done] ]
  end.

(** X18. Which error the constructor throws.  With "the text fits" meaning
    at most 125 rows, at most 125 columns and at most one player symbol:
    ["No Player"] is thrown exactly when the text fits and has no player
    symbol, also when boxes or goals are missing as well; ["No Box"] exactly
    when it fits, has its player and has no box symbol; ["Too Few Goals"]
    exactly when it fits, has its player and at least one box, and has fewer
    goals than boxes.  ["Too Many Players"] is thrown only for a text with
    more than one player symbol, and ["Maze Too Large"] only for a text with
    more than 125 rows or columns or for one that fits whose state would not
    fit [StateBits].  No other error is thrown. *)
Theorem constructor_error_messages (StateBits : N) (maze : string) :
  let text := maze_text maze in
  let fits := maze_rows text ≤ 125 ∧ maze_cols text ≤ 125 ∧ player_count text ≤ 1 in
  (Game_new StateBits maze = Throws (MkError "No Player")
   ↔ fits ∧ player_count text = 0) ∧
  (Game_new StateBits maze = Throws (MkError "No Box")
   ↔ fits ∧ player_count text = 1 ∧ box_count text = 0) ∧
  (Game_new StateBits maze = Throws (MkError "Too Few Goals")
   ↔ fits ∧ player_count text = 1 ∧ 0 < box_count text
     ∧ goal_count text < box_count text) ∧
  (Game_new StateBits maze = Throws (MkError "Too Many Players")
   → 1 < player_count text) ∧
  (Game_new StateBits maze = Throws (MkError "Maze Too Large")
   → 125 < maze_rows text ∨ 125 < maze_cols text
     ∨ (fits ∧ Z.of_N StateBits < Z.log2_up (floor_count text) * (box_count text + 1))) ∧
  (∀ e, Game_new StateBits maze = Throws e →
     e ∈ [MkError "Maze Too Large"; MkError "Too Many Players"; MkError "No Player";
          MkError "No Box"; MkError "Too Few Goals"]).
Proof.
  intros text fits. subst fits.
  pose proof (Scan_loop_spec text Scan_init scan_ok_init) as Hspec.
  change (player_flag Scan_init) with 0 in Hspec. simpl sc_line in Hspec.
  change (sc_col Scan_init + 1) with 0 in Hspec. simpl sc_Width in Hspec.
  simpl sc_floor in Hspec. simpl sc_BoxPos0 in Hspec. simpl sc_GoalPos in Hspec.
  simpl length in Hspec. change (Z.of_nat 0) with 0 in Hspec. rewrite !Z.add_0_l in Hspec.
  pose proof (maze_rows_count text) as Hrows. pose proof (maze_cols_width text) as Hcols.
  pose proof (count_chars_nonneg is_player_char text) as Hpl0. fold (player_count text) in Hpl0.
  pose proof (count_chars_nonneg is_box_char text) as Hbx0. fold (box_count text) in Hbx0.
  destruct (Scan_loop Scan_init text) as [e|s] eqn:Hscan.
  - assert (Game_new StateBits maze = Throws e) as ->.
    { unfold Game_new. fold (maze_text maze). fold text. by rewrite Hscan. }
    destruct (Scan_loop_error text Scan_init e scan_ok_init Hscan) as [[-> Hbig]|[-> Hmany]].
    + simpl in Hbig. change (-1 + 1) with 0 in Hbig. clear Hspec.
      split_and!; settle_message.
    + change (player_flag Scan_init) with 0 in Hmany. clear Hspec.
      split_and!; settle_message.
  - destruct Hspec as (Hs & Hline & Hwidth & Hflag & Hfloor & Hboxes & Hgoals).
    pose proof (so_line _ Hs). pose proof (so_Width _ Hs).
    rewrite (Game_new_scanned StateBits maze s Hscan).
    unfold player_flag in Hflag.
    destruct (has_player s); cbn [negb].
    2: { split_and!; settle_message. }
    destruct (Nat.eqb_spec (length (sc_BoxPos0 s)) 0) as [Hb0|Hb0].
    { split_and!; settle_message. }
    destruct (Nat.ltb_spec (length (sc_GoalPos s)) (length (sc_BoxPos0 s))) as [Hg|Hg].
    { split_and!; settle_message. }
    rewrite Hfloor, Hboxes.
    destruct (Z.ltb_spec (Z.of_N StateBits)
                (Z.log2_up (floor_count text) * (box_count text + 1))) as [Hcap|Hcap].
    { split_and!; settle_message. }
    destruct (_ ≫= _); split_and!; settle_message.
Qed.

(** * Variations of the text that the constructor does not tell apart *)

Lemma Game_new_same_scan StateBits maze1 maze2 :
  Scan_loop Scan_init (maze_text maze1) = Scan_loop Scan_init (maze_text maze2) →
  Game_new StateBits maze1 = Game_new StateBits maze2.
Proof.
  intros Hscan. unfold Game_new. fold (maze_text maze1). fold (maze_text maze2).
  by rewrite Hscan.
Qed.

Lemma is_newline_as_wall c : is_newline (as_wall c) = is_newline c.
Proof.
  unfold as_wall. destruct (is_symbol c) eqn:Hc; [done|].
  unfold is_symbol in Hc. apply orb_false_iff in Hc as [[_ Hc]%orb_false_iff _].
  by rewrite Hc.
Qed.

Lemma trim_front_as_wall text :
  trim_front (map as_wall text) = map as_wall (trim_front text).
Proof.
  induction text as [|c text IH]; [done|].
  cbn [map trim_front]. fold (is_newline (as_wall c)). fold (is_newline c).
  rewrite is_newline_as_wall. by destruct (is_newline c).
Qed.

Lemma maze_text_as_wall maze :
  maze_text (map_text as_wall maze) = map as_wall (maze_text maze).
Proof.
  unfold maze_text, map_text, trim_back.
  rewrite list_ascii_of_string_of_list_ascii, trim_front_as_wall.
  by rewrite <- map_rev, trim_front_as_wall, map_rev.
Qed.

Lemma Scan_step_as_wall s c : Scan_step s (as_wall c) = Scan_step s c.
Proof.
  unfold as_wall. destruct (is_symbol c) eqn:Hc; [done|].
  unfold is_symbol, is_floor_char, is_player_char, is_box_char, is_goal_char,
    is_newline, is_carriage_return in Hc.
  repeat match goal with
         | H : _ || _ = false |- _ => apply orb_false_iff in H as [? ?]
         end.
  unfold Scan_step, Scan_cell.
  repeat match goal with H : Ascii.eqb c _ = false |- _ => rewrite H; clear H end.
  reflexivity.
Qed.

Lemma Scan_loop_as_wall text s : Scan_loop s (map as_wall text) = Scan_loop s text.
Proof.
  revert s. induction text as [|c text IH]; intros s; [done|].
  cbn [map Scan_loop]. rewrite Scan_step_as_wall.
  destruct (Scan_step s c); [done|apply IH].
Qed.

(** X19. Every character that is not one of the symbols [.], [*], [+], [&],
    [@], [$], a line feed or a carriage return is read as a wall: replacing
    each such character by [#] changes neither the constructed game nor the
    error thrown. *)
Theorem unknown_characters_are_walls (StateBits : N) (maze : string) :
  Game_new StateBits (map_text as_wall maze) = Game_new StateBits maze.
Proof.
  apply Game_new_same_scan. by rewrite maze_text_as_wall, Scan_loop_as_wall.
Qed.

Lemma trim_front_newlines n text :
  trim_front (repeat newline n ++ text) = trim_front text.
Proof. induction n as [|n IH]; [done|]. simpl. apply IH. Qed.

Lemma trim_front_app_cell c rest text :
  is_newline c = false → trim_front ((c :: rest) ++ text) = (c :: rest) ++ text.
Proof. unfold is_newline. simpl. by intros ->. Qed.

Lemma trim_back_newlines n text :
  trim_back (text ++ repeat newline n) = trim_back text.
Proof.
  unfold trim_back. rewrite rev_app_distr, rev_repeat. by rewrite trim_front_newlines.
Qed.

Lemma trim_front_app_newlines text n :
  trim_front text ≠ [] →
  trim_front (text ++ repeat newline n) = trim_front text ++ repeat newline n.
Proof.
  induction text as [|c text IH]; [done|].
  simpl. destruct (Ascii.eqb c newline); [apply IH|done].
Qed.

Lemma trim_front_all_newlines text n :
  trim_front text = [] → trim_front (text ++ repeat newline n) = [].
Proof.
  induction text as [|c text IH].
  - intros _. simpl. rewrite <- (app_nil_r (repeat newline n)). by rewrite trim_front_newlines.
  - simpl. destruct (Ascii.eqb c newline); [apply IH|done].
Qed.

(** X20. Line feeds before and after the maze are ignored: a text with any
    number of line feeds added in front of it and behind it gives the same
    game, or the same error, as the text itself. *)
Theorem surrounding_line_feeds_are_ignored (StateBits : N) (before after : nat)
    (maze : string) :
  Game_new StateBits
    (string_of_list_ascii
       (repeat newline before ++ list_ascii_of_string maze ++ repeat newline after))
  = Game_new StateBits maze.
Proof.
  apply Game_new_same_scan. f_equal. unfold maze_text.
  rewrite list_ascii_of_string_of_list_ascii, trim_front_newlines.
  destruct (trim_front (list_ascii_of_string maze)) as [|c rest] eqn:Hfront.
  - by rewrite trim_front_all_newlines.
  - rewrite trim_front_app_newlines by (by rewrite Hfront).
    by rewrite Hfront, trim_back_newlines.
Qed.

Lemma Scan_loop_skips_carriage_returns text s :
  Scan_loop s (List.filter (λ c, negb (is_carriage_return c)) text) = Scan_loop s text.
Proof.
  revert s. induction text as [|c text IH]; intros s; [done|].
  cbn [List.filter Scan_loop]. destruct (is_carriage_return c) eqn:Hc; cbn [negb].
  - unfold is_carriage_return in Hc. unfold Scan_step. rewrite Hc. apply IH.
  - cbn [Scan_loop]. destruct (Scan_step s c); [done|apply IH].
Qed.

Lemma filter_cell_chars row :
  Forall (λ c, is_cell_char c = true) row →
  List.filter (λ c, negb (is_carriage_return c)) row = row.
Proof.
  induction 1 as [|c row [_ Hc]%is_cell_char_spec _ IH]; [done|].
  simpl. by rewrite Hc, IH.
Qed.

(** The rows of a text, each one ended by a carriage return and a line
    feed. *)
Lemma crlf_rows_body rows :
  rows ≠ [] → cell_rows rows →
  ∃ c rest,
    flat_map (λ row, row ++ [carriage_return; newline]) rows
    = (c :: rest) ++ [carriage_return; newline]
    ∧ is_newline c = false
    ∧ List.filter (λ c, negb (is_carriage_return c)) (c :: rest) = join_lines rows.
Proof.
  induction rows as [|row rows IH]; [done|]. intros _ Hrows.
  apply Forall_cons in Hrows as [[Hne Hrow] Hrows].
  destruct row as [|c row]; [done|]. exists c.
  pose proof Hrow as [[Hc _]%is_cell_char_spec _]%Forall_cons.
  destruct rows as [|row' rows].
  - exists row. split_and!; [simpl; by rewrite app_nil_r|done|].
    rewrite filter_cell_chars by done. simpl. by rewrite app_nil_r.
  - destruct (IH ltac:(done) Hrows) as (c' & rest' & Hbody & _ & Hfilter).
    exists (row ++ [carriage_return; newline] ++ c' :: rest'). split_and!; [|done|].
    + change (flat_map _ ((c :: row) :: row' :: rows))
        with (((c :: row) ++ [carriage_return; newline])
              ++ flat_map (λ row, row ++ [carriage_return; newline]) (row' :: rows)).
      rewrite Hbody. simpl. by rewrite <- !app_assoc.
    + rewrite join_lines_cons, <- Hfilter.
      change (c :: row ++ [carriage_return; newline] ++ c' :: rest')
        with ((c :: row) ++ [carriage_return; newline] ++ c' :: rest').
      rewrite !List.filter_app, filter_cell_chars by done. reflexivity.
Qed.

(** X21. Rows that end with a carriage return and a line feed are read like
    rows separated by line feeds: for non-empty rows of cell characters, the
    text in which each row is followed by a carriage return and a line feed
    gives the same game, or the same error, as the rows joined by single
    line feeds. *)
Theorem crlf_line_ends_are_accepted (StateBits : N) (rows : list (list ascii)) :
  rows ≠ [] → cell_rows rows →
  Game_new StateBits
    (string_of_list_ascii (flat_map (λ row, row ++ [carriage_return; newline]) rows))
  = Game_new StateBits (string_of_list_ascii (join_lines rows)).
Proof.
  intros Hne Hrows. apply Game_new_same_scan.
  rewrite maze_text_join_lines by done.
  destruct (crlf_rows_body rows Hne Hrows) as (c & rest & -> & Hc & <-).
  unfold maze_text. rewrite list_ascii_of_string_of_list_ascii.
  rewrite trim_front_app_cell by done.
  replace (trim_back ((c :: rest) ++ [carriage_return; newline]))
    with ((c :: rest) ++ [carriage_return]).
  - rewrite <- (Scan_loop_skips_carriage_returns (_ ++ _)), List.filter_app.
    cbn [List.filter]. change (negb (is_carriage_return carriage_return)) with false.
    cbn iota. by rewrite app_nil_r.
  - generalize (c :: rest). intros l. unfold trim_back. rewrite rev_app_distr.
    change (rev [carriage_return; newline] ++ rev l)
      with (newline :: carriage_return :: rev l).
    change (trim_front (newline :: carriage_return :: rev l))
      with (rev [carriage_return] ++ rev l).
    by rewrite <- rev_app_distr, rev_involutive.
Qed.

Lemma crlf_line_ends_are_accepted_witness :
  Game_new 64
    (string_of_list_ascii
       (flat_map (λ row, row ++ [carriage_return; newline])
          (map list_ascii_of_string ["####"; "*&$#"])))
  = Game_new 64 (string_of_list_ascii
                   (join_lines (map list_ascii_of_string ["####"; "*&$#"]))).
Proof.
  apply (crlf_line_ends_are_accepted 64 (map list_ascii_of_string ["####"; "*&$#"])).
  - discriminate.
  - repeat first [apply Forall_nil_2 | apply Forall_cons_2 | split | discriminate
                 | reflexivity].
Defined.

(** * Printing a state *)

Lemma to_string_length N bits : length (to_string N bits) = N.
Proof. induction N as [|N IH]; [done|]. simpl. by rewrite IH. Qed.

Lemma to_string_binary N bits : forallb is_binary_digit (to_string N bits) = true.
Proof.
  induction N as [|N IH]; [done|]. simpl. rewrite IH.
  by destruct (Z.testbit bits (Z.of_nat N)).
Qed.

Lemma to_string_value N bits acc :
  bitset_value acc (to_string N bits) = Some (acc * 2 ^ Z.of_nat N + bits mod 2 ^ Z.of_nat N).
Proof.
  revert acc. induction N as [|N IH]; intros acc.
  - simpl. f_equal. rewrite Z.mod_1_r. lia.
  - cbn [to_string].
    assert (bits mod 2 ^ Z.of_nat (S N)
            = 2 ^ Z.of_nat N * Z.b2z (Z.testbit bits (Z.of_nat N))
              + bits mod 2 ^ Z.of_nat N) as Hbits.
    { rewrite Nat2Z.inj_succ, Z.pow_succ_r by lia.
      rewrite (Z.mul_comm 2), Z.rem_mul_r by lia.
      rewrite Z.testbit_spec' by lia. lia. }
    rewrite Hbits, Nat2Z.inj_succ, Z.pow_succ_r by lia.
    destruct (Z.testbit bits (Z.of_nat N)); cbn [bitset_value];
      change (Ascii.eqb "1" "0") with false; change (Ascii.eqb "0" "0") with true;
      change (Ascii.eqb "1" "1") with true; cbn iota;
      rewrite IH; f_equal; simpl Z.b2z; lia.
Qed.

Lemma land_3 n : Z.land n 3 = n mod 4.
Proof. change 3 with (Z.ones 2). by rewrite Z.land_ones. Qed.

Lemma pad_loop_steps k fuel str :
  (k < fuel)%nat →
  (∀ j, 0 ≤ j < Z.of_nat k → (Z.of_nat (length str) + j) mod 4 ≠ 0) →
  (Z.of_nat (length str) + Z.of_nat k) mod 4 = 0 →
  pad_loop fuel str = Some (repeat "0"%char k ++ str).
Proof.
  revert fuel str. induction k as [|k IH]; intros fuel str Hfuel Hbefore Hat.
  - destruct fuel as [|fuel]; [lia|]. simpl. rewrite land_3.
    rewrite Z.add_0_r in Hat. by rewrite Hat.
  - destruct fuel as [|fuel]; [lia|]. cbn [pad_loop]. rewrite land_3.
    pose proof (Hbefore 0 ltac:(lia)) as H0. rewrite Z.add_0_r in H0.
    apply Z.eqb_neq in H0. rewrite H0.
    rewrite (IH fuel ("0"%char :: str)).
    + f_equal. change (repeat "0"%char (S k)) with ("0"%char :: repeat "0"%char k).
      rewrite repeat_cons, <- app_assoc. reflexivity.
    + lia.
    + intros j Hj. cbn [length]. rewrite Nat2Z.inj_succ.
      replace (Z.succ (Z.of_nat (length str)) + j)
        with (Z.of_nat (length str) + (j + 1)) by lia.
      apply Hbefore. lia.
    + cbn [length]. rewrite Nat2Z.inj_succ.
      replace (Z.succ (Z.of_nat (length str)) + Z.of_nat k)
        with (Z.of_nat (length str) + Z.of_nat (S k)) by lia.
      done.
Qed.

(** The padding loop ends, with the fewest zeros that make the length a
    multiple of four. *)
Lemma pad_loop_spec str :
  ∃ k, pad_loop pad_tests str = Some (repeat "0"%char k ++ str)
       ∧ Z.of_nat k = (- Z.of_nat (length str)) mod 4.
Proof.
  pose proof (Z.mod_pos_bound (- Z.of_nat (length str)) 4 ltac:(lia)) as Hk.
  exists (Z.to_nat ((- Z.of_nat (length str)) mod 4)).
  split; [|lia]. apply pad_loop_steps.
  - unfold pad_tests. lia.
  - intros j Hj Hmod. rewrite Z2Nat.id in Hj by lia.
    apply Z.mod_divide in Hmod as [q Hq]; [|lia].
    assert (j = (- Z.of_nat (length str)) mod 4) as Hj'; [|lia].
    apply (Z.mod_unique_pos _ _ (- q)); lia.
  - rewrite Z2Nat.id by lia. rewrite Zplus_mod_idemp_r.
    replace (Z.of_nat (length str) + - Z.of_nat (length str)) with 0 by lia. done.
Qed.

Lemma bitset_value_zeros k acc str :
  bitset_value acc (repeat "0"%char k ++ str) = bitset_value (acc * 2 ^ Z.of_nat k) str.
Proof.
  revert acc. induction k as [|k IH]; intros acc.
  - simpl. f_equal. lia.
  - cbn [repeat app bitset_value]. change (Ascii.eqb "0" "0") with true. cbn iota.
    rewrite IH. f_equal. rewrite Nat2Z.inj_succ, Z.pow_succ_r by lia. lia.
Qed.

Lemma is_binary_digit_spec c :
  is_binary_digit c = true → c = "0"%char ∨ c = "1"%char.
Proof.
  unfold is_binary_digit. intros [H|H]%orb_true_iff; apply Ascii.eqb_eq in H; auto.
Qed.

Lemma bitset_value_not_binary c acc rest :
  is_binary_digit c = false → bitset_value acc (c :: rest) = None.
Proof.
  unfold is_binary_digit. intros [H0 H1]%orb_false_iff. simpl. by rewrite H0, H1.
Qed.

Lemma hex_digit_value_hex_digit n :
  0 ≤ n < 16 → hex_digit_value (hex_digit n) = Some n.
Proof.
  intros Hn.
  assert (n ∈ seqZ 0 16) as Hin by (apply elem_of_seqZ; lia).
  vm_compute seqZ in Hin.
  repeat (apply elem_of_cons in Hin as [->|Hin]; [reflexivity|]).
  by apply elem_of_nil in Hin.
Qed.

(** Four binary digits: the value [std::bitset<4>] gives them. *)
Lemma bitset_value_nibble a b c d :
  forallb is_binary_digit [a; b; c; d] = true →
  ∃ n, 0 ≤ n < 16 ∧ ∀ acc, bitset_value acc [a; b; c; d] = Some (16 * acc + n).
Proof.
  simpl. rewrite !andb_true_iff.
  intros (Ha%is_binary_digit_spec & Hb%is_binary_digit_spec
          & Hc%is_binary_digit_spec & Hd%is_binary_digit_spec & _).
  destruct Ha as [->| ->], Hb as [->| ->], Hc as [->| ->], Hd as [->| ->];
    cbn [bitset_value];
    change (Ascii.eqb "1" "0") with false; change (Ascii.eqb "0" "0") with true;
    change (Ascii.eqb "1" "1") with true; cbn iota;
    lazymatch goal with
    | |- ∃ n, _ ∧ ∀ acc, Some (@?f acc) = _ => exists (f 0)
    end; cbn beta; (split; [lia|intros acc; f_equal; lia]).
Qed.

Lemma bitset_value_app acc s1 s2 :
  bitset_value acc (s1 ++ s2) = bitset_value acc s1 ≫= λ v, bitset_value v s2.
Proof.
  revert acc. induction s1 as [|c s1 IH]; intros acc; [done|].
  simpl. destruct (Ascii.eqb c "0"); [apply IH|]. destruct (Ascii.eqb c "1"); [apply IH|done].
Qed.

(** The conversion loop on a string of [4 * n] characters. *)
Lemma hex_loop_spec n str :
  length str = (4 * n)%nat →
  match hex_loop str with
  | Some hex =>
      forallb is_binary_digit str = true ∧ length hex = n
      ∧ ∀ acc, hex_value acc hex = bitset_value acc str
  | None => forallb is_binary_digit str = false
  end.
Proof.
  revert str. induction n as [|n IH]; intros str Hlen.
  - destruct str; [|done]. simpl. done.
  - destruct str as [|a [|b [|c [|d rest]]]]; try (simpl in Hlen; lia).
    specialize (IH rest ltac:(simpl in Hlen; lia)).
    cbn [hex_loop].
    change (a :: b :: c :: d :: rest) with ([a; b; c; d] ++ rest).
    rewrite forallb_app.
    destruct (forallb is_binary_digit [a; b; c; d]) eqn:Hnib.
    + destruct (bitset_value_nibble a b c d Hnib) as (v & Hv & Hval).
      rewrite (Hval 0). cbn [mbind option_bind]. rewrite Z.mul_0_r, Z.add_0_l.
      destruct (hex_loop rest) as [hex|]; cbn [mbind option_bind andb]; [|done].
      destruct IH as (Hbin & Hhex & Hrest). split_and!; [done|simpl; lia|].
      intros acc. cbn [hex_value]. rewrite hex_digit_value_hex_digit by done.
      cbn [mbind option_bind]. rewrite Hrest, bitset_value_app, Hval. done.
    + cbn [andb].
      assert (bitset_value 0 [a; b; c; d] = None) as ->; [|done].
      simpl in Hnib.
      destruct (is_binary_digit a) eqn:Ha; [|by apply bitset_value_not_binary].
      destruct (is_binary_digit_spec a Ha) as [->| ->];
      (destruct (is_binary_digit b) eqn:Hb;
       [|by apply (bitset_value_not_binary b)]);
      destruct (is_binary_digit_spec b Hb) as [->| ->];
      (destruct (is_binary_digit c) eqn:Hc;
       [|by apply (bitset_value_not_binary c)]);
      destruct (is_binary_digit_spec c Hc) as [->| ->];
      (destruct (is_binary_digit d) eqn:Hd;
       [done|by apply (bitset_value_not_binary d)]).
Qed.

(** What [BinToHex] does with any string. *)
Lemma BinToHex_spec str :
  if forallb is_binary_digit str
  then ∃ hex, BinToHex str = Converted hex
              ∧ Z.of_nat (length hex) = (Z.of_nat (length str) + 3) / 4
              ∧ hex_value 0 hex = bitset_value 0 str
  else BinToHex str = InvalidArgument.
Proof.
  destruct (pad_loop_spec str) as (k & Hpad & Hk).
  unfold BinToHex. rewrite Hpad.
  pose proof (Z.mod_pos_bound (- Z.of_nat (length str)) 4 ltac:(lia)) as Hkb.
  assert (∃ n, length (repeat "0"%char k ++ str) = (4 * n)%nat
               ∧ Z.of_nat n = (Z.of_nat (length str) + 3) / 4) as (n & Hlen & Hn).
  { assert ((Z.of_nat (length str) + Z.of_nat k) mod 4 = 0) as Hmod.
    { rewrite Hk, Zplus_mod_idemp_r.
      replace (Z.of_nat (length str) + - Z.of_nat (length str)) with 0 by lia. done. }
    apply Z.mod_divide in Hmod as [q Hq]; [|lia].
    exists (Z.to_nat q). rewrite length_app, repeat_length. split; [lia|].
    rewrite Z2Nat.id by lia. apply (Z.div_unique _ _ _ (3 - Z.of_nat k)); lia. }
  pose proof (hex_loop_spec n _ Hlen) as Hloop.
  rewrite forallb_app in Hloop.
  assert (forallb is_binary_digit (repeat "0"%char k) = true) as Hzeros.
  { clear. induction k as [|k IH]; [done|]. simpl. by rewrite IH. }
  rewrite Hzeros in Hloop. cbn [andb] in Hloop.
  destruct (hex_loop (repeat "0"%char k ++ str)) as [hex|].
  - destruct Hloop as (-> & Hhex & Hval). exists hex. split_and!; [done|lia|].
    rewrite Hval, bitset_value_zeros. done.
  - by rewrite Hloop.
Qed.

Lemma to_string_mod M N bits :
  (N ≤ M)%nat → to_string N (bits mod 2 ^ Z.of_nat M) = to_string N bits.
Proof.
  induction N as [|N IH]; intros HN; [done|].
  cbn [to_string]. rewrite IH by lia. by rewrite Z.mod_pow2_bits_low by lia.
Qed.

Lemma BitsToHex_spec N bits :
  ∃ hex, BitsToHex N bits = Converted hex
         ∧ Z.of_nat (length hex) = (Z.of_nat N + 3) / 4
         ∧ hex_value 0 hex = Some (bits mod 2 ^ Z.of_nat N).
Proof.
  pose proof (BinToHex_spec (to_string N bits)) as Hspec.
  rewrite to_string_binary, to_string_length, to_string_value in Hspec.
  destruct Hspec as (hex & Hhex & Hlen & Hval). exists hex.
  split_and!; [done|done|]. rewrite Hval. f_equal.
Qed.

Lemma FirstColumnWidth_spec N :
  0 ≤ N → FirstColumnWidth N = Z.max (2 + (N + 3) / 4) 6.
Proof.
  intros HN. unfold FirstColumnWidth. rewrite land_3, Z.shiftr_div_pow2 by lia.
  change (2 ^ 2) with 4. f_equal.
  pose proof (Z.mod_pos_bound N 4 ltac:(lia)) as Hm.
  pose proof (Z.div_mod N 4 ltac:(lia)) as Hd.
  destruct (Z.eqb_spec (N mod 4) 0) as [H0|H0].
  - rewrite <- (Z.div_unique (N + 3) 4 (N / 4) 3); lia.
  - rewrite <- (Z.div_unique (N + 3) 4 (N / 4 + 1) (N mod 4 - 1)); lia.
Qed.

(** X22. [BinToHex] on any string: a string of the digits [0] and [1],
    the empty one included, is converted to one hexadecimal digit for every
    four characters, rounded up, and the digits stand for the same number as
    the binary string; a string with any other character makes it throw
    [std::invalid_argument]; the padding loop always ends. *)
Theorem BinToHex_converts_binary_strings (str : list ascii) :
  (forallb is_binary_digit str = true →
   ∃ hex, BinToHex str = Converted hex
          ∧ Z.of_nat (length hex) = (Z.of_nat (length str) + 3) / 4
          ∧ hex_value 0 hex = bitset_value 0 str)
  ∧ (forallb is_binary_digit str = false → BinToHex str = InvalidArgument)
  ∧ BinToHex str ≠ Unfinished.
Proof.
  pose proof (BinToHex_spec str) as Hspec.
  destruct (forallb is_binary_digit str).
  - destruct Hspec as (hex & Hhex & Hrest). split_and!; [by exists hex|done|by rewrite Hhex].
  - split_and!; [done|done|by rewrite Hspec].
Qed.

(** X23. The label of a state: [BitsToHex] of an [N]-bit state always
    returns, with one digit for every four bits, rounded up; the digits are
    the hexadecimal numeral of the state, and another state gets the same
    label exactly when it has the same [N] bits. *)
Theorem BitsToHex_is_the_hexadecimal_numeral (N : nat) (bits : Z) :
  ∃ hex, BitsToHex N bits = Converted hex
         ∧ Z.of_nat (length hex) = (Z.of_nat N + 3) / 4
         ∧ hex_value 0 hex = Some (bits mod 2 ^ Z.of_nat N)
         ∧ ∀ bits', BitsToHex N bits' = Converted hex
                    ↔ bits' mod 2 ^ Z.of_nat N = bits mod 2 ^ Z.of_nat N.
Proof.
  destruct (BitsToHex_spec N bits) as (hex & Hhex & Hlen & Hval).
  exists hex. split_and!; [done|done|done|]. intros bits'. split.
  - intros Hhex'. destruct (BitsToHex_spec N bits') as (hex' & Hhex'' & _ & Hval').
    rewrite Hhex' in Hhex''. injection Hhex'' as <-. congruence.
  - intros Hmod. rewrite <- Hhex. unfold BitsToHex.
    rewrite <- (to_string_mod N N bits'), <- (to_string_mod N N bits) by lia.
    by rewrite Hmod.
Qed.

(** X24. The first column of the printed table lines up: the label
    [0x...] of a state is never longer than [FirstColumnWidth], so printed
    right-aligned in a field of that width it takes exactly
    [FirstColumnWidth] characters, as many as the heading [State] does. *)
Theorem first_column_lines_up (N : nat) (bits : Z) :
  ∃ hex, BitsToHex N bits = Converted hex
         ∧ Z.of_nat (length ("0" :: "x" :: hex)%char) ≤ FirstColumnWidth (Z.of_nat N)
         ∧ Z.of_nat (length (right_aligned (FirstColumnWidth (Z.of_nat N))
                               ("0" :: "x" :: hex)%char))
           = FirstColumnWidth (Z.of_nat N)
         ∧ Z.of_nat (length (right_aligned (FirstColumnWidth (Z.of_nat N))
                               (list_ascii_of_string "State")))
           = FirstColumnWidth (Z.of_nat N).
Proof.
  destruct (BitsToHex_spec N bits) as (hex & Hhex & Hlen & _).
  exists hex. split; [done|].
  rewrite FirstColumnWidth_spec by lia. unfold right_aligned.
  rewrite !length_app, !repeat_length. cbn [length list_ascii_of_string].
  rewrite !Nat2Z.inj_succ in *. lia.
Qed.
